(** * GitCards: a shallow embedding of the card-game engines

    The repository holds three variants of one two-player card game:
    - [Engine]: [Python Cards/CardsGameEngine1.py], the slot-based card,
      pile and player model (top-segment burn detection, emergency slots);
    - [Base]:   [Python Cards/CardBaseGame.py], the base game with its
      validated [play], the means constraint and the status token;
    - [Full]:   [game_full_v_2.py], the full variant with offenses,
      emergency cards and the PFJ steal.
    The three files declare the same [Suit], [Rank] and [effective_rank];
    they are shared here.  Python dictionaries that the code iterates
    ([Counter], the burn table) are association lists in insertion order;
    the emergency ledger, which is only read and written by key, is a
    [gmap] keyed by the identity of the card object. *)

From Stdlib Require Import Ascii String DecimalString.
From stdpp Require Import gmap list strings.

(* ===================================================================== *)
(** ** Suits, ranks and the effective rank *)
(* ===================================================================== *)

Inductive Suit := SPADES | HEARTS | DIAMONDS | CLUBS.

Inductive Rank :=
  TWO | THREE | FOUR | FIVE | SIX | SEVEN | EIGHT | NINE | TEN | J | Q | K | A.

#[global] Instance Suit_eq_dec : EqDecision Suit.
Proof. solve_decision. Defined.

#[global] Instance Rank_eq_dec : EqDecision Rank.
Proof. solve_decision. Defined.

(** [Rank.value] *)
Definition rank_value (r : Rank) : nat :=
  match r with
  | TWO => 2 | THREE => 3 | FOUR => 4 | FIVE => 5 | SIX => 6 | SEVEN => 7
  | EIGHT => 8 | NINE => 9 | TEN => 10 | J => 11 | Q => 12 | K => 13 | A => 14
  end.

(** [Rank.name] *)
Definition rank_name (r : Rank) : string :=
  (match r with
  | TWO => "TWO" | THREE => "THREE" | FOUR => "FOUR" | FIVE => "FIVE"
  | SIX => "SIX" | SEVEN => "SEVEN" | EIGHT => "EIGHT" | NINE => "NINE"
  | TEN => "TEN" | J => "J" | Q => "Q" | K => "K" | A => "A"
  end)%string.

(** [effective_rank]: 8 and 9 are one rank for burns and means. *)
Definition effective_rank (r : Rank) : Rank :=
  match r with
  | EIGHT | NINE => EIGHT
  | _ => r
  end.

(** [r in (Rank.TWO, Rank.THREE)] *)
Definition is_two_or_three (r : Rank) : bool :=
  match r with TWO | THREE => true | _ => false end.

(** [r in (Rank.FIVE, Rank.SEVEN)] *)
Definition is_five_or_seven (r : Rank) : bool :=
  match r with FIVE | SEVEN => true | _ => false end.

(** A Python [dict] read by key: the first binding of the key. *)
Fixpoint dict_get {V : Type} (k : Rank) (d : list (Rank * V)) : option V :=
  match d with
  | [] => None
  | (k', v) :: d' => if decide (k = k') then Some v else dict_get k d'
  end.

(** [ctr[k] += 1] on a [Counter]: a present key is bumped in place, a new
    key is appended, so iteration follows the order of first insertion. *)
Fixpoint counter_incr (k : Rank) (ctr : list (Rank * nat)) : list (Rank * nat) :=
  match ctr with
  | [] => [(k, 1)]
  | (k', n) :: ctr' =>
      if decide (k = k') then (k', S n) :: ctr' else (k', n) :: counter_incr k ctr'
  end.

(** [{r: n // 4 for r, n in ctr.items() if n >= 4}] *)
Definition burn_sets (ctr : list (Rank * nat)) : list (Rank * nat) :=
  flat_map (fun '(r, n) => if 4 <=? n then [(r, n / 4)] else []) ctr.

(** How many cards of a pile are counted under the key [k]. *)
Definition keyed {C : Type} (key : C -> option Rank) (k : Rank) (pile : list C) : nat :=
  length (List.filter (fun c => bool_decide (key c = Some k)) pile).

(** The two players of a game: [players[0]] and [players[1]]. *)
Inductive Seat := P0 | P1.

#[global] Instance Seat_eq_dec : EqDecision Seat.
Proof. solve_decision. Defined.

(** [1 - idx] *)
Definition other (s : Seat) : Seat :=
  match s with P0 => P1 | P1 => P0 end.

(* ===================================================================== *)
(** ** Python strings

    Console lines, tokens and board cells are strings of ASCII characters.
    The methods the games call on them are written out here for such
    strings. *)
(* ===================================================================== *)

Module Text.

(** [ch.isspace()] for an ASCII character: tab to carriage return, the
    four separators [0x1c] to [0x1f], and the space. *)
Definition is_space (a : ascii) : bool :=
  let n := nat_of_ascii a in
  ((9 <=? n) && (n <=? 13)) || ((28 <=? n) && (n <=? 32)).

Fixpoint lstrip (s : string) : string :=
  match s with
  | EmptyString => EmptyString
  | String a s' => if is_space a then lstrip s' else s
  end.

Fixpoint rstrip (s : string) : string :=
  match s with
  | EmptyString => EmptyString
  | String a s' =>
      match rstrip s' with
      | EmptyString => if is_space a then EmptyString else String a EmptyString
      | String b r => String a (String b r)
      end
  end.

(** [s.strip()] *)
Definition strip (s : string) : string := rstrip (lstrip s).

Definition upper_char (a : ascii) : ascii :=
  let n := nat_of_ascii a in
  if (97 <=? n) && (n <=? 122) then ascii_of_nat (n - 32) else a.

(** [s.upper()] *)
Fixpoint upper (s : string) : string :=
  match s with
  | EmptyString => EmptyString
  | String a s' => String (upper_char a) (upper s')
  end.

(** [s.split(sep)] for a separator of one character: always at least one
    piece. *)
Fixpoint split_on (sep : ascii) (s : string) : list string :=
  match s with
  | EmptyString => [EmptyString]
  | String a s' =>
      if decide (a = sep) then EmptyString :: split_on sep s'
      else match split_on sep s' with
           | p :: ps => String a p :: ps
           | [] => [String a EmptyString]
           end
  end.

(** [ch in s] for a single character. *)
Fixpoint contains (a : ascii) (s : string) : bool :=
  match s with
  | EmptyString => false
  | String b s' => bool_decide (a = b) || contains a s'
  end.

(** [s[-1]] as a string (of a non-empty string) and [s[:-1]]. *)
Fixpoint last_char (s : string) : string :=
  match s with
  | EmptyString => EmptyString
  | String a EmptyString => String a EmptyString
  | String _ s' => last_char s'
  end.

Fixpoint but_last (s : string) : string :=
  match s with
  | EmptyString => EmptyString
  | String a EmptyString => EmptyString
  | String a s' => String a (but_last s')
  end.

(** [str(n)] of a natural number. *)
Definition str_of_nat (n : nat) : string := NilZero.string_of_uint (Nat.to_uint n).

(** [sep.join(pieces)] *)
Definition join (sep : string) (pieces : list string) : string :=
  String.concat sep pieces.

(** [[p.strip() for p in s.split(sep) if p.strip()]] *)
Definition pieces (sep : ascii) (s : string) : list string :=
  List.filter (fun p => negb (bool_decide (p = EmptyString))) (strip <$> split_on sep s).

(** Every character is ASCII. *)
Fixpoint is_ascii (s : string) : bool :=
  match s with
  | EmptyString => true
  | String a s' => (nat_of_ascii a <? 128) && is_ascii s'
  end.

End Text.

(* ===================================================================== *)
(** ** CardsGameEngine1.py *)
(* ===================================================================== *)

Module Engine.

(** [Card.__init__] refuses a NORMAL or EMERGENCY card without rank and
    suit and a JOKER, PFJ or FRE with one, so a constructed card is one of
    these six shapes. *)
Inductive Card :=
| Normal (r : Rank) (s : Suit)
| Joker
| PFJ
| FRE
| EmergencyRed (r : Rank) (s : Suit)
| EmergencyBlue (r : Rank) (s : Suit).

#[global] Instance Card_eq_dec : EqDecision Card.
Proof. solve_decision. Defined.

Inductive CardType :=
  NORMAL | JOKER | PFJ_T | FRE_T | EMERGENCY_RED | EMERGENCY_BLUE.

#[global] Instance CardType_eq_dec : EqDecision CardType.
Proof. solve_decision. Defined.

(** [Card(rank, suit, card_type)]: [None] is the [ValueError]. *)
Definition make_card (r : option Rank) (s : option Suit) (t : CardType) : option Card :=
  match t, r, s with
  | NORMAL, Some r, Some s => Some (Normal r s)
  | EMERGENCY_RED, Some r, Some s => Some (EmergencyRed r s)
  | EMERGENCY_BLUE, Some r, Some s => Some (EmergencyBlue r s)
  | JOKER, None, None => Some Joker
  | PFJ_T, None, None => Some PFJ
  | FRE_T, None, None => Some FRE
  | _, _, _ => None
  end.

Definition card_type (c : Card) : CardType :=
  match c with
  | Normal _ _ => NORMAL
  | Joker => JOKER
  | PFJ => PFJ_T
  | FRE => FRE_T
  | EmergencyRed _ _ => EMERGENCY_RED
  | EmergencyBlue _ _ => EMERGENCY_BLUE
  end.

(** [card.rank] *)
Definition rank (c : Card) : option Rank :=
  match c with
  | Normal r _ | EmergencyRed r _ | EmergencyBlue r _ => Some r
  | Joker | PFJ | FRE => None
  end.

Definition is_normal (c : Card) : bool :=
  match c with Normal _ _ => true | _ => false end.

(** [is_ranked]: a rank, and not one of the rankless tokens. *)
Definition is_ranked (c : Card) : bool :=
  match rank c with
  | Some _ => negb (bool_decide (card_type c ∈ [JOKER; PFJ_T; FRE_T]))
  | None => false
  end.

(** *** CommonPile: [cards], the top is the leftmost element. *)

Definition CommonPile := list Card.

(** [self.cards[:0] = reversed(cards)] *)
Definition add (pile : CommonPile) (cs : list Card) : CommonPile :=
  reverse cs ++ pile.

(** [clear]: the removed cards and the emptied pile. *)
Definition clear (pile : CommonPile) : list Card * CommonPile := (pile, []).

Definition top (pile : CommonPile) : option Card := head pile.

(** The loop variables of [detect_burns]. *)
Record Scan := mkScan {
  same : nat;
  twos : nat;
  threes : nat;
  anchor : option Rank
}.

Definition scan0 : Scan := mkScan 0 0 0 None.

(** The [for c in self.cards] loop of [detect_burns]; [break] returns the
    variables as they stand. *)
Fixpoint scan (cs : list Card) (st : Scan) : Scan :=
  match cs with
  | [] => st
  | c :: cs' =>
      if negb (is_ranked c) then scan cs' st
      else match rank c with
      | None => scan cs' st
      | Some r =>
          if decide (r = TWO)
          then scan cs' (mkScan (same st) (S (twos st)) (threes st) (anchor st))
          else if decide (r = THREE)
          then scan cs' (mkScan (same st) (twos st) (S (threes st)) (anchor st))
          else
            let er := effective_rank r in
            match anchor st with
            | None => scan cs' (mkScan (S (same st)) (twos st) (threes st) (Some er))
            | Some a =>
                if decide (er = a)
                then scan cs' (mkScan (S (same st)) (twos st) (threes st) (anchor st))
                else st
            end
      end
  end.

(** [burns[k] = v] *)
Fixpoint dict_set (k : Rank) (v : nat) (d : list (Rank * nat)) : list (Rank * nat) :=
  match d with
  | [] => [(k, v)]
  | (k', v') :: d' =>
      if decide (k = k') then (k', v) :: d' else (k', v') :: dict_set k v d'
  end.

(** The burn table built after the loop, in the order the code writes it. *)
Definition burns_of (st : Scan) : list (Rank * nat) :=
  let b0 : list (Rank * nat) := [] in
  let b1 := match anchor st with
            | Some a => if 4 <=? same st then dict_set a (same st / 4) b0 else b0
            | None => b0
            end in
  let b2 := if 4 <=? twos st then dict_set TWO (twos st / 4) b1 else b1 in
  if 4 <=? threes st then dict_set THREE (threes st / 4) b2 else b2.

Definition detect_burns (pile : CommonPile) : list (Rank * nat) :=
  burns_of (scan pile scan0).

(** *** Card objects, emergency slots and the player

    A card in a slot is a Python object: its [just_acquired] flag is
    written in place and the ledger is keyed by [id(card)].  The objects
    live in a heap keyed by their identity; zones and slots hold
    references. *)

Record CardObj := mkObj {
  obj_card : Card;
  just_acquired : bool
}.

Definition set_just_acquired (b : bool) (o : CardObj) : CardObj :=
  mkObj (obj_card o) b.

(** One entry of [emergency_actions]: [{'peek': bool, 'swap': bool}]. *)
Record Actions := mkActions {
  peek : bool;
  swap : bool
}.

Record EmergencySlot := mkSlot {
  index : nat;
  locked : bool;
  card : option nat;
  known_to_owner : bool;
  source_color : option string
}.

Definition is_empty (s : EmergencySlot) : bool :=
  match card s with None => true | Some _ => false end.

(** [EmergencySlot.set_card] *)
Definition set_card (s : EmergencySlot) (c : nat) (known : bool) : EmergencySlot :=
  mkSlot (index s) (locked s) (Some c) known (source_color s).

Definition set_source_color (s : EmergencySlot) (col : option string) : EmergencySlot :=
  mkSlot (index s) (locked s) (card s) (known_to_owner s) col.

Definition unlock (s : EmergencySlot) : EmergencySlot :=
  mkSlot (index s) false (card s) (known_to_owner s) (source_color s).

Record Player := mkPlayer {
  name : string;
  hand : list nat;
  face_up : list nat;
  face_down : list nat;
  max_emergency_slots : nat;
  emergency_slots : list EmergencySlot;
  personal_pile : list nat;
  status_token : option Rank;
  has_status_ability : bool;
  can_replenish_full : bool;
  emergency_actions : gmap nat Actions
}.

(** [Player.__init__]: slot 0 unlocked, the others locked. *)
Definition new_player (nm : string) : Player :=
  mkPlayer nm [] [] [] 4
    ((fun i => mkSlot i (bool_decide (0 < i)) None false None) <$> seq 0 4)
    [] None false false ∅.

Definition with_slots (p : Player) (sl : list EmergencySlot) : Player :=
  mkPlayer (name p) (hand p) (face_up p) (face_down p) (max_emergency_slots p)
    sl (personal_pile p) (status_token p) (has_status_ability p)
    (can_replenish_full p) (emergency_actions p).

Definition with_actions (p : Player) (acts : gmap nat Actions) : Player :=
  mkPlayer (name p) (hand p) (face_up p) (face_down p) (max_emergency_slots p)
    (emergency_slots p) (personal_pile p) (status_token p) (has_status_ability p)
    (can_replenish_full p) acts.

Definition with_hand_pile (p : Player) (h pp : list nat) : Player :=
  mkPlayer (name p) h (face_up p) (face_down p) (max_emergency_slots p)
    (emergency_slots p) pp (status_token p) (has_status_ability p)
    (can_replenish_full p) (emergency_actions p).

Definition hand_limit (p : Player) : nat :=
  if has_status_ability p then 5 else 4.

Definition pickup_common (p : Player) (cs : list nat) : Player :=
  with_hand_pile p (hand p ++ cs) (personal_pile p).

(** [replenish]: the loop pops the personal pile from the left while the
    hand is below its limit. *)
Fixpoint replenish_loop (limit : nat) (h pp : list nat) : list nat * list nat :=
  match pp with
  | [] => (h, [])
  | c :: pp' => if length h <? limit then replenish_loop limit (h ++ [c]) pp' else (h, pp)
  end.

Definition replenish (p : Player) : Player :=
  let '(h, pp) := replenish_loop (hand_limit p) (hand p) (personal_pile p) in
  with_hand_pile p h pp.

(** [first_empty_unlocked_slot]: the slot is named by its position. *)
Definition first_empty_unlocked_slot (p : Player) : option nat :=
  fst <$> list_find (fun s => negb (locked s) && is_empty s = true) (emergency_slots p).

(** [open_next_slot_and_get]: unlock the first locked slot. *)
Definition open_next_slot_and_get (p : Player) : option nat * Player :=
  match list_find (fun s => locked s = true) (emergency_slots p) with
  | Some (i, _) => (Some i, with_slots p (alter unlock i (emergency_slots p)))
  | None => (None, p)
  end.

Definition open_next_slot (p : Player) : bool * Player :=
  let '(r, p') := open_next_slot_and_get p in
  (bool_decide (is_Some r), p').

(** [fill_slot(slot, card, known_to_owner, just_acquired, source_color)];
    [i] is the position of [slot] among the player's slots, [c] the card
    object. *)
Definition fill_slot (h : gmap nat CardObj) (p : Player) (i c : nat)
    (known ja : bool) (col : option string) : gmap nat CardObj * Player :=
  let install (s : EmergencySlot) :=
    let s1 := set_card s c known in
    match col with
    | Some x => set_source_color s1 (Some x)
    | None =>
        match card_type <$> (obj_card <$> h !! c) with
        | Some EMERGENCY_RED => set_source_color s1 (Some "RED"%string)
        | Some EMERGENCY_BLUE => set_source_color s1 (Some "BLUE"%string)
        | _ => s1
        end
    end in
  let p1 := with_slots p (alter install i (emergency_slots p)) in
  let h1 := alter (set_just_acquired ja) c h in
  (h1, with_actions p1 (<[c := mkActions (negb ja) (negb ja)]> (emergency_actions p1))).

(** [getattr(s.card, 'just_acquired', False)] *)
Definition acquired_flag (h : gmap nat CardObj) (c : nat) : bool :=
  match h !! c with Some o => just_acquired o | None => false end.

(** The loop of [reset_emergency_actions]: one entry per held card,
    written in slot order. *)
Definition ledger_of (h : gmap nat CardObj) (acts : gmap nat Actions)
    (slots : list EmergencySlot) : gmap nat Actions :=
  foldl (fun acts s =>
           match card s with
           | Some c =>
               let allow := negb (acquired_flag h c) in
               <[c := mkActions allow allow]> acts
           | None => acts
           end) acts slots.

(** [reset_emergency_actions]: clear the ledger, then fill it again. *)
Definition reset_emergency_actions (h : gmap nat CardObj) (p : Player) : Player :=
  with_actions p (ledger_of h ∅ (emergency_slots p)).

(** The loop of [start_new_burn_cycle]: every held card loses its
    [just_acquired] flag. *)
Definition clear_flags (h : gmap nat CardObj) (slots : list EmergencySlot)
    : gmap nat CardObj :=
  foldl (fun h s =>
           match card s with
           | Some c => alter (set_just_acquired false) c h
           | None => h
           end) h slots.

(** [start_new_burn_cycle] *)
Definition start_new_burn_cycle (h : gmap nat CardObj) (p : Player)
    : gmap nat CardObj * Player :=
  let h1 := clear_flags h (emergency_slots p) in
  (h1, reset_emergency_actions h1 p).

(** The slot holds the card object [c]. *)
Definition holds_card (c : nat) (s : EmergencySlot) : bool :=
  bool_decide (card s = Some c).

(** [consume_emergency_action(card, which)] *)
Definition consume_emergency_action (p : Player) (c : nat) (which : string) : Player :=
  match emergency_actions p !! c with
  | Some a =>
      let available :=
        if decide (which = "peek"%string) then peek a
        else if decide (which = "swap"%string) then swap a
        else false in
      if available
      then with_actions p (<[c := mkActions false false]> (emergency_actions p))
      else p
  | None => p
  end.

(** [Deck.draw(n)]: from the left. *)
Definition draw (deck : list nat) (n : nat) : list nat * list nat :=
  (take n deck, drop n deck).

(** [grant_fre(red_deck)]: the slot used, if any. *)
Definition grant_fre (h : gmap nat CardObj) (p : Player) (red_deck : list nat)
    : option nat * (gmap nat CardObj * Player * list nat) :=
  let '(new_slot, p1) := open_next_slot_and_get p in
  let slot := match new_slot with Some i => Some i | None => first_empty_unlocked_slot p1 end in
  match slot with
  | None => (None, (h, p1, red_deck))
  | Some i =>
      let '(drawn, deck') := draw red_deck 1 in
      match drawn with
      | [] => (None, (h, p1, deck'))
      | c :: _ =>
          let '(h2, p2) := fill_slot h p1 i c true true (Some "RED"%string) in
          (Some i, (h2, p2, deck'))
      end
  end.

(** [equivalent_for_burn]: two normal cards of one effective rank. *)
Definition equivalent_for_burn (c o : Card) : bool :=
  is_normal c && is_normal o
  && bool_decide (effective_rank <$> rank c = effective_rank <$> rank o).

(** The loop variables of [top_group]. *)
Record Group := mkGroup {
  g_same : list Card;
  g_twos : list Card;
  g_threes : list Card;
  g_anchor : option Rank;
  group : list Card
}.

Definition group0 : Group := mkGroup [] [] [] None [].

(** The [for c in self.cards] loop of [top_group]. *)
Fixpoint top_group_loop (cs : list Card) (st : Group) : Group :=
  match cs with
  | [] => st
  | c :: cs' =>
      if negb (is_ranked c) then top_group_loop cs' st
      else match rank c with
      | None => top_group_loop cs' st
      | Some r =>
          if decide (r = TWO)
          then top_group_loop cs'
                 (mkGroup (g_same st) (g_twos st ++ [c]) (g_threes st) (g_anchor st)
                    (group st ++ [c]))
          else if decide (r = THREE)
          then top_group_loop cs'
                 (mkGroup (g_same st) (g_twos st) (g_threes st ++ [c]) (g_anchor st)
                    (group st ++ [c]))
          else
            match g_anchor st with
            | None =>
                top_group_loop cs'
                  (mkGroup (g_same st ++ [c]) (g_twos st) (g_threes st)
                     (Some (effective_rank r)) (group st ++ [c]))
            | Some a =>
                if decide (effective_rank r = a)
                then top_group_loop cs'
                       (mkGroup (g_same st ++ [c]) (g_twos st) (g_threes st) (g_anchor st)
                          (group st ++ [c]))
                else st
            end
      end
  end.

(** [top_group]: the ranked cards of the top segment, from the top down. *)
Definition top_group (pile : CommonPile) : list Card :=
  match pile with
  | [] => []
  | _ :: _ => group (top_group_loop pile group0)
  end.

(** What one run of the loop of [top_group] from [gs] appends to [group]:
    cards of [cs] that [detect_burns], scanning from [st], reads as it
    reads [cs]. *)
Definition group_tail_of (cs : list Card) (gs : Group) (st : Scan) (tail : list Card) : Prop :=
  group (top_group_loop cs gs) = group gs ++ tail
  /\ scan tail st = scan cs st
  /\ tail `sublist_of` cs
  /\ Forall (fun c => is_ranked c = true) tail
  /\ forall gs2, g_anchor gs2 = g_anchor gs ->
       group (top_group_loop tail gs2) = group gs2 ++ tail.

(** [needs_replenish] *)
Definition needs_replenish (p : Player) : bool :=
  length (hand p) <? hand_limit p.

(** [unlocked_slots] and [locked_slots] *)
Definition unlocked_slots (p : Player) : list EmergencySlot :=
  List.filter (fun s => negb (locked s)) (emergency_slots p).

Definition locked_slots (p : Player) : list EmergencySlot :=
  List.filter locked (emergency_slots p).

(** [emergency_cards]: the card objects held in slots, in slot order. *)
Definition emergency_cards (p : Player) : list nat :=
  omap card (emergency_slots p).

(** The decks before [shuffle].  [for s in Suit for r in Rank]: suits
    outside, ranks inside. *)
Definition all_suits : list Suit := [SPADES; HEARTS; DIAMONDS; CLUBS].

Definition all_ranks : list Rank :=
  [TWO; THREE; FOUR; FIVE; SIX; SEVEN; EIGHT; NINE; TEN; J; Q; K; A].

Definition one_common_deck : list Card :=
  (s ← all_suits; r ← all_ranks; [Normal r s]) ++ [Joker; Joker] ++ [PFJ].

(** [build_playing_deck], before the shuffle: two common decks. *)
Definition playing_deck_cards : list Card := one_common_deck ++ one_common_deck.

(** [add(r, n)] of the emergency decks: [n] cards of rank [r], the suits
    taken round-robin from [list(Suit)]. *)
Definition emergency_batch (mk : Rank -> Suit -> Card) (r : Rank) (n : nat) : list Card :=
  (fun i => mk r (default SPADES (all_suits !! (i mod length all_suits)))) <$> seq 0 n.

(** [build_red_deck], before the shuffle. *)
Definition red_deck_cards : list Card :=
  ('(r, n) ← [(FIVE, 2); (SIX, 2); (SEVEN, 2); (EIGHT, 4); (J, 4); (Q, 3); (K, 2);
              (A, 1); (TEN, 1); (FOUR, 1)];
   emergency_batch EmergencyRed r n)
  ++ [PFJ; PFJ] ++ [FRE; FRE].

(** [build_blue_deck], before the shuffle. *)
Definition blue_deck_cards : list Card :=
  ('(r, n) ← [(TWO, 4); (THREE, 4); (FOUR, 4); (TEN, 3); (J, 1); (SIX, 1)];
   emergency_batch EmergencyBlue r n)
  ++ [PFJ; PFJ] ++ [FRE; FRE].

(** [split_playing_deck_into_personal]: the top half, and the remainder. *)
Definition split_playing_deck_into_personal {X} (play : list X) : list X * list X :=
  let half := length play / 2 in
  (take half play, drop half play).

End Engine.

(* ===================================================================== *)
(** ** CardBaseGame.py *)
(* ===================================================================== *)

Module Base.

(** The base game has two card types, NORMAL and JOKER.  Its cards come
    from [build_common_deck] and [parse_single_card]: a NORMAL card with
    rank and suit, or a JOKER with neither.  [__eq__] compares type, rank
    and suit, which is equality of these values. *)
Inductive Card :=
| Normal (r : Rank) (s : Suit)
| Joker.

#[global] Instance Card_eq_dec : EqDecision Card.
Proof. solve_decision. Defined.

Definition is_normal (c : Card) : bool :=
  match c with Normal _ _ => true | Joker => false end.

Definition is_joker (c : Card) : bool :=
  match c with Joker => true | Normal _ _ => false end.

(** *** CommonPile: [cards], the top is the last element. *)

Definition CommonPile := list Card.

(** [self.cards[-1] if self.cards else None] *)
Definition top (pile : CommonPile) : option Card := last pile.

(** [self.cards.extend(cards)] *)
Definition add (pile : CommonPile) (cs : list Card) : CommonPile := pile ++ cs.

Definition clear (pile : CommonPile) : list Card * CommonPile := (pile, []).

(** The [Counter] loop of [detect_burns], over the whole pile. *)
Definition count_card (ctr : list (Rank * nat)) (c : Card) : list (Rank * nat) :=
  match c with
  | Joker => ctr
  | Normal r _ =>
      if is_two_or_three r then ctr else counter_incr (effective_rank r) ctr
  end.

Definition detect_burns (pile : CommonPile) : list (Rank * nat) :=
  burn_sets (foldl count_card [] pile).

(** The key under which [detect_burns] counts a card, if it counts it. *)
Definition burn_key (c : Card) : option Rank :=
  match c with
  | Normal r _ => if is_two_or_three r then None else Some (effective_rank r)
  | Joker => None
  end.

(** *** Player *)

Record Player := mkPlayer {
  name : string;
  hand : list Card;
  face_up : list Card;
  face_down : list Card;
  known_middle_fd : option Card;
  personal_pile : list Card;
  has_status : bool
}.

Definition new_player (nm : string) : Player :=
  mkPlayer nm [] [] [] None [] false.

Definition with_hand (p : Player) (h : list Card) : Player :=
  mkPlayer (name p) h (face_up p) (face_down p) (known_middle_fd p)
    (personal_pile p) (has_status p).

Definition with_face_up (p : Player) (fu : list Card) : Player :=
  mkPlayer (name p) (hand p) fu (face_down p) (known_middle_fd p)
    (personal_pile p) (has_status p).

Definition with_personal_pile (p : Player) (pp : list Card) : Player :=
  mkPlayer (name p) (hand p) (face_up p) (face_down p) (known_middle_fd p)
    pp (has_status p).

Definition with_has_status (p : Player) (b : bool) : Player :=
  mkPlayer (name p) (hand p) (face_up p) (face_down p) (known_middle_fd p)
    (personal_pile p) b.

Definition max_hand (p : Player) : nat := if has_status p then 5 else 4.

Fixpoint replenish_loop (limit : nat) (h pp : list Card) : list Card * list Card :=
  match pp with
  | [] => (h, [])
  | c :: pp' => if length h <? limit then replenish_loop limit (h ++ [c]) pp' else (h, pp)
  end.

Definition replenish (p : Player) : Player :=
  let '(h, pp) := replenish_loop (max_hand p) (hand p) (personal_pile p) in
  with_personal_pile (with_hand p h) pp.

Definition all_cards_empty (p : Player) : bool :=
  bool_decide (personal_pile p = []) && bool_decide (hand p = [])
  && bool_decide (face_up p = []) && bool_decide (face_down p = []).

(** The test of [remove_from_zones]: a joker for a joker, or a normal card
    of the same rank and suit. *)
Definition same_for_removal (c card : Card) : bool :=
  match c, card with
  | Joker, Joker => true
  | Normal r s, Normal r' s' => bool_decide (r = r') && bool_decide (s = s')
  | _, _ => false
  end.

(** Pop the first card of the zone that passes the test, if there is one. *)
Fixpoint pop_first (test : Card -> bool) (zone : list Card) : option (list Card) :=
  match zone with
  | [] => None
  | c :: zone' =>
      if test c then Some zone'
      else match pop_first test zone' with
           | Some z => Some (c :: z)
           | None => None
           end
  end.

(** [remove_from_zones]: the hand first, then the face-up cards. *)
Definition remove_from_zones (p : Player) (card : Card) : bool * Player :=
  match pop_first (fun c => same_for_removal c card) (hand p) with
  | Some h => (true, with_hand p h)
  | None =>
      match pop_first (fun c => same_for_removal c card) (face_up p) with
      | Some fu => (true, with_face_up p fu)
      | None => (false, p)
      end
  end.

Definition has_block_piece (p : Player) : bool :=
  existsb (fun c => match c with
                    | Joker => true
                    | Normal r _ => bool_decide (r = FOUR)
                    end) (hand p).

Definition take_pile_into_hand (p : Player) (cs : list Card) : Player :=
  with_hand p (hand p ++ cs).

(** *** GameState *)

Record GameState := mkGame {
  players : Player * Player;
  current_idx : Seat;
  common_pile : CommonPile;
  means_active : bool;
  means_limit : option Rank;
  first_burn : bool;
  status_rank : option Rank
}.

(** [GameState.__init__] *)
Definition new_game (ps : Player * Player) : GameState :=
  mkGame ps P0 [] false None false None.

Definition player (g : GameState) (s : Seat) : Player :=
  match s with P0 => fst (players g) | P1 => snd (players g) end.

Definition with_players (g : GameState) (ps : Player * Player) : GameState :=
  mkGame ps (current_idx g) (common_pile g) (means_active g) (means_limit g)
    (first_burn g) (status_rank g).

Definition set_player (g : GameState) (s : Seat) (p : Player) : GameState :=
  with_players g
    (match s with
     | P0 => (p, snd (players g))
     | P1 => (fst (players g), p)
     end).

Definition with_current (g : GameState) (s : Seat) : GameState :=
  mkGame (players g) s (common_pile g) (means_active g) (means_limit g)
    (first_burn g) (status_rank g).

Definition with_pile (g : GameState) (pile : CommonPile) : GameState :=
  mkGame (players g) (current_idx g) pile (means_active g) (means_limit g)
    (first_burn g) (status_rank g).

Definition with_means (g : GameState) (active : bool) (limit : option Rank) : GameState :=
  mkGame (players g) (current_idx g) (common_pile g) active limit
    (first_burn g) (status_rank g).

Definition with_status (g : GameState) (fb : bool) (sr : option Rank) : GameState :=
  mkGame (players g) (current_idx g) (common_pile g) (means_active g) (means_limit g)
    fb sr.

Definition current (g : GameState) : Player := player g (current_idx g).
Definition opponent (g : GameState) : Player := player g (other (current_idx g)).
Definition advance (g : GameState) : GameState := with_current g (other (current_idx g)).

(** [set_status_on_first_burn(player, burn_rank)] *)
Definition set_status_on_first_burn (g : GameState) (s : Seat) (burn_rank : Rank) : GameState :=
  if negb (first_burn g)
  then set_player (with_status g true (Some burn_rank)) s
         (with_has_status (player g s) true)
  else g.

(** [transfer_status_due_to_means(attacker, defender)]: the two writes
    happen in this order, also when both name one player. *)
Definition transfer_status_due_to_means (g : GameState) (attacker defender : Seat) : GameState :=
  if has_status (player g defender)
  then
    let g1 := set_player g defender (with_has_status (player g defender) false) in
    set_player g1 attacker (with_has_status (player g1 attacker) true)
  else g.

(** [legal_under_means(cards, via_pair)] *)
Definition legal_under_means (g : GameState) (cards : list Card) (via_pair : bool) : bool :=
  if via_pair then true
  else if negb (means_active g) then true
  else forallb (fun c =>
         match c with
         | Joker => true
         | Normal rk _ =>
             let r := effective_rank rk in
             if decide (r = THREE) then true
             else match means_limit g with
                  | Some l => negb (rank_value (effective_rank l) <=? rank_value r)
                  | None => true
                  end
         end) cards.

Inductive Msg :=
| MsgNotOwned (who : string) (c : Card)
| MsgJokerAlone
| MsgIllegalMeans
| MsgPlayed (who : string) (played : list Card)
| MsgMeans (limit : option Rank)
| MsgBurn (r : Rank)
| MsgJokerUsed (who opp : string)
| MsgBlockedJK (who : string)
| MsgBlocked (who : string) (c : Card)
| MsgBlockMissing (who : string) (c : Card)
| MsgNoBlock (who : string)
| MsgPickedUp (who : string) (n : nat)
| MsgNothingToPickUp.

(** One turn of the inner loop of [resolve_burns_if_any]. *)
Definition burn_once (g : GameState) (s : Seat) (r : Rank) : GameState :=
  let g1 := set_status_on_first_burn g s r in
  with_means (with_pile g1 (snd (clear (common_pile g1)))) false None.

Fixpoint burn_times (n : nat) (r : Rank) (s : Seat) (acc : list Msg * GameState)
    : list Msg * GameState :=
  match n with
  | 0 => acc
  | S n' => burn_times n' r s (fst acc ++ [MsgBurn r], burn_once (snd acc) s r)
  end.

(** [resolve_burns_if_any(player, msgs)]: the burn table is read once, then
    every burn set of every rank is resolved in the table's order. *)
Definition resolve_burns_if_any (g : GameState) (s : Seat) (msgs : list Msg)
    : list Msg * GameState :=
  foldl (fun acc '(r, count) => burn_times count r s acc) (msgs, g)
    (detect_burns (common_pile g)).

(** [_force_pickup(defender, msgs)] *)
Definition force_pickup (g : GameState) (defender : Seat) (msgs : list Msg)
    : list Msg * GameState :=
  let '(msgs1, g1) :=
    match common_pile g with
    | [] => (msgs, g)
    | _ :: _ =>
        let '(pile_cards, empty) := clear (common_pile g) in
        let d := take_pile_into_hand (player g defender) pile_cards in
        (msgs ++ [MsgPickedUp (name d) (length pile_cards)],
         set_player (with_pile g empty) defender d)
    end in
  (msgs1, with_means g1 false None).

(** The line read by [input] in the Joker block prompt, after
    [strip().upper()]. *)
Definition suit_of_ascii (a : ascii) : option Suit :=
  if decide (a = "S"%char) then Some SPADES
  else if decide (a = "H"%char) then Some HEARTS
  else if decide (a = "D"%char) then Some DIAMONDS
  else if decide (a = "C"%char) then Some CLUBS
  else None.

(** [len(choice) == 2 and choice[0] == '4' and choice[1] in "SHDC"] *)
Definition four_choice (choice : string) : option Suit :=
  match choice with
  | String a (String b EmptyString) =>
      if decide (a = "4"%char) then suit_of_ascii b else None
  | _ => None
  end.

(** The Joker offense at the end of [play]: [opp] may block with a Joker or
    a Four from the hand, as the line [choice] says. *)
Definition joker_offense (g : GameState) (s opp : Seat) (choice : string)
    (msgs : list Msg) : list Msg * GameState :=
  let msgs1 := msgs ++ [MsgJokerUsed (name (player g s)) (name (player g opp))] in
  if has_block_piece (player g opp) then
    if decide (choice = "JK"%string) then
      match pop_first is_joker (hand (player g opp)) with
      | Some h =>
          (msgs1 ++ [MsgBlockedJK (name (player g opp))],
           set_player g opp (with_hand (player g opp) h))
      | None => (msgs1, g)
      end
    else match four_choice choice with
    | Some su =>
        let target := Normal FOUR su in
        match pop_first (fun c => bool_decide (c = target)) (hand (player g opp)) with
        | Some h =>
            (msgs1 ++ [MsgBlocked (name (player g opp)) target],
             set_player g opp (with_hand (player g opp) h))
        | None =>
            force_pickup g opp (msgs1 ++ [MsgBlockMissing (name (player g opp)) target])
        end
    | None => force_pickup g opp (msgs1 ++ [MsgNoBlock (name (player g opp))])
    end
  else force_pickup g opp msgs1.

(** The three checks at the head of [play], in order; [Some m] is the
    early [return [m], False]. *)
Definition play_validate (g : GameState) (s : Seat) (raw_cards : list Card)
    (via_pair : bool) : option Msg :=
  let p := player g s in
  match List.find (fun rc => negb (bool_decide (rc ∈ hand p))
                             && negb (bool_decide (rc ∈ face_up p))) raw_cards with
  | Some rc => Some (MsgNotOwned (name p) rc)
  | None =>
      if existsb is_joker raw_cards && negb (length raw_cards =? 1)
      then Some MsgJokerAlone
      else if negb (legal_under_means g raw_cards via_pair)
      then Some MsgIllegalMeans
      else None
  end.

(** The removal loop of [play]: the cards that left a zone, in order. *)
Fixpoint remove_played (p : Player) (raw_cards : list Card) : list Card * Player :=
  match raw_cards with
  | [] => ([], p)
  | rc :: rest =>
      let '(ok, p1) := remove_from_zones p rc in
      let '(played, p2) := remove_played p1 rest in
      (if ok then rc :: played else played, p2)
  end.

Definition normal_ranks (cs : list Card) : list Rank :=
  flat_map (fun c => match c with Normal r _ => [r] | Joker => [] end) cs.

Definition normal_suits (cs : list Card) : list Suit :=
  flat_map (fun c => match c with Normal _ s => [s] | Joker => [] end) cs.

Definition has_means_card (played : list Card) : bool :=
  existsb (fun c => match c with
                    | Normal r _ => is_five_or_seven r
                    | Joker => false
                    end) played.

(** [via_pair_with_means] *)
Definition pair_with_means (played : list Card) (via_pair : bool) : bool :=
  via_pair
  && bool_decide (TWO ∈ normal_ranks played)
  && (bool_decide (FIVE ∈ normal_ranks played) || bool_decide (SEVEN ∈ normal_ranks played))
  && (length (remove_dups (normal_suits played)) =? 1).

(** The anchor: the last Five or Seven of the play, else Five over Seven
    for a pair that qualified without one. *)
Definition means_anchor (played : list Card) (via_pair : bool) : option Rank :=
  match List.find (fun c => match c with
                            | Normal r _ => is_five_or_seven r
                            | Joker => false
                            end) (reverse played) with
  | Some (Normal r _) => Some r
  | _ =>
      if pair_with_means played via_pair
      then Some (if bool_decide (FIVE ∈ normal_ranks played) then FIVE else SEVEN)
      else None
  end.

(** The means step of [play]: a play with a Five or Seven (or a qualifying
    pair) passes the status on and sets the constraint, any other play
    switches it off. *)
Definition play_means (g : GameState) (s opp : Seat) (played : list Card)
    (via_pair : bool) (msgs : list Msg) : list Msg * GameState :=
  if has_means_card played || pair_with_means played via_pair then
    let gt := transfer_status_due_to_means g s opp in
    let anchor := means_anchor played via_pair in
    (msgs ++ [MsgMeans anchor], with_means gt true anchor)
  else (msgs, with_means g false None).

(** The offense step of [play]: only when the last card played is a Joker. *)
Definition play_offense (g : GameState) (s opp : Seat) (played : list Card)
    (choice : string) (msgs : list Msg) : list Msg * GameState :=
  match last played with
  | Some Joker => joker_offense g s opp choice msgs
  | _ => (msgs, g)
  end.

(** [play] once the checks have passed. *)
Definition play_apply (g : GameState) (s : Seat) (raw_cards : list Card)
    (via_pair : bool) (choice : string) : (list Msg * bool) * GameState :=
  let opp := other (current_idx g) in
  let '(played, p1) := remove_played (player g s) raw_cards in
  let g1 := set_player g s p1 in
  let g2 := with_pile g1 (add (common_pile g1) played) in
  let '(msgs3, g3) := play_means g2 s opp played via_pair [MsgPlayed (name p1) played] in
  let '(msgs4, g4) := resolve_burns_if_any g3 s msgs3 in
  let '(msgs5, g5) := play_offense g4 s opp played choice msgs4 in
  ((msgs5, all_cards_empty (player g5 s)), g5).

(** [play(player, raw_cards, via_pair)]: [s] is the seat of [player], and
    [choice] the line the block prompt would read. *)
Definition play (g : GameState) (s : Seat) (raw_cards : list Card)
    (via_pair : bool) (choice : string) : (list Msg * bool) * GameState :=
  match play_validate g s raw_cards via_pair with
  | Some m => (([m], false), g)
  | None => play_apply g s raw_cards via_pair choice
  end.

(** The [pickup] command of [process_command]. *)
Definition pickup (g : GameState) : list Msg * GameState :=
  match common_pile g with
  | [] => ([MsgNothingToPickUp], g)
  | _ :: _ =>
      let '(cards, empty) := clear (common_pile g) in
      let p := take_pile_into_hand (current g) cards in
      ([MsgPickedUp (name p) (length cards)],
       set_player (with_pile g empty) (current_idx g) p)
  end.

(** The means constraint is switched off. *)
Definition means_off (g : GameState) : Prop :=
  means_active g = false /\ means_limit g = None.

(** The means constraint is as it was, or switched off. *)
Definition means_kept_or_off (g g' : GameState) : Prop :=
  (means_active g' = means_active g /\ means_limit g' = means_limit g)
  \/ means_off g'.

(** An active means constraint has a Five or a Seven as its limit. *)
Definition means_well_formed (g : GameState) : Prop :=
  means_active g = true ->
  exists L, means_limit g = Some L /\ is_five_or_seven L = true.

(** Two states with the same status record. *)
Definition same_status (g g' : GameState) : Prop :=
  first_burn g' = first_burn g /\ status_rank g' = status_rank g.

(** [status_rank] between two states of one game: once the first burn has
    happened it stays as it is, and it changes only in a passage that
    raises [first_burn]. *)
Definition status_once (g g' : GameState) : Prop :=
  (first_burn g = true -> first_burn g' = true /\ status_rank g' = status_rank g)
  /\ (first_burn g' = false -> status_rank g' = status_rank g).

(** What a game can do next: the engine's operations, and the callers'
    writes to the players' zones and to the turn (dealing, the random
    start). *)
Inductive step : GameState -> GameState -> Prop :=
| step_play g s cards via_pair choice :
    step g (snd (play g s cards via_pair choice))
| step_pickup g : step g (snd (pickup g))
| step_replenish g s : step g (set_player g s (replenish (player g s)))
| step_advance g : step g (advance g)
| step_set_status g s r : step g (set_status_on_first_burn g s r)
| step_transfer g a d : step g (transfer_status_due_to_means g a d)
| step_force g d msgs : step g (snd (force_pickup g d msgs))
| step_deal g (deal : Player -> Player) s :
    (forall p, has_status (deal p) = has_status p) ->
    step g (set_player g s (deal (player g s)))
| step_start g s : step g (with_current g s).

(** The states of a game: those reached from a fresh [GameState]. *)
Inductive reachable : GameState -> Prop :=
| reachable_new ps : reachable (new_game ps)
| reachable_step g g' : reachable g -> step g g' -> reachable g'.

(** *** Card text: [__repr__] and the parser *)

(** [Suit.value] *)
Definition suit_value (s : Suit) : string :=
  (match s with SPADES => "S" | HEARTS => "H" | DIAMONDS => "D" | CLUBS => "C" end)%string.

(** [{A: "A", K: "K", Q: "Q", J: "J"}.get(rank, str(rank.value))] *)
Definition rank_text (r : Rank) : string :=
  (match r with
   | A => "A" | K => "K" | Q => "Q" | J => "J"
   | _ => Text.str_of_nat (rank_value r)
   end)%string.

(** [Card.__repr__] *)
Definition repr (c : Card) : string :=
  match c with
  | Joker => "JK"%string
  | Normal r s => String.append (rank_text r) (suit_value s)
  end.

Definition SUIT_BY_CHAR (k : string) : option Suit :=
  (if decide (k = "S") then Some SPADES
   else if decide (k = "H") then Some HEARTS
   else if decide (k = "D") then Some DIAMONDS
   else if decide (k = "C") then Some CLUBS
   else None)%string.

Definition RANK_BY_CHAR (k : string) : option Rank :=
  (if decide (k = "A") then Some A
   else if decide (k = "K") then Some K
   else if decide (k = "Q") then Some Q
   else if decide (k = "J") then Some J
   else if decide (k = "10") then Some TEN
   else if decide (k = "9") then Some NINE
   else if decide (k = "8") then Some EIGHT
   else if decide (k = "7") then Some SEVEN
   else if decide (k = "6") then Some SIX
   else if decide (k = "5") then Some FIVE
   else if decide (k = "4") then Some FOUR
   else if decide (k = "3") then Some THREE
   else if decide (k = "2") then Some TWO
   else None)%string.

(** The three [ValueError]s of [parse_single_card]. *)
Inductive ParseError := BadCardToken | BadSuit | BadRank.

(** [parse_single_card(tok)] *)
Definition parse_single_card (tok : string) : ParseError + Card :=
  let t := Text.upper (Text.strip tok) in
  if decide (t = "JK"%string) then inr Joker
  else if String.length t <? 2 then inl BadCardToken
  else
    let suit_ch := Text.last_char t in
    let rank_str := Text.but_last t in
    match SUIT_BY_CHAR suit_ch with
    | None => inl BadSuit
    | Some s =>
        match RANK_BY_CHAR rank_str with
        | None => inl BadRank
        | Some r => inr (Normal r s)
        end
    end.

(** [[parse_single_card(s) for s in subs]]: the first error ends it. *)
Fixpoint parse_each (toks : list string) : ParseError + list Card :=
  match toks with
  | [] => inr []
  | t :: ts =>
      match parse_single_card t with
      | inl e => inl e
      | inr c =>
          match parse_each ts with
          | inl e => inl e
          | inr cs => inr (c :: cs)
          end
      end
  end.

(** The loop of [parse_cards_arg] over the comma-separated parts. *)
Fixpoint parse_parts (parts : list string) (cards : list Card) (via_pair : bool)
    : ParseError + (list Card * bool) :=
  match parts with
  | [] => inr (cards, via_pair)
  | p :: ps =>
      if Text.contains "+" p then
        match parse_each (Text.pieces "+" p) with
        | inl e => inl e
        | inr sub_cards => parse_parts ps (cards ++ sub_cards) true
        end
      else
        match parse_single_card p with
        | inl e => inl e
        | inr c => parse_parts ps (cards ++ [c]) via_pair
        end
  end.

(** [parse_cards_arg(arg)] *)
Definition parse_cards_arg (arg : string) : ParseError + (list Card * bool) :=
  parse_parts (Text.pieces "," arg) [] false.

(** *** The board: 9 rows of 13 cells *)

(** [["0"] * 13] *)
Definition blank_row : list string := replicate 13 "0"%string.

(** The two normal cards have one effective rank. *)
Definition same_effective_rank (c top : Card) : bool :=
  match c, top with
  | Normal r _, Normal r' _ => bool_decide (effective_rank r = effective_rank r')
  | _, _ => false
  end.

Definition is_normal_two_or_three (c : Card) : bool :=
  match c with Normal r _ => is_two_or_three r | Joker => false end.

(** The [while] loop of [view_line_for_board]: [behind] are the cards
    under the top card, from the top down. *)
Fixpoint trail (top : Card) (behind : list Card) (shown : nat) (row : list string)
    : list string :=
  match behind with
  | [] => row
  | c :: behind' =>
      if shown <? 2 then
        if same_effective_rank c top
        then trail top behind' (S shown) (<[8 + shown * 2 := repr c]> row)
        else if is_normal_two_or_three c
        then trail top behind' (S shown) (<[8 + shown * 2 := repr c]> row)
        else trail top behind' shown row
      else row
  end.

(** [CommonPile.view_line_for_board] *)
Definition view_line_for_board (pile : CommonPile) : list string :=
  match reverse pile with
  | [] => <[6 := "X"%string]> blank_row
  | top :: behind => trail top behind 0 (<[6 := repr top]> blank_row)
  end.

(** [for i, x in enumerate(cells): row[i] = x] *)
Fixpoint write_cells (i : nat) (cells : list string) (row : list string) : list string :=
  match cells with
  | [] => row
  | x :: cells' => write_cells (S i) cells' (<[i := x]> row)
  end.

(** [_row_hand(viewer, owner)]: the players are named by their seats. *)
Definition row_hand (g : GameState) (viewer owner : Seat) : list string :=
  let o := player g owner in
  let shown := take 11 (hand o) in
  let row :=
    if decide (owner = viewer)
    then write_cells 0 (repr <$> shown) blank_row
    else write_cells 0 ((fun _ => "X"%string) <$> shown) blank_row in
  let pile_n := length (personal_pile o) in
  <[12 := Text.str_of_nat (pile_n mod 10)]> (<[11 := Text.str_of_nat (pile_n / 10)]> row).

(** [_row_emergency_placeholder] *)
Definition row_emergency_placeholder : list string := <[0 := "X"%string]> blank_row.

(** [_status_token_text] *)
Definition status_token_text (g : GameState) : string :=
  match status_rank g with
  | None => "S"%string
  | Some r => rank_text r
  end.

(** The cell of a face-down card in [_row_face]: the owner sees the middle
    card if it is known, and ["U"] otherwise; the other player sees ["X"]. *)
Definition face_down_cell (o : Player) (idx : nat) (own : bool) : string :=
  let hidden := if own then "U"%string else "X"%string in
  match known_middle_fd o with
  | Some k => if (idx =? 1) && own then repr k else hidden
  | None => hidden
  end.

(** [_row_face(viewer, owner, top_row)] *)
Definition row_face (g : GameState) (viewer owner : Seat) (top_row : bool) : list string :=
  let o := player g owner in
  let own := bool_decide (viewer = owner) in
  let row1 :=
    foldl (fun row idx =>
             if idx <? length (face_down o)
             then <[idx := face_down_cell o idx own]> row
             else row) blank_row (seq 0 3) in
  let row2 :=
    foldl (fun row '(j, pos) =>
             match face_up o !! j with
             | Some c => <[pos := repr c]> row
             | None => row
             end) row1 [(0, 4); (1, 6); (2, 8)] in
  if first_burn g then
    if has_status o then <[12 := status_token_text g]> row2
    else <[12 := "0"%string]> row2
  else <[12 := "S"%string]> row2.

(** [board_rows_for_viewer(viewer)] *)
Definition board_rows_for_viewer (g : GameState) (viewer : Seat) : list (list string) :=
  [ row_hand g viewer P0;
    row_emergency_placeholder;
    row_face g viewer P0 true;
    <[0 := "R"%string]> blank_row;
    view_line_for_board (common_pile g);
    <[0 := "B"%string]> blank_row;
    row_face g viewer P1 false;
    row_emergency_placeholder;
    row_hand g viewer P1 ].

(** [render_for(viewer)] *)
Definition render_for (g : GameState) (viewer : Seat) : string :=
  Text.join (String (ascii_of_nat 10) EmptyString)
    (Text.join " "%string <$> board_rows_for_viewer g viewer).

(** What the board keeps from a viewer: the other player's hand and
    personal pile up to their sizes, both players' face-down cards up to
    their number, and what the other player knows of the own middle card. *)
Definition same_shown_to (viewer : Seat) (g g' : GameState) : Prop :=
  common_pile g' = common_pile g
  /\ first_burn g' = first_burn g /\ status_rank g' = status_rank g
  /\ hand (player g' viewer) = hand (player g viewer)
  /\ known_middle_fd (player g' viewer) = known_middle_fd (player g viewer)
  /\ length (hand (player g' (other viewer))) = length (hand (player g (other viewer)))
  /\ forall s,
       face_up (player g' s) = face_up (player g s)
       /\ has_status (player g' s) = has_status (player g s)
       /\ length (face_down (player g' s)) = length (face_down (player g s))
       /\ length (personal_pile (player g' s)) = length (personal_pile (player g s)).

(** *** Dealing *)

(** [build_common_deck], before the shuffle: two decks, ranks outside and
    suits inside, and two Jokers in all. *)
Definition common_deck_cards : list Card :=
  (_ ← seq 0 2;
   r ← [TWO; THREE; FOUR; FIVE; SIX; SEVEN; EIGHT; NINE; TEN; J; Q; K; A];
   s ← [SPADES; HEARTS; DIAMONDS; CLUBS];
   [Normal r s])
  ++ [Joker; Joker].

(** The split of [deal_base_game]; [extra_first] is the coin of
    [random.choice]. *)
Definition deal_split (deck : list Card) (extra_first : bool) : list Card * list Card :=
  let half := length deck / 2 in
  if extra_first then (take (half + 1) deck, drop (half + 1) deck)
  else (take half deck, drop half deck).

(** [n] times [popleft()]: none is the [IndexError] of an empty pile. *)
Definition pop_left (n : nat) (pile : list Card) : option (list Card * list Card) :=
  if n <=? length pile then Some (take n pile, drop n pile) else None.

(** Three cards face down, the middle one seen by the owner. *)
Definition deal_face_down (p : Player) : option Player :=
  match pop_left 3 (personal_pile p) with
  | Some (drawn, rest) =>
      let fd := face_down p ++ drawn in
      Some (mkPlayer (name p) (hand p) (face_up p) fd (fd !! 1) rest (has_status p))
  | None => None
  end.

(** Eight cards into the hand. *)
Definition deal_hand (p : Player) : option Player :=
  match pop_left 8 (personal_pile p) with
  | Some (drawn, rest) => Some (with_personal_pile (with_hand p (hand p ++ drawn)) rest)
  | None => None
  end.

(** [deal_base_game] up to the choice of the face-up cards. *)
Definition deal_cards (deck : list Card) (extra_first : bool) (p1 p2 : Player)
    : option (Player * Player) :=
  let '(pile1, pile2) := deal_split deck extra_first in
  match deal_face_down (with_personal_pile p1 pile1) with
  | None => None
  | Some a1 =>
      match deal_face_down (with_personal_pile p2 pile2) with
      | None => None
      | Some b1 =>
          match deal_hand a1 with
          | None => None
          | Some a2 =>
              match deal_hand b1 with
              | None => None
              | Some b2 => Some (a2, b2)
              end
          end
      end
  end.

(** The ownership check of the face-up choice: every chosen card is taken
    from a copy of the hand. *)
Fixpoint take_all (cs : list Card) (tmp : list Card) : option (list Card) :=
  match cs with
  | [] => Some tmp
  | c :: cs' =>
      match pop_first (fun x => bool_decide (x = c)) tmp with
      | Some tmp' => take_all cs' tmp'
      | None => None
      end
  end.

(** One round of the face-up choice of [deal_base_game] on the line read:
    none is an invalid selection, after which the player is asked again. *)
Definition choose_face_up (p : Player) (line : string) : option Player :=
  let sel := Text.strip line in
  let parsed := if decide (sel = EmptyString) then inr ([], false)
                else parse_cards_arg sel in
  match parsed with
  | inl _ => None
  | inr (up_cards, _) =>
      if negb (length up_cards =? 3) then None
      else match take_all up_cards (hand p) with
           | None => None
           | Some h => Some (with_face_up (with_hand p h) up_cards)
           end
  end.

(** Every card of a player, and of a game. *)
Definition cards_of (p : Player) : list Card :=
  hand p ++ face_up p ++ face_down p ++ personal_pile p.

Definition all_cards (g : GameState) : list Card :=
  cards_of (fst (players g)) ++ cards_of (snd (players g)) ++ common_pile g.

(** The status token has one holder once the first burn has happened, and
    none before. *)
Definition one_holder (g : GameState) : Prop :=
  if first_burn g
  then has_status (fst (players g)) = negb (has_status (snd (players g)))
  else has_status (fst (players g)) = false /\ has_status (snd (players g)) = false.

(** Two states with the same holders of the status token. *)
Definition same_holders (g g' : GameState) : Prop :=
  first_burn g' = first_burn g
  /\ has_status (fst (players g')) = has_status (fst (players g))
  /\ has_status (snd (players g')) = has_status (snd (players g)).

End Base.

(* ===================================================================== *)
(** ** game_full_v_2.py *)
(* ===================================================================== *)

Module Full.

(** The cards of the zones and of the pile come from [Deck.build], the
    [burn] command and [parse_card]: a NORMAL card with rank and suit, or
    one of the tokens.  This [Card] class has no [__eq__]: [in], [remove]
    and [index] compare objects, so a card carries its identity [cid]. *)
Inductive Face :=
| Normal (r : Rank) (s : Suit)
| Joker
| PFJ
| FRE.

Record Card := mkCard {
  cid : nat;
  face : Face
}.

Definition is_normal (c : Card) : bool :=
  match face c with Normal _ _ => true | _ => false end.

(** [c is c'] *)
Definition same_object (c c' : Card) : bool := bool_decide (cid c = cid c').

(** [c in zone] *)
Definition holds (zone : list Card) (c : Card) : bool :=
  existsb (same_object c) zone.

(** [zone.remove(c)], guarded by [c in zone] at each call. *)
Fixpoint remove_object (c : Card) (zone : list Card) : list Card :=
  match zone with
  | [] => []
  | c' :: zone' => if same_object c c' then zone' else c' :: remove_object c zone'
  end.

(** An emergency card.  [emergency_red] only ever receives
    [Card(card_type=EMERGENCY_RED)] objects and [emergency_blue] only
    EMERGENCY_BLUE ones (the FRE grant, the burn grant, the swap of a card
    of one list for a new card of the same type), so the type of an
    emergency card is the list that holds it; the object is its identity
    and its [just_acquired] flag. *)
Record ECard := mkECard {
  eid : nat;
  just_acquired : bool
}.

Inductive Color := RED | BLUE.

Record Actions := mkActions {
  peek : bool;
  swap : bool
}.

(** *** CommonPile: [cards], the top is the last element. *)

Definition CommonPile := list Card.

Definition add (pile : CommonPile) (cs : list Card) : CommonPile := pile ++ cs.
Definition clear (pile : CommonPile) : list Card * CommonPile := (pile, []).
Definition top (pile : CommonPile) : option Card := last pile.

Definition count_card (ctr : list (Rank * nat)) (c : Card) : list (Rank * nat) :=
  match face c with
  | Normal r _ =>
      if is_two_or_three r then ctr else counter_incr (effective_rank r) ctr
  | _ => ctr
  end.

Definition detect_burns (pile : CommonPile) : list (Rank * nat) :=
  burn_sets (foldl count_card [] pile).

(** The key under which [detect_burns] counts a card, if it counts it. *)
Definition burn_key (c : Card) : option Rank :=
  match face c with
  | Normal r _ => if is_two_or_three r then None else Some (effective_rank r)
  | _ => None
  end.

(** *** Player *)

Record Player := mkPlayer {
  name : string;
  hand : list Card;
  face_up : list Card;
  face_down : list Card;
  emergency_red : list ECard;
  emergency_blue : list ECard;
  personal_pile : list Card;
  status_token : option Rank;
  has_status_ability : bool;
  can_replenish_full : bool;
  emergency_actions : gmap nat Actions
}.

Definition new_player (nm : string) : Player :=
  mkPlayer nm [] [] [] [] [] [] None false false ∅.

Definition with_hand (p : Player) (h : list Card) : Player :=
  mkPlayer (name p) h (face_up p) (face_down p) (emergency_red p)
    (emergency_blue p) (personal_pile p) (status_token p)
    (has_status_ability p) (can_replenish_full p) (emergency_actions p).

Definition with_red (p : Player) (l : list ECard) : Player :=
  mkPlayer (name p) (hand p) (face_up p) (face_down p) l
    (emergency_blue p) (personal_pile p) (status_token p)
    (has_status_ability p) (can_replenish_full p) (emergency_actions p).

Definition with_blue (p : Player) (l : list ECard) : Player :=
  mkPlayer (name p) (hand p) (face_up p) (face_down p) (emergency_red p)
    l (personal_pile p) (status_token p)
    (has_status_ability p) (can_replenish_full p) (emergency_actions p).

Definition with_personal_pile (p : Player) (pp : list Card) : Player :=
  mkPlayer (name p) (hand p) (face_up p) (face_down p) (emergency_red p)
    (emergency_blue p) pp (status_token p)
    (has_status_ability p) (can_replenish_full p) (emergency_actions p).

Definition with_status (p : Player) (tok : option Rank) (ability : bool) : Player :=
  mkPlayer (name p) (hand p) (face_up p) (face_down p) (emergency_red p)
    (emergency_blue p) (personal_pile p) tok
    ability (can_replenish_full p) (emergency_actions p).

Definition with_can_replenish_full (p : Player) (b : bool) : Player :=
  mkPlayer (name p) (hand p) (face_up p) (face_down p) (emergency_red p)
    (emergency_blue p) (personal_pile p) (status_token p)
    (has_status_ability p) b (emergency_actions p).

Definition with_actions (p : Player) (acts : gmap nat Actions) : Player :=
  mkPlayer (name p) (hand p) (face_up p) (face_down p) (emergency_red p)
    (emergency_blue p) (personal_pile p) (status_token p)
    (has_status_ability p) (can_replenish_full p) acts.

Definition hand_limit (p : Player) : nat := if has_status_ability p then 5 else 4.

(** [len(hand) < (hand_limit() if has_status_ability else 4)] *)
Definition needs_replenish (p : Player) : bool :=
  length (hand p) <? (if has_status_ability p then hand_limit p else 4).

(** [pickup_common(cs)] *)
Definition pickup_common (p : Player) (cs : list Card) : Player :=
  with_personal_pile (with_hand p (hand p ++ cs)) [].

Fixpoint replenish_loop (p : Player) (pp : list Card) : Player :=
  match pp with
  | [] => with_personal_pile p []
  | c :: pp' =>
      if needs_replenish p
      then replenish_loop (with_hand p (hand p ++ [c])) pp'
      else with_personal_pile p pp
  end.

Definition replenish (p : Player) : Player := replenish_loop p (personal_pile p).

(** [reset_emergency_actions]: a new ledger with every held emergency card
    enabled, red cards first. *)
Definition reset_emergency_actions (p : Player) : Player :=
  with_actions p
    (foldl (fun acts c => <[eid c := mkActions true true]> acts) ∅
       (emergency_red p ++ emergency_blue p)).

(** *** GameState *)

(** One pending offense: [{'att': player, 'str': n, 'res': bool}]. *)
Record Offense := mkOffense {
  att : Seat;
  str : nat;
  res : bool
}.

Record GameState := mkGame {
  common_pile : CommonPile;
  players : Player * Player;
  current_idx : Seat;
  first_burn : bool;
  status_rank : option Rank;
  offenses : list Offense;
  interactive : bool
}.

Definition new_game (ps : Player * Player) (inter : bool) : GameState :=
  mkGame [] ps P0 false None [] inter.

Definition player (g : GameState) (s : Seat) : Player :=
  match s with P0 => fst (players g) | P1 => snd (players g) end.

Definition with_pile (g : GameState) (pile : CommonPile) : GameState :=
  mkGame pile (players g) (current_idx g) (first_burn g) (status_rank g)
    (offenses g) (interactive g).

Definition with_players (g : GameState) (ps : Player * Player) : GameState :=
  mkGame (common_pile g) ps (current_idx g) (first_burn g) (status_rank g)
    (offenses g) (interactive g).

Definition set_player (g : GameState) (s : Seat) (p : Player) : GameState :=
  with_players g
    (match s with
     | P0 => (p, snd (players g))
     | P1 => (fst (players g), p)
     end).

Definition with_current (g : GameState) (s : Seat) : GameState :=
  mkGame (common_pile g) (players g) s (first_burn g) (status_rank g)
    (offenses g) (interactive g).

Definition with_first_burn (g : GameState) (fb : bool) (sr : option Rank) : GameState :=
  mkGame (common_pile g) (players g) (current_idx g) fb sr
    (offenses g) (interactive g).

Definition with_offenses (g : GameState) (os : list Offense) : GameState :=
  mkGame (common_pile g) (players g) (current_idx g) (first_burn g) (status_rank g)
    os (interactive g).

Definition current (g : GameState) : Player := player g (current_idx g).
Definition opponent (g : GameState) : Player := player g (other (current_idx g)).
Definition advance (g : GameState) : GameState := with_current g (other (current_idx g)).

(** [set_status(p, r)] *)
Definition set_status (g : GameState) (s : Seat) (r : Rank) : GameState :=
  if negb (first_burn g)
  then set_player (with_first_burn g true (Some r)) s
         (with_status (player g s) (Some r) true)
  else g.

(** [transfer_status(src, tgt)]: [tgt] loses flag and token first, then
    [src] takes the flag and the game's [status_rank] as token. *)
Definition transfer_status (g : GameState) (src tgt : Seat) : GameState :=
  if has_status_ability (player g tgt)
  then
    let g1 := set_player g tgt (with_status (player g tgt) None false) in
    set_player g1 src (with_status (player g1 src) (status_rank g1) true)
  else g.

(** *** The world around the game

    [play] and [resolve_burns] create card objects and, in an interactive
    game, read lines from the console.  The world holds the game, the next
    free object identity and the console: the lines still to come and a
    cursor.  Of a line the code takes two views: the comma-separated names
    ([split(',')], [strip().upper()]) and whether it says [y]. *)

Record Reply := mkReply {
  names : list string;
  yes : bool
}.

Record World := mkWorld {
  game : GameState;
  fresh : nat;
  stdin : nat -> Reply;
  cursor : nat
}.

Definition M (X : Type) : Type := World -> X * World.

Definition ret {X} (x : X) : M X := fun w => (x, w).

Definition bind {X Y} (m : M X) (k : X -> M Y) : M Y :=
  fun w => let '(x, w1) := m w in k x w1.

Notation "'let*' x ':=' m 'in' k" := (bind m (fun x => k))
  (at level 10, x name, m at level 100, k at level 200).

Definition get : M GameState := fun w => (game w, w).

Definition modify (f : GameState -> GameState) : M unit :=
  fun w => (tt, mkWorld (f (game w)) (fresh w) (stdin w) (cursor w)).

(** A method that reads and writes the game only. *)
Definition run {X} (f : GameState -> X * GameState) : M X :=
  fun w => let '(x, g) := f (game w) in (x, mkWorld g (fresh w) (stdin w) (cursor w)).

(** [input(...)] *)
Definition input : M Reply :=
  fun w => (stdin w (cursor w), mkWorld (game w) (fresh w) (stdin w) (S (cursor w))).

(** A new object identity, for [Card(...)]. *)
Definition new_id : M nat :=
  fun w => (fresh w, mkWorld (game w) (S (fresh w)) (stdin w) (cursor w)).

(** [for x in xs: body], threading the messages. *)
Fixpoint for_each {X Y} (xs : list X) (body : X -> Y -> M Y) (acc : Y) : M Y :=
  match xs with
  | [] => ret acc
  | x :: xs' => let* acc1 := body x acc in for_each xs' body acc1
  end.

Definition modify_player (s : Seat) (f : Player -> Player) : M unit :=
  modify (fun g => set_player g s (f (player g s))).

Inductive Msg :=
| MsgFreRed
| MsgStatusTr
| MsgPlay (cs : list Card)
| MsgTenWipe
| MsgPfjSteal
| MsgPfj1
| MsgJkOff (n : nat)
| MsgBurn (r : Rank) (i : nat)
| MsgBlueEmergency
| MsgPeek (c : ECard)
| MsgSwap (c : ECard)
| MsgWins (who : string)
| MsgBlocked (eaten : list Card)
| MsgBlockFail
| MsgPickupForced
| MsgNo (c : Card)
| MsgNone
| MsgPicked.

(** [actions[aid]['peek'] = False] and [actions[aid]['swap'] = False] *)
Definition clear_peek (a : Actions) : Actions := mkActions false (swap a).
Definition clear_swap (a : Actions) : Actions := mkActions (peek a) false.

(** [lst[lst.index(c)] = new] *)
Fixpoint replace_object (c new : ECard) (l : list ECard) : list ECard :=
  match l with
  | [] => []
  | c' :: l' =>
      if bool_decide (eid c = eid c') then new :: l' else c' :: replace_object c new l'
  end.

(** The body of the loop of [emergency_prompt] for one card of the
    snapshot [emergency_red + emergency_blue]; [col] is the list it came
    from, that is its type. *)
Definition prompt_card (s : Seat) (cc : Color * ECard) (msgs : list Msg) : M (list Msg) :=
  let '(col, c) := cc in
  let aid := eid c in
  if just_acquired c then ret msgs
  else
    let* g := get in
    let av_peek := match emergency_actions (player g s) !! aid with
                   | Some a => peek a
                   | None => false
                   end in
    let* msgs1 :=
      (if av_peek && interactive g then
         let* r := input in
         if yes r then
           let* _ := modify_player s (fun p =>
                       with_actions p (alter clear_peek aid (emergency_actions p))) in
           ret (msgs ++ [MsgPeek c])
         else ret msgs
       else ret msgs) in
    let* g1 := get in
    let av_swap := match emergency_actions (player g1 s) !! aid with
                   | Some a => swap a
                   | None => false
                   end in
    if av_swap && interactive g1 then
      let* r := input in
      if yes r then
        let* n := new_id in
        let new := mkECard n true in
        let* _ := modify_player s (fun p =>
                    match col with
                    | RED => with_red p (replace_object c new (emergency_red p))
                    | BLUE => with_blue p (replace_object c new (emergency_blue p))
                    end) in
        let* _ := modify_player s (fun p =>
                    with_actions p (alter clear_swap aid (emergency_actions p))) in
        ret (msgs1 ++ [MsgSwap c])
      else ret msgs1
    else ret msgs1.

(** [emergency_prompt(p, msgs)] *)
Definition emergency_prompt (s : Seat) (msgs : list Msg) : M (list Msg) :=
  let* g := get in
  let snapshot := (pair RED <$> emergency_red (player g s))
                  ++ (pair BLUE <$> emergency_blue (player g s)) in
  for_each snapshot (prompt_card s) msgs.

(** A new emergency card joins a list, gated for this cycle: the ledger
    is rebuilt, then the new card's entry is switched off. *)
Definition grant_emergency (s : Seat) (col : Color) : M unit :=
  let* n := new_id in
  let c := mkECard n true in
  let* _ := modify_player s (fun p =>
              match col with
              | RED => with_red p (emergency_red p ++ [c])
              | BLUE => with_blue p (emergency_blue p ++ [c])
              end) in
  let* _ := modify_player s reset_emergency_actions in
  modify_player s (fun p =>
    with_actions p (<[n := mkActions false false]> (emergency_actions p))).

(** One turn of the inner loop of [resolve_burns], burn set [i] of rank [r]. *)
Definition burn_once (s : Seat) (r : Rank) (i : nat) (msgs : list Msg) : M (list Msg) :=
  let* _ := modify (fun g => set_status g s r) in
  let* _ := modify (fun g => with_pile g (snd (clear (common_pile g)))) in
  let* _ := grant_emergency s BLUE in
  emergency_prompt s (msgs ++ [MsgBurn r (S i); MsgBlueEmergency]).

(** [resolve_burns(p, msgs)] *)
Definition resolve_burns (s : Seat) (msgs : list Msg) : M (list Msg) :=
  let* g := get in
  let b := detect_burns (common_pile g) in
  match b with
  | [] => ret msgs
  | _ :: _ =>
      let rs := fst <$> b in
      let* order :=
        (if interactive g && (1 <? length rs) then
           let* line := input in
           let chosen := List.filter (fun r => bool_decide (rank_name r ∈ names line)) rs in
           ret (match chosen with [] => rs | _ :: _ => chosen end)
         else ret rs) in
      for_each order (fun r msgs1 =>
        for_each (seq 0 (default 0 (dict_get r b))) (burn_once s r) msgs1) msgs
  end.

(** The hand loop of [play]: every played card that is in the hand leaves it. *)
Definition remove_played (h : list Card) (cs : list Card) : list Card :=
  foldl (fun h c => if holds h c then remove_object c h else h) h cs.

Definition is_means_card (c : Card) : bool :=
  match face c with Normal r _ => is_five_or_seven r | _ => false end.

Definition is_joker (c : Card) : bool :=
  match face c with Joker => true | _ => false end.

(** [play(pl, cs, pair)] *)
Definition play (s : Seat) (cs : list Card) (pair : bool) : M (list Msg * bool) :=
  let* g0 := get in
  let opp := other (current_idx g0) in
  let* _ := modify_player s (fun p => with_hand p (remove_played (hand p) cs)) in
  let* msgs1 :=
    for_each cs (fun c msgs =>
      match face c with
      | FRE => let* _ := grant_emergency s RED in ret (msgs ++ [MsgFreRed])
      | _ => ret msgs
      end) [] in
  let m5 := existsb is_means_card cs in
  let* g1 := get in
  let* msgs2 :=
    (if m5 && has_status_ability (player g1 opp)
     then let* _ := modify (fun g => transfer_status g s opp) in ret (msgs1 ++ [MsgStatusTr])
     else ret msgs1) in
  let* _ :=
    (if m5
     then let* _ := modify_player s (fun p => with_can_replenish_full p true) in
          modify_player opp (fun p => with_can_replenish_full p true)
     else ret tt) in
  let* _ :=
    (if pair then modify_player s (fun p => with_can_replenish_full p false) else ret tt) in
  let* _ := modify (fun g => with_pile g (add (common_pile g) cs)) in
  let msgs3 := msgs2 ++ [MsgPlay cs] in
  let* msgs4 :=
    (match cs with
     | [c] =>
         match face c with
         | Normal TEN _ =>
             let* _ := modify (fun g => with_pile g (snd (clear (common_pile g)))) in
             ret (msgs3 ++ [MsgTenWipe])
         | _ => ret msgs3
         end
     | _ => ret msgs3
     end) in
  let* msgs5 :=
    for_each cs (fun c msgs =>
      match face c with
      | PFJ =>
          let* g := get in
          match personal_pile (player g opp) with
          | _ :: _ =>
              let* _ := modify (fun g =>
                          set_player g s (with_personal_pile (player g s)
                            (personal_pile (player g s) ++ personal_pile (player g opp)))) in
              let* _ := modify_player opp (fun p => with_personal_pile p []) in
              ret (msgs ++ [MsgPfjSteal])
          | [] => ret (msgs ++ [MsgPfj1])
          end
      | _ => ret msgs
      end) msgs4 in
  let jks := List.filter is_joker cs in
  let* msgs6 :=
    (match jks with
     | _ :: _ =>
         let* _ := modify (fun g =>
                     with_offenses g (offenses g ++ [mkOffense s (length jks) false])) in
         ret (msgs5 ++ [MsgJkOff (length jks)])
     | [] => ret msgs5
     end) in
  let* msgs7 := resolve_burns s msgs6 in
  let* g2 := get in
  let p := player g2 s in
  match hand p, face_up p, face_down p, personal_pile p with
  | [], [], [], [] => ret (msgs7 ++ [MsgWins (name p)], true)
  | _, _, _, _ => ret (msgs7, false)
  end.

(** The block material of [resolve_offenses]: Joker, Four or PFJ. *)
Definition blocks (c : Card) : bool :=
  match face c with
  | Joker | PFJ => true
  | Normal r _ => bool_decide (r = FOUR)
  | FRE => false
  end.

(** The first loop over the defender's hand: at most [req] block cards. *)
Fixpoint gather (req : nat) (h : list Card) (used : list Card) : list Card :=
  match h with
  | [] => used
  | c :: h' =>
      if req <=? length used then used
      else gather req h' (if blocks c then used ++ [c] else used)
  end.

(** The second loop: consume the gathered cards while some are needed. *)
Fixpoint consume (need : nat) (used : list Card) (h eaten : list Card)
    : list Card * list Card :=
  match used with
  | [] => (h, eaten)
  | c :: used' =>
      match need with
      | 0 => (h, eaten)
      | S need' =>
          if holds h c
          then consume need' used' (remove_object c h) (eaten ++ [c])
          else consume need used' h eaten
      end
  end.

(** The body of the loop of [resolve_offenses] for one pending offense. *)
Definition resolve_one (a : Offense) (acc : list Msg * GameState) : list Msg * GameState :=
  let '(msgs, g) := acc in
  if res a then acc
  else
    let d := other (current_idx g) in
    let df := player g d in
    let used := gather (str a) (hand df) [] in
    if str a <=? length used then
      let '(h, eaten) := consume (str a) used (hand df) [] in
      (msgs ++ [MsgBlocked eaten], set_player g d (with_hand df h))
    else
      let '(cards, empty) := clear (common_pile g) in
      (msgs ++ [MsgBlockFail; MsgPickupForced],
       set_player (with_pile g empty) d (pickup_common df cards)).

(** [resolve_offenses()]: every entry is marked resolved in place, so the
    final filter keeps none. *)
Definition resolve_offenses (g : GameState) : list Msg * GameState :=
  let '(msgs, g1) := foldl (fun acc a => resolve_one a acc) ([], g) (offenses g) in
  (msgs, with_offenses g1
           (List.filter (fun a => negb (res a))
              ((fun a => mkOffense (att a) (str a) true) <$> offenses g1))).

(** The [play] command of [process_command] once the tokens are parsed. *)
Definition command_play (cs : list Card) (pair : bool) : M (list Msg * bool) :=
  let* g := get in
  let s := current_idx g in
  match List.find (fun c => negb (holds (hand (player g s)) c)) cs with
  | Some c => ret ([MsgNo c], false)
  | None =>
      let* r := play s cs pair in
      let '(ms, w) := r in
      let* ms' := run resolve_offenses in
      let* _ := (if w then ret tt else modify advance) in
      ret (ms ++ ms', w)
  end.

(** The [burn] command: [play] with new cards of one rank; [suits] are the
    draws of [random.choice]. *)
Definition command_burn (r : Rank) (suits : list Suit) : M (list Msg * bool) :=
  let* g := get in
  let s := current_idx g in
  let* cs := for_each suits (fun su acc =>
               let* n := new_id in ret (acc ++ [mkCard n (Normal r su)])) [] in
  let* r := play s cs false in
  let '(ms, w) := r in
  let* ms' := run resolve_offenses in
  let* _ := (if w then ret tt else modify advance) in
  ret (ms ++ ms', w).

(** The [pickup] command. *)
Definition command_pickup (g : GameState) : list Msg * GameState :=
  match common_pile g with
  | [] => ([MsgNone], g)
  | _ :: _ =>
      let '(cards, empty) := clear (common_pile g) in
      ([MsgPicked],
       set_player (with_pile g empty) (current_idx g) (pickup_common (current g) cards))
  end.

Definition with_game (w : World) (g : GameState) : World :=
  mkWorld g (fresh w) (stdin w) (cursor w).

(** Two states with the same status record. *)
Definition same_status (g g' : GameState) : Prop :=
  first_burn g' = first_burn g /\ status_rank g' = status_rank g.

(** [status_rank] between two states of one game: once the first burn has
    happened it stays as it is, and it changes only in a passage that
    raises [first_burn]. *)
Definition status_once (g g' : GameState) : Prop :=
  (first_burn g = true -> first_burn g' = true /\ status_rank g' = status_rank g)
  /\ (first_burn g' = false -> status_rank g' = status_rank g).

(** A computation all of whose effects on the game are related by [R]. *)
Definition keeps {X} (R : GameState -> GameState -> Prop) (m : M X) : Prop :=
  forall w, R (game w) (game (snd (m w))).


(** The zones a pickup leaves alone. *)
Definition same_fixed_zones (p p' : Player) : Prop :=
  face_up p' = face_up p /\ face_down p' = face_down p
  /\ emergency_red p' = emergency_red p /\ emergency_blue p' = emergency_blue p.

(** Every emergency card of the player is flagged [just_acquired]. *)
Definition gated (p : Player) : Prop :=
  Forall (fun c => just_acquired c = true) (emergency_red p ++ emergency_blue p).

Definition all_gated (g : GameState) : Prop :=
  gated (fst (players g)) /\ gated (snd (players g)).

(** A passage that leaves every emergency card flagged, if it was. *)
Definition gated_after (g g' : GameState) : Prop := all_gated g -> all_gated g'.

(** What a game can do next: the engine's operations and commands, and the
    callers' writes to the players' zones and to the turn. *)
Inductive step : World -> World -> Prop :=
| step_play w s cs pair : step w (snd (play s cs pair w))
| step_resolve_burns w s msgs : step w (snd (resolve_burns s msgs w))
| step_emergency_prompt w s msgs : step w (snd (emergency_prompt s msgs w))
| step_resolve_offenses w : step w (snd (run resolve_offenses w))
| step_command_play w cs pair : step w (snd (command_play cs pair w))
| step_command_burn w r suits : step w (snd (command_burn r suits w))
| step_command_pickup w : step w (snd (run command_pickup w))
| step_advance w : step w (with_game w (advance (game w)))
| step_replenish w s :
    step w (with_game w (set_player (game w) s (replenish (player (game w) s))))
| step_set_status w s r : step w (with_game w (set_status (game w) s r))
| step_transfer w src tgt : step w (with_game w (transfer_status (game w) src tgt))
| step_deal w (deal : Player -> Player) s :
    step w (with_game w (set_player (game w) s (deal (player (game w) s))))
| step_start w s : step w (with_game w (with_current (game w) s)).

(** The worlds of a game: those reached from a fresh [GameState]. *)
Inductive reachable : World -> Prop :=
| reachable_new ps inter n lines k :
    reachable (mkWorld (new_game ps inter) n lines k)
| reachable_step w w' : reachable w -> step w w' -> reachable w'.

End Full.

(* ===================================================================== *)
(** ** The claim's wording of the top segment (for comparison with
       [Engine.scan]) *)
(* ===================================================================== *)

Module TopSegment.

(** A ranked card that is neither a Two nor a Three. *)
Definition is_anchor_candidate (c : Engine.Card) : bool :=
  match Engine.rank c with
  | Some r => Engine.is_ranked c && negb (is_two_or_three r)
  | None => false
  end.

Definition effective_rank_of (c : Engine.Card) : option Rank :=
  effective_rank <$> Engine.rank c.

(** The anchor: the effective rank of the first anchor candidate from the top. *)
Definition anchor_of (pile : list Engine.Card) : option Rank :=
  match List.find is_anchor_candidate pile with
  | Some c => effective_rank_of c
  | None => None
  end.

(** A card the scan passes over or counts: a token, a Two or Three, or a
    ranked card of the anchor's effective rank. *)
Definition continues (a : Rank) (c : Engine.Card) : bool :=
  negb (is_anchor_candidate c) || bool_decide (effective_rank_of c = Some a).

(** The top contiguous segment: everything above the first ranked card of a
    different effective rank. *)
Fixpoint segment_for (a : Rank) (pile : list Engine.Card) : list Engine.Card :=
  match pile with
  | [] => []
  | c :: pile' => if continues a c then c :: segment_for a pile' else []
  end.

Definition top_segment (pile : list Engine.Card) : list Engine.Card :=
  match anchor_of pile with
  | Some a => segment_for a pile
  | None => pile
  end.

(** How many cards of the list pass a test. *)
Definition count_of (test : Engine.Card -> bool) (l : list Engine.Card) : nat :=
  length (List.filter test l).

Definition is_rank (r : Rank) (c : Engine.Card) : bool :=
  Engine.is_ranked c && bool_decide (Engine.rank c = Some r).

(** Two scan states that agree on the anchor and its count. *)
Definition same_run (st st' : Engine.Scan) : Prop :=
  Engine.same st = Engine.same st' /\ Engine.anchor st = Engine.anchor st'.

End TopSegment.

(* ===================================================================== *)
(** ** Sample games *)
(* ===================================================================== *)

Module Examples.

(** A base game with A to play: A holds the Seven of clubs, the Four of
    hearts and a Joker, the pile shows a Five, and means is active below
    Five. *)
Definition base_player_a : Base.Player :=
  Base.mkPlayer "A"
    [Base.Normal SEVEN CLUBS; Base.Normal FOUR HEARTS; Base.Joker]
    [] [] None [Base.Normal SIX DIAMONDS] false.

Definition base_player_b : Base.Player :=
  Base.mkPlayer "B" [Base.Normal K SPADES] [] [] None [] false.

Definition base_game : Base.GameState :=
  Base.mkGame (base_player_a, base_player_b) P0 [Base.Normal FIVE SPADES]
    true (Some FIVE) false None.

(** The same game after a first burn on Eight. *)
Definition base_game_burnt : Base.GameState :=
  Base.mkGame (Base.with_has_status base_player_a true, base_player_b) P1 []
    false None true (Some EIGHT).

(** A game after its first burn (on Eight): three Fours lie on the pile and
    A, to play, holds the fourth. *)
Definition base_game_fours : Base.GameState :=
  Base.mkGame
    (Base.mkPlayer "A" [Base.Normal FOUR HEARTS; Base.Normal K HEARTS] [] [] None [] true,
     base_player_b)
    P0 [Base.Normal FOUR SPADES; Base.Normal FOUR DIAMONDS; Base.Normal FOUR CLUBS]
    false None true (Some EIGHT).

(** A fresh base game in which A holds an Eight, a Nine and a Five, and B
    an Eight, a Nine, a Seven and a Four. *)
Definition base_game_eights : Base.GameState :=
  Base.new_game
    (Base.mkPlayer "A"
       [Base.Normal EIGHT SPADES; Base.Normal NINE CLUBS; Base.Normal FIVE HEARTS]
       [] [] None [] false,
     Base.mkPlayer "B"
       [Base.Normal EIGHT HEARTS; Base.Normal NINE DIAMONDS;
        Base.Normal SEVEN CLUBS; Base.Normal FOUR SPADES]
       [] [] None [] false).

(** One turn: the current player plays [cards], then the turn passes. *)
Definition base_turn (g : Base.GameState) (cards : list Base.Card) : Base.GameState :=
  Base.advance (snd (Base.play g (Base.current_idx g) cards false "")).

(** A full-variant game that is not interactive, with A to play: A holds
    two Jokers and the Four of hearts; [stray] is a card nobody holds. *)
Definition jk1 : Full.Card := Full.mkCard 1 Full.Joker.
Definition jk2 : Full.Card := Full.mkCard 2 Full.Joker.
Definition four : Full.Card := Full.mkCard 3 (Full.Normal FOUR HEARTS).
Definition stray : Full.Card := Full.mkCard 9 (Full.Normal FOUR SPADES).

Definition full_player_a : Full.Player :=
  Full.mkPlayer "A" [jk1; jk2; four] [] [] [] []
    [Full.mkCard 4 (Full.Normal SIX DIAMONDS)] None false false ∅.

Definition full_player_b : Full.Player :=
  Full.mkPlayer "B" [Full.mkCard 5 (Full.Normal K SPADES)] [] [] [] []
    [Full.mkCard 6 (Full.Normal Q CLUBS)] None false false ∅.

Definition full_game : Full.GameState :=
  Full.mkGame [] (full_player_a, full_player_b) P0 false None [] false.

Definition full_world : Full.World :=
  Full.mkWorld full_game 10 (fun _ => Full.mkReply [] false) 0.

(** The same game with B to move and a Joker offense of A pending on a
    pile of one card. *)
Definition full_game_offense : Full.GameState :=
  Full.mkGame [jk1] (Full.with_hand full_player_a [jk2; four], full_player_b)
    P0 false None [Full.mkOffense P0 1 false] false.

End Examples.

(* ===================================================================== *)
(** * Properties of the engines *)
(* ===================================================================== *)

(* ===================================================================== *)
(** ** Burn detection: the scan of the slot-based engine *)
(* ===================================================================== *)

Section dict.
Lemma dict_get_set_eq k v d : dict_get k (Engine.dict_set k v d) = Some v.
Proof.
induction d as [|[k' v'] d IH]; simpl.
- by rewrite decide_True.
- destruct (decide (k = k')) as [->|Hne]; simpl.
  + by rewrite decide_True.
  + by rewrite decide_False.
Qed.

Lemma dict_get_set_ne k k' v d :
k ≠ k' → dict_get k (Engine.dict_set k' v d) = dict_get k d.
Proof.
intros Hne. induction d as [|[k2 v2] d IH]; simpl.
- by rewrite decide_False.
- destruct (decide (k' = k2)) as [->|Hne2]; simpl.
  + by rewrite !decide_False.
  + destruct (decide (k = k2)); [done|apply IH].
Qed.
End dict.

Import TopSegment.

Lemma is_anchor_candidate_rank c :
  is_anchor_candidate c = true →
  ∃ r, Engine.rank c = Some r ∧ Engine.is_ranked c = true ∧ r ≠ TWO ∧ r ≠ THREE.
Proof.
  unfold is_anchor_candidate. destruct (Engine.rank c) as [r|] eqn:Hr; [|done].
  intros [H1 H2]%andb_prop. exists r. repeat split; [done|..];
    intros ->; done.
Qed.

Lemma scan_step_transparent c cs st :
  is_anchor_candidate c = false →
  Engine.scan (c :: cs) st =
  Engine.scan cs (Engine.mkScan (Engine.same st)
    (Engine.twos st + (if is_rank TWO c then 1 else 0))
    (Engine.threes st + (if is_rank THREE c then 1 else 0))
    (Engine.anchor st)).
Proof.
  intros Hc. simpl. unfold is_anchor_candidate, is_rank in *.
  destruct (Engine.is_ranked c) eqn:Hrk; simpl.
  - destruct (Engine.rank c) as [r|] eqn:Hr; simpl in *.
    + destruct (decide (r = TWO)) as [->|H2].
      { rewrite bool_decide_true by done. rewrite bool_decide_false by done.
        f_equal. destruct st; simpl; f_equal; lia. }
      destruct (decide (r = THREE)) as [->|H3].
      { rewrite bool_decide_false by done. rewrite bool_decide_true by done.
        f_equal. destruct st; simpl; f_equal; lia. }
      destruct r; done.
    + destruct st; simpl. f_equal. f_equal; lia.
  - destruct st; simpl. f_equal. f_equal; lia.
Qed.

Lemma scan_step_anchor c cs st :
  is_anchor_candidate c = true → Engine.anchor st = None →
  Engine.scan (c :: cs) st =
  Engine.scan cs (Engine.mkScan (S (Engine.same st)) (Engine.twos st)
                    (Engine.threes st) (effective_rank_of c)).
Proof.
  intros (r & Hr & Hrk & H2 & H3)%is_anchor_candidate_rank Ha. simpl.
  unfold effective_rank_of. rewrite Hrk, Hr. simpl.
  rewrite !decide_False by done. by rewrite Ha.
Qed.

Lemma scan_step_same a c cs st :
  is_anchor_candidate c = true → Engine.anchor st = Some a →
  effective_rank_of c = Some a →
  Engine.scan (c :: cs) st =
  Engine.scan cs (Engine.mkScan (S (Engine.same st)) (Engine.twos st)
                    (Engine.threes st) (Some a)).
Proof.
  intros (r & Hr & Hrk & H2 & H3)%is_anchor_candidate_rank Ha He. simpl.
  unfold effective_rank_of in He. rewrite Hr in He. simpl in He.
  injection He as He. rewrite Hrk, Hr. simpl.
  rewrite !decide_False by done. rewrite Ha. by rewrite decide_True.
Qed.

Lemma scan_step_break a c cs st :
  is_anchor_candidate c = true → Engine.anchor st = Some a →
  effective_rank_of c ≠ Some a →
  Engine.scan (c :: cs) st = st.
Proof.
  intros (r & Hr & Hrk & H2 & H3)%is_anchor_candidate_rank Ha He. simpl.
  unfold effective_rank_of in He. rewrite Hr in He. simpl in He.
  rewrite Hrk, Hr. simpl.
  rewrite !decide_False by done. rewrite Ha.
  rewrite decide_False; [done|]. intros E. apply He. f_equal. exact E.
Qed.

Lemma is_rank_not_candidate r c :
  is_two_or_three r = true → is_rank r c = true → is_anchor_candidate c = false.
Proof.
  unfold is_rank, is_anchor_candidate.
  intros Hr [H1 H2%bool_decide_eq_true]%andb_prop. rewrite H2, H1, Hr. done.
Qed.

Lemma candidate_not_is_rank r c :
  is_two_or_three r = true → is_anchor_candidate c = true → is_rank r c = false.
Proof.
  intros Hr Hc. destruct (is_rank r c) eqn:E; [|done].
  by rewrite (is_rank_not_candidate r c Hr E) in Hc.
Qed.

(** The scan from an anchored state counts over the segment. *)
Lemma scan_anchored a cs st :
  Engine.anchor st = Some a →
  Engine.scan cs st =
  Engine.mkScan
    (Engine.same st + count_of is_anchor_candidate (segment_for a cs))
    (Engine.twos st + count_of (is_rank TWO) (segment_for a cs))
    (Engine.threes st + count_of (is_rank THREE) (segment_for a cs))
    (Some a).
Proof.
  revert st. induction cs as [|c cs IH]; intros st Ha.
  - simpl. destruct st; simpl in *. subst. unfold count_of. simpl.
    f_equal; lia.
  - cbn [segment_for]. unfold continues.
    destruct (is_anchor_candidate c) eqn:Hc; cbn [negb orb].
    + case_bool_decide as He.
      * rewrite (scan_step_same a) by done. rewrite IH by done.
        unfold count_of. cbn [List.filter]. rewrite Hc.
        rewrite !candidate_not_is_rank by done. simpl. f_equal; lia.
      * rewrite (scan_step_break a) by done.
        destruct st; simpl in *; subst. unfold count_of; simpl. f_equal; lia.
    + rewrite scan_step_transparent by done. rewrite IH by done.
      unfold count_of. cbn [List.filter]. rewrite Hc. simpl.
      destruct (is_rank TWO c), (is_rank THREE c); simpl; f_equal; lia.
Qed.

Lemma anchor_of_cons_transparent c cs :
  is_anchor_candidate c = false → anchor_of (c :: cs) = anchor_of cs.
Proof. intros Hc. unfold anchor_of. simpl. by rewrite Hc. Qed.

Lemma anchor_of_cons_candidate c cs :
  is_anchor_candidate c = true → anchor_of (c :: cs) = effective_rank_of c.
Proof. intros Hc. unfold anchor_of. simpl. by rewrite Hc. Qed.

Lemma top_segment_cons_transparent c cs :
  is_anchor_candidate c = false → top_segment (c :: cs) = c :: top_segment cs.
Proof.
  intros Hc. unfold top_segment. rewrite anchor_of_cons_transparent by done.
  destruct (anchor_of cs); [|done]. simpl. unfold continues. by rewrite Hc.
Qed.

Lemma candidate_effective_rank c :
  is_anchor_candidate c = true →
  ∃ a, effective_rank_of c = Some a ∧ a ≠ TWO ∧ a ≠ THREE.
Proof.
  intros (r & Hr & _ & H2 & H3)%is_anchor_candidate_rank.
  exists (effective_rank r). unfold effective_rank_of. rewrite Hr.
  split; [done|]. destruct r; done.
Qed.

(** The scan of a whole pile, in the words of the claim. *)
Lemma scan_unanchored cs st :
  Engine.anchor st = None →
  Engine.scan cs st =
  Engine.mkScan
    (Engine.same st + count_of is_anchor_candidate (top_segment cs))
    (Engine.twos st + count_of (is_rank TWO) (top_segment cs))
    (Engine.threes st + count_of (is_rank THREE) (top_segment cs))
    (anchor_of cs).
Proof.
  revert st. induction cs as [|c cs IH]; intros st Ha.
  - destruct st; simpl in *; subst. unfold count_of; simpl. f_equal; lia.
  - destruct (is_anchor_candidate c) eqn:Hc.
    + destruct (candidate_effective_rank c Hc) as (a & He & _).
      rewrite scan_step_anchor by done.
      rewrite (scan_anchored a) by (by rewrite He).
      unfold top_segment. rewrite anchor_of_cons_candidate, He by done.
      cbn [segment_for]. unfold continues.
      rewrite Hc, He, bool_decide_true by done. cbn [negb orb].
      unfold count_of. cbn [List.filter]. rewrite Hc.
      rewrite !candidate_not_is_rank by done. simpl. f_equal; lia.
    + rewrite scan_step_transparent by done. rewrite IH by done.
      rewrite top_segment_cons_transparent, anchor_of_cons_transparent by done.
      unfold count_of. cbn [List.filter]. rewrite Hc. simpl.
      destruct (is_rank TWO c), (is_rank THREE c); simpl; f_equal; lia.
Qed.

Lemma scan_spec pile :
  Engine.scan pile Engine.scan0 =
  Engine.mkScan
    (count_of is_anchor_candidate (top_segment pile))
    (count_of (is_rank TWO) (top_segment pile))
    (count_of (is_rank THREE) (top_segment pile))
    (anchor_of pile).
Proof. by rewrite scan_unanchored. Qed.

Lemma burns_of_get_main k st :
  k ≠ TWO → k ≠ THREE →
  dict_get k (Engine.burns_of st) =
  if decide (Engine.anchor st = Some k)
  then (if 4 <=? Engine.same st then Some (Engine.same st / 4) else None)
  else None.
Proof.
  intros H2 H3. unfold Engine.burns_of.
  destruct (Engine.anchor st) as [a|];
    destruct (4 <=? Engine.same st), (4 <=? Engine.twos st),
      (4 <=? Engine.threes st); simpl;
    repeat (case_decide; simplify_eq; simpl); try done.
Qed.

Lemma burns_of_get_two st :
  Engine.anchor st ≠ Some TWO →
  dict_get TWO (Engine.burns_of st) =
  if 4 <=? Engine.twos st then Some (Engine.twos st / 4) else None.
Proof.
  intros Ha. unfold Engine.burns_of.
  destruct (Engine.anchor st) as [a|];
    destruct (4 <=? Engine.same st), (4 <=? Engine.twos st),
      (4 <=? Engine.threes st); simpl;
    repeat (case_decide; simplify_eq; simpl); try done.
Qed.

Lemma burns_of_get_three st :
  Engine.anchor st ≠ Some THREE →
  dict_get THREE (Engine.burns_of st) =
  if 4 <=? Engine.threes st then Some (Engine.threes st / 4) else None.
Proof.
  intros Ha. unfold Engine.burns_of.
  destruct (Engine.anchor st) as [a|];
    destruct (4 <=? Engine.same st), (4 <=? Engine.twos st),
      (4 <=? Engine.threes st); simpl;
    repeat (case_decide; simplify_eq; simpl); try done.
Qed.

Lemma anchor_of_not_two_three pile a :
  anchor_of pile = Some a → a ≠ TWO ∧ a ≠ THREE.
Proof.
  unfold anchor_of. destruct (List.find is_anchor_candidate pile) as [c|] eqn:Hf; [|done].
  apply find_some in Hf as [_ Hc]. intros He.
  destruct (candidate_effective_rank c Hc) as (a' & He' & H2 & H3).
  rewrite He in He'. by simplify_eq.
Qed.

(** Cards below the first ranked card that differs from the anchor are
    never read. *)
Lemma scan_stops_at_break seg d rest a st :
  Engine.anchor (Engine.scan seg st) = Some a →
  is_anchor_candidate d = true → effective_rank_of d ≠ Some a →
  Engine.scan (seg ++ d :: rest) st = Engine.scan seg st.
Proof.
  intros Ha Hd He. revert st Ha. induction seg as [|c seg IH]; intros st Ha.
  - simpl in *. by apply (scan_step_break a).
  - rewrite <- app_comm_cons. simpl in *.
    repeat case_match; try done; by apply IH.
Qed.

Lemma scan_segment_for a cs st :
  Engine.anchor st = Some a →
  Engine.scan (segment_for a cs) st = Engine.scan cs st.
Proof.
  revert st. induction cs as [|c cs IH]; intros st Ha; [done|].
  cbn [segment_for]. unfold continues.
  destruct (is_anchor_candidate c) eqn:Hc; cbn [negb orb].
  - case_bool_decide as He.
    + rewrite !(scan_step_same a) by done. by apply IH.
    + by rewrite (scan_step_break a c cs).
  - rewrite !scan_step_transparent by done. by apply IH.
Qed.

Lemma scan_top_segment cs st :
  Engine.anchor st = None →
  Engine.scan (top_segment cs) st = Engine.scan cs st.
Proof.
  revert st. induction cs as [|c cs IH]; intros st Ha; [done|].
  destruct (is_anchor_candidate c) eqn:Hc.
  - destruct (candidate_effective_rank c Hc) as (a & He & _).
    unfold top_segment. rewrite anchor_of_cons_candidate, He by done.
    cbn [segment_for]. unfold continues.
    rewrite Hc, He, bool_decide_true by done. cbn [negb orb].
    rewrite !scan_step_anchor by done. apply scan_segment_for. by rewrite He.
  - rewrite top_segment_cons_transparent by done.
    rewrite !scan_step_transparent by done. by apply IH.
Qed.

Lemma scan_same_run cs st st' :
  same_run st st' → same_run (Engine.scan cs st) (Engine.scan cs st').
Proof.
  revert st st'. induction cs as [|c cs IH]; intros st st' [Hs Ha]; [done|].
  simpl. rewrite <- Ha.
  repeat case_match; try done;
    first [ apply IH; split; simpl; congruence | split; congruence ].
Qed.

Lemma scan_insert_transparent l1 c l2 st :
  is_anchor_candidate c = false →
  same_run (Engine.scan (l1 ++ c :: l2) st) (Engine.scan (l1 ++ l2) st).
Proof.
  intros Hc. revert st. induction l1 as [|x l1 IH]; intros st.
  - rewrite !app_nil_l. rewrite scan_step_transparent by done.
    apply scan_same_run. done.
  - rewrite <- !app_comm_cons. simpl.
    repeat case_match; try done; apply IH.
Qed.

Lemma burns_of_same_run k st st' :
  k ≠ TWO → k ≠ THREE → same_run st st' →
  dict_get k (Engine.burns_of st) = dict_get k (Engine.burns_of st').
Proof.
  intros H2 H3 [Hs Ha]. rewrite !burns_of_get_main by done.
  by rewrite Hs, Ha.
Qed.

Lemma two_or_three_not_candidate c r :
  Engine.rank c = Some r → is_two_or_three r = true → is_anchor_candidate c = false.
Proof.
  intros Hr H23. unfold is_anchor_candidate. rewrite Hr, H23.
  by rewrite andb_false_r.
Qed.

(* ===================================================================== *)
(** ** Burn detection: the counters of the base game and the full variant *)
(* ===================================================================== *)

(** *** Counters *)

Lemma dict_get_None {V} k (d : list (Rank * V)) :
  dict_get k d = None ↔ k ∉ d.*1.
Proof.
  induction d as [|[k' v] d IH]; csimpl.
  - split; [intros _; apply not_elem_of_nil|done].
  - destruct (decide (k = k')) as [->|Hk].
    + split; [done|]. intros H. exfalso. apply H. apply list_elem_of_here.
    + rewrite IH. rewrite not_elem_of_cons. tauto.
Qed.

Lemma counter_incr_keys k ctr :
  (counter_incr k ctr).*1 = if bool_decide (k ∈ ctr.*1) then ctr.*1 else ctr.*1 ++ [k].
Proof.
  induction ctr as [|[k' n] ctr IH]; csimpl; [done|].
  destruct (decide (k = k')) as [->|Hk]; csimpl.
  - rewrite bool_decide_true; [done|apply list_elem_of_here].
  - rewrite IH. case_bool_decide as Hin.
    + rewrite bool_decide_true; [done|by apply list_elem_of_further].
    + rewrite bool_decide_false; [done|]. rewrite not_elem_of_cons. done.
Qed.

Lemma counter_incr_NoDup k ctr : NoDup ctr.*1 → NoDup (counter_incr k ctr).*1.
Proof.
  intros Hnd. rewrite counter_incr_keys. case_bool_decide as Hin; [done|].
  apply NoDup_app. split_and!; [done| |apply NoDup_singleton].
  intros x Hx ->%list_elem_of_singleton. done.
Qed.

Lemma counter_incr_get k k' ctr :
  dict_get k (counter_incr k' ctr) =
  if decide (k = k') then Some (S (default 0 (dict_get k ctr))) else dict_get k ctr.
Proof.
  induction ctr as [|[k2 n] ctr IH]; simpl.
  - by case_decide.
  - destruct (decide (k' = k2)) as [->|Hne]; simpl.
    + destruct (decide (k = k2)); done.
    + destruct (decide (k = k2)) as [->|Hne2].
      * by rewrite decide_False.
      * apply IH.
Qed.

Lemma burn_sets_get k ctr :
  NoDup ctr.*1 →
  dict_get k (burn_sets ctr) =
  match dict_get k ctr with
  | Some n => if 4 <=? n then Some (n / 4) else None
  | None => None
  end.
Proof.
  unfold burn_sets. induction ctr as [|[k' n] ctr IH]; [done|].
  rewrite fmap_cons. intros [Hnin Hnd]%NoDup_cons.
  cbn [flat_map dict_get fst].
  destruct (decide (k = k')) as [->|Hne].
  - destruct (4 <=? n); cbn [app dict_get].
    + by rewrite decide_True.
    + rewrite IH by done.
      apply (dict_get_None k' ctr) in Hnin. by rewrite Hnin.
  - destruct (4 <=? n); cbn [app dict_get].
    + rewrite decide_False by done. by apply IH.
    + by apply IH.
Qed.

(** A counting loop over a pile: each card bumps the counter of its key,
    if it has one. *)
Section counting.
Context {C : Type} (key : C → option Rank).
Context (count : list (Rank * nat) → C → list (Rank * nat)).
Hypothesis count_key : ∀ ctr c,
  count ctr c = match key c with Some k => counter_incr k ctr | None => ctr end.

Lemma foldl_count_NoDup pile ctr :
  NoDup ctr.*1 → NoDup (foldl count ctr pile).*1.
Proof.
  revert ctr. induction pile as [|c pile IH]; intros ctr Hnd; [done|].
  simpl. apply IH. rewrite count_key. destruct (key c); [|done].
  by apply counter_incr_NoDup.
Qed.

Lemma foldl_count_get k pile ctr :
  default 0 (dict_get k (foldl count ctr pile)) =
  default 0 (dict_get k ctr) + keyed key k pile.
Proof.
  revert ctr. induction pile as [|c pile IH]; intros ctr.
  - unfold keyed. simpl. lia.
  - cbn [foldl]. rewrite IH. rewrite count_key. unfold keyed. cbn [List.filter].
    destruct (key c) as [k'|].
    + rewrite counter_incr_get. destruct (decide (k = k')) as [->|Hne].
      * rewrite bool_decide_true by done. simpl. lia.
      * rewrite bool_decide_false by congruence. done.
    + rewrite bool_decide_false by done. done.
Qed.

Lemma burn_sets_foldl_count k pile :
  dict_get k (burn_sets (foldl count [] pile)) =
  if 4 <=? keyed key k pile then Some (keyed key k pile / 4) else None.
Proof.
  rewrite burn_sets_get by (apply foldl_count_NoDup; constructor).
  pose proof (foldl_count_get k pile []) as H. simpl in H.
  destruct (dict_get k (foldl count [] pile)) as [n|]; simpl in H; rewrite <- H; done.
Qed.
End counting.

Lemma base_detect_burns_get k pile :
  dict_get k (Base.detect_burns pile) =
  if 4 <=? keyed Base.burn_key k pile
  then Some (keyed Base.burn_key k pile / 4) else None.
Proof.
  apply burn_sets_foldl_count. intros ctr [r s|]; simpl; [|done].
  by destruct (is_two_or_three r).
Qed.

Lemma full_detect_burns_get k pile :
  dict_get k (Full.detect_burns pile) =
  if 4 <=? keyed Full.burn_key k pile
  then Some (keyed Full.burn_key k pile / 4) else None.
Proof.
  apply burn_sets_foldl_count. intros ctr [i [r s| | |]];
    unfold Full.count_card, Full.burn_key; simpl; try done.
  by destruct (is_two_or_three r).
Qed.

Lemma base_two_three_transparent l1 r s l2 :
  is_two_or_three r = true →
  Base.detect_burns (l1 ++ Base.Normal r s :: l2) = Base.detect_burns (l1 ++ l2).
Proof.
  intros Hr. unfold Base.detect_burns. rewrite !foldl_app. simpl. by rewrite Hr.
Qed.

Lemma full_two_three_transparent l1 i r s l2 :
  is_two_or_three r = true →
  Full.detect_burns (l1 ++ Full.mkCard i (Full.Normal r s) :: l2)
  = Full.detect_burns (l1 ++ l2).
Proof.
  intros Hr. unfold Full.detect_burns. rewrite !foldl_app. simpl.
  unfold Full.count_card at 2. simpl. by rewrite Hr.
Qed.

Lemma keyed_two_three_base k pile :
  is_two_or_three k = true → keyed Base.burn_key k pile = 0.
Proof.
  intros Hk. unfold keyed. induction pile as [|c pile IH]; [done|].
  cbn [List.filter]. rewrite bool_decide_false; [done|].
  destruct c as [r s|]; simpl; [|done].
  destruct (is_two_or_three r) eqn:Hr; [done|].
  intros [= <-]. destruct r; done.
Qed.

Lemma keyed_two_three_full k pile :
  is_two_or_three k = true → keyed Full.burn_key k pile = 0.
Proof.
  intros Hk. unfold keyed. induction pile as [|c pile IH]; [done|].
  cbn [List.filter]. rewrite bool_decide_false; [done|].
  destruct c as [i [r s| | |]]; unfold Full.burn_key; simpl; try done.
  destruct (is_two_or_three r) eqn:Hr; [done|].
  intros [= <-]. destruct r; done.
Qed.

(** C1 (amended): in the slot-based engine [detect_burns] reads the top
    segment only.  The anchor is the effective rank of the first ranked
    card from the top that is neither a Two nor a Three, its burn count
    is the number of such cards in the top segment divided by four (from
    four on), no other rank than the anchor, Two and Three is ever
    reported, and everything below the first ranked card of a different
    effective rank is ignored.  The base game's [detect_burns] counts over
    the whole pile instead. *)
Theorem engine_detect_burns_top_segment (pile : list Engine.Card) :
  Engine.detect_burns pile = Engine.detect_burns (top_segment pile)
  ∧ Engine.anchor (Engine.scan pile Engine.scan0) = anchor_of pile
  ∧ (∀ a, anchor_of pile = Some a →
       dict_get a (Engine.detect_burns pile) =
       if 4 <=? count_of is_anchor_candidate (top_segment pile)
       then Some (count_of is_anchor_candidate (top_segment pile) / 4)
       else None)
  ∧ (∀ r, r ≠ TWO → r ≠ THREE → anchor_of pile ≠ Some r →
       dict_get r (Engine.detect_burns pile) = None)
  ∧ (∀ seg d rest a,
       pile = seg ++ d :: rest → anchor_of seg = Some a →
       is_anchor_candidate d = true → effective_rank_of d ≠ Some a →
       Engine.detect_burns pile = Engine.detect_burns seg)
  ∧ (∀ k (whole : list Base.Card),
       dict_get k (Base.detect_burns whole) =
       if 4 <=? keyed Base.burn_key k whole
       then Some (keyed Base.burn_key k whole / 4) else None).
Proof.
  split_and!.
  - unfold Engine.detect_burns. by rewrite scan_top_segment.
  - by rewrite scan_spec.
  - intros a Ha. destruct (anchor_of_not_two_three pile a Ha) as [H2 H3].
    unfold Engine.detect_burns. rewrite burns_of_get_main by done.
    rewrite scan_spec. simpl. by rewrite decide_True.
  - intros r H2 H3 Ha. unfold Engine.detect_burns.
    rewrite burns_of_get_main by done. rewrite scan_spec. simpl.
    by rewrite decide_False.
  - intros seg d rest a -> Ha Hd He. unfold Engine.detect_burns.
    f_equal. apply (scan_stops_at_break seg d rest a); [|done..].
    by rewrite scan_spec.
  - apply base_detect_burns_get.
Qed.

(** A pile on which the buried-cards part of C1 applies: a Seven on top of
    four Eights and Nines. *)
Lemma engine_detect_burns_top_segment_witness :
  Engine.detect_burns
    ([Engine.Normal SEVEN SPADES]
     ++ Engine.Normal EIGHT SPADES
        :: [Engine.Normal EIGHT HEARTS; Engine.Normal NINE CLUBS;
            Engine.Normal NINE DIAMONDS])
  = Engine.detect_burns [Engine.Normal SEVEN SPADES].
Proof.
  refine (proj1 (proj2 (proj2 (proj2 (proj2
    (engine_detect_burns_top_segment _))))) _ _ _ SEVEN eq_refl _ _ _).
  - reflexivity.
  - reflexivity.
  - discriminate.
Defined.

(** C1 as stated fails on the base game, whose pile has its top at the
    end: with a Seven on top of two Eights and two Nines the buried four
    still burn, and so do four Eights and Nines with a Seven among them. *)
Lemma base_detect_burns_reports_buried :
  Base.top [Base.Normal EIGHT SPADES; Base.Normal EIGHT HEARTS;
            Base.Normal NINE CLUBS; Base.Normal NINE DIAMONDS;
            Base.Normal SEVEN SPADES] = Some (Base.Normal SEVEN SPADES)
  ∧ Base.detect_burns
      [Base.Normal EIGHT SPADES; Base.Normal EIGHT HEARTS;
       Base.Normal NINE CLUBS; Base.Normal NINE DIAMONDS;
       Base.Normal SEVEN SPADES] = [(EIGHT, 1)]
  ∧ Base.detect_burns
      [Base.Normal EIGHT SPADES; Base.Normal EIGHT HEARTS;
       Base.Normal NINE CLUBS; Base.Normal SEVEN SPADES;
       Base.Normal NINE DIAMONDS] = [(EIGHT, 1)]
  ∧ Engine.detect_burns
      [Engine.Normal SEVEN SPADES; Engine.Normal NINE DIAMONDS;
       Engine.Normal NINE CLUBS; Engine.Normal EIGHT HEARTS;
       Engine.Normal EIGHT SPADES] = []
  ∧ Engine.detect_burns
      [Engine.Normal NINE DIAMONDS; Engine.Normal SEVEN SPADES;
       Engine.Normal NINE CLUBS; Engine.Normal EIGHT HEARTS;
       Engine.Normal EIGHT SPADES] = [].
Proof. split_and!; reflexivity. Qed.

(** C2 (amended): in the slot-based engine Twos and Threes are passed over
    and counted on their own.  The entry for Two (Three) is the number of
    Twos (Threes) in the top segment divided by four, from four on,
    whatever the anchor does; a Two or Three is never the anchor, and
    putting one anywhere in the pile changes no other rank's entry.  In the
    base game and the full variant a Two or Three is passed over as well,
    but it is not counted: no pile burns on Two or Three there. *)
Theorem engine_twos_threes_counted (pile : list Engine.Card) :
  dict_get TWO (Engine.detect_burns pile)
  = (if 4 <=? count_of (is_rank TWO) (top_segment pile)
     then Some (count_of (is_rank TWO) (top_segment pile) / 4) else None)
  ∧ dict_get THREE (Engine.detect_burns pile)
    = (if 4 <=? count_of (is_rank THREE) (top_segment pile)
       then Some (count_of (is_rank THREE) (top_segment pile) / 4) else None)
  ∧ anchor_of pile ≠ Some TWO ∧ anchor_of pile ≠ Some THREE
  ∧ (∀ l1 c l2 r k,
       pile = l1 ++ c :: l2 → Engine.rank c = Some r → is_two_or_three r = true →
       k ≠ TWO → k ≠ THREE →
       dict_get k (Engine.detect_burns pile) = dict_get k (Engine.detect_burns (l1 ++ l2)))
  ∧ (∀ (whole : list Base.Card),
       dict_get TWO (Base.detect_burns whole) = None
       ∧ dict_get THREE (Base.detect_burns whole) = None)
  ∧ (∀ (whole : list Full.Card),
       dict_get TWO (Full.detect_burns whole) = None
       ∧ dict_get THREE (Full.detect_burns whole) = None)
  ∧ (∀ l1 r s l2, is_two_or_three r = true →
       Base.detect_burns (l1 ++ Base.Normal r s :: l2) = Base.detect_burns (l1 ++ l2))
  ∧ (∀ l1 i r s l2, is_two_or_three r = true →
       Full.detect_burns (l1 ++ Full.mkCard i (Full.Normal r s) :: l2)
       = Full.detect_burns (l1 ++ l2)).
Proof.
  assert (anchor_of pile ≠ Some TWO ∧ anchor_of pile ≠ Some THREE) as [H2 H3].
  { split; intros Ha; by destruct (anchor_of_not_two_three pile _ Ha). }
  split_and!; try done.
  - unfold Engine.detect_burns. rewrite burns_of_get_two; by rewrite scan_spec.
  - unfold Engine.detect_burns. rewrite burns_of_get_three; by rewrite scan_spec.
  - intros l1 c l2 r k -> Hr H23 Hk2 Hk3. unfold Engine.detect_burns.
    apply burns_of_same_run; [done..|].
    apply scan_insert_transparent. by apply (two_or_three_not_candidate c r).
  - intros whole. rewrite !base_detect_burns_get.
    by rewrite !keyed_two_three_base.
  - intros whole. rewrite !full_detect_burns_get.
    by rewrite !keyed_two_three_full.
  - apply base_two_three_transparent.
  - apply full_two_three_transparent.
Qed.

(** An Eight run with a Two in it, for the transparency part of C2. *)
Lemma engine_twos_threes_counted_witness :
  dict_get EIGHT (Engine.detect_burns
    ([Engine.Normal EIGHT SPADES; Engine.Normal NINE HEARTS]
     ++ Engine.Normal TWO CLUBS
        :: [Engine.Normal EIGHT CLUBS; Engine.Normal NINE DIAMONDS]))
  = dict_get EIGHT (Engine.detect_burns
    ([Engine.Normal EIGHT SPADES; Engine.Normal NINE HEARTS]
     ++ [Engine.Normal EIGHT CLUBS; Engine.Normal NINE DIAMONDS])).
Proof.
  refine (proj1 (proj2 (proj2 (proj2 (proj2
    (engine_twos_threes_counted _))))) _ _ _ TWO EIGHT eq_refl _ _ _ _).
  - reflexivity.
  - reflexivity.
  - discriminate.
  - discriminate.
Defined.

(** C2 as stated fails on the base game and on the full variant: four Twos
    alone on the pile burn nothing. *)
Lemma four_twos_do_not_burn :
  Base.detect_burns [Base.Normal TWO SPADES; Base.Normal TWO HEARTS;
                     Base.Normal TWO CLUBS; Base.Normal TWO DIAMONDS] = []
  ∧ Full.detect_burns [Full.mkCard 0 (Full.Normal TWO SPADES);
                       Full.mkCard 1 (Full.Normal TWO HEARTS);
                       Full.mkCard 2 (Full.Normal TWO CLUBS);
                       Full.mkCard 3 (Full.Normal TWO DIAMONDS)] = []
  ∧ Engine.detect_burns [Engine.Normal TWO SPADES; Engine.Normal TWO HEARTS;
                         Engine.Normal TWO CLUBS; Engine.Normal TWO DIAMONDS]
    = [(TWO, 1)].
Proof. split_and!; reflexivity. Qed.

(* ===================================================================== *)
(** ** Emergency slots and the pile top *)
(* ===================================================================== *)

(** *** The emergency ledger of the slot-based engine *)

Section ledger.
Import Engine.

Lemma acquired_flag_alter_false h c c' :
  acquired_flag h c = false →
  acquired_flag (alter (set_just_acquired false) c' h) c = false.
Proof.
  unfold acquired_flag. intros H. rewrite lookup_alter.
  destruct (decide (c' = c)) as [->|Hne]; [|done].
  by destruct (h !! c).
Qed.

Lemma acquired_flag_alter_same h c :
  acquired_flag (alter (set_just_acquired false) c h) c = false.
Proof.
  unfold acquired_flag. rewrite lookup_alter, decide_True by done.
  by destruct (h !! c).
Qed.

Lemma clear_flags_keeps h slots c :
  acquired_flag h c = false → acquired_flag (clear_flags h slots) c = false.
Proof.
  revert h. induction slots as [|s slots IH]; intros h Hc; [done|].
  simpl. apply IH. destruct (card s); [|done].
  by apply acquired_flag_alter_false.
Qed.

Lemma clear_flags_held h slots c :
  existsb (holds_card c) slots = true →
  acquired_flag (clear_flags h slots) c = false.
Proof.
  revert h. induction slots as [|s slots IH]; intros h; [done|].
  simpl. unfold holds_card at 1. case_bool_decide as Hs; simpl.
  - intros _. rewrite Hs. apply clear_flags_keeps, acquired_flag_alter_same.
  - intros H. by apply IH.
Qed.

Lemma ledger_of_lookup h acts slots c :
  ledger_of h acts slots !! c =
  if existsb (holds_card c) slots
  then Some (mkActions (negb (acquired_flag h c)) (negb (acquired_flag h c)))
  else acts !! c.
Proof.
  revert acts. induction slots as [|s slots IH]; intros acts; [done|].
  simpl. rewrite IH. unfold holds_card at 2.
  destruct (existsb (holds_card c) slots).
  - by rewrite orb_true_r.
  - rewrite orb_false_r. case_bool_decide as Hs.
    + rewrite Hs. by rewrite lookup_insert_eq.
    + destruct (card s) as [c'|]; [|done].
      rewrite lookup_insert_ne; [done|]. intros ->. done.
Qed.

Lemma fill_slot_holds h p i c known ja col :
  i < length (emergency_slots p) →
  existsb (holds_card c)
    (emergency_slots (snd (fill_slot h p i c known ja col))) = true.
Proof.
  intros Hi. simpl. apply existsb_exists.
  destruct (lookup_lt_is_Some_2 _ _ Hi) as [s Hs].
  eexists. split.
  - apply list_elem_of_In, list_elem_of_lookup. exists i.
    rewrite list_lookup_alter, Hs. simpl. rewrite decide_True by done. reflexivity.
  - unfold holds_card. apply bool_decide_eq_true.
    destruct col; [done|]. by repeat case_match.
Qed.
End ledger.

(** C8: a card put into a slot with [just_acquired=True] has both actions
    switched off right after [fill_slot], and both switched on after one
    [start_new_burn_cycle] with nothing acquired in between.  The slot is
    one of the player's own. *)
Theorem fill_slot_gated_until_next_cycle
    (h : gmap nat Engine.CardObj) (p : Engine.Player) (i c : nat)
    (known : bool) (col : option string) :
  i < length (Engine.emergency_slots p) →
  let filled := Engine.fill_slot h p i c known true col in
  let cycled := Engine.start_new_burn_cycle (fst filled) (snd filled) in
  Engine.emergency_actions (snd filled) !! c = Some (Engine.mkActions false false)
  ∧ Engine.emergency_actions (snd cycled) !! c = Some (Engine.mkActions true true)
  ∧ Engine.acquired_flag (fst cycled) c = false.
Proof.
  intros Hi filled cycled.
  pose proof (fill_slot_holds h p i c known true col Hi) as Hheld.
  fold filled in Hheld. split_and!.
  - subst filled. simpl. by rewrite lookup_insert_eq.
  - subst cycled. unfold Engine.start_new_burn_cycle, Engine.reset_emergency_actions.
    cbn [fst snd Engine.with_actions Engine.emergency_actions].
    rewrite ledger_of_lookup, Hheld. by rewrite clear_flags_held.
  - subst cycled. unfold Engine.start_new_burn_cycle. cbn [fst snd].
    by apply clear_flags_held.
Qed.

(** The test of the repository: a red King put into slot 0 of a new player. *)
Lemma fill_slot_gated_until_next_cycle_witness :
  0 < length (Engine.emergency_slots (Engine.new_player "T"))
  ∧ (let filled :=
       Engine.fill_slot {[7 := Engine.mkObj (Engine.EmergencyRed K SPADES) false]}
         (Engine.new_player "T") 0 7 true true None in
     let cycled := Engine.start_new_burn_cycle (fst filled) (snd filled) in
     Engine.emergency_actions (snd filled) !! 7 = Some (Engine.mkActions false false)
     ∧ Engine.emergency_actions (snd cycled) !! 7 = Some (Engine.mkActions true true)
     ∧ Engine.acquired_flag (fst cycled) 7 = false).
Proof.
  split.
  - simpl. lia.
  - apply (fill_slot_gated_until_next_cycle
             {[7 := Engine.mkObj (Engine.EmergencyRed K SPADES) false]}
             (Engine.new_player "T") 0 7 true None).
    simpl. lia.
Defined.

(** *** The top of the pile *)

(** C9: after [add] of a list of cards whose last card is [c], [top] is
    [c], in the prepend-reversed pile of the slot-based engine as in the
    appending piles of the base game and the full variant; and [top] of an
    empty pile is none. *)
Theorem top_after_add :
  (∀ (pile cs : list Engine.Card) c,
     last cs = Some c → Engine.top (Engine.add pile cs) = Some c)
  ∧ (∀ (pile cs : list Base.Card) c,
       last cs = Some c → Base.top (Base.add pile cs) = Some c)
  ∧ (∀ (pile cs : list Full.Card) c,
       last cs = Some c → Full.top (Full.add pile cs) = Some c)
  ∧ Engine.top [] = None ∧ Base.top [] = None ∧ Full.top [] = None.
Proof.
  split_and!; try done.
  - intros pile cs c Hl. unfold Engine.top, Engine.add.
    destruct cs as [|x cs _] using rev_ind; [done|].
    rewrite last_snoc in Hl. injection Hl as ->.
    by rewrite reverse_snoc.
  - intros pile cs c Hl. unfold Base.top, Base.add.
    destruct cs as [|x cs _] using rev_ind; [done|].
    rewrite last_snoc in Hl. injection Hl as ->.
    by rewrite app_assoc, last_snoc.
  - intros pile cs c Hl. unfold Full.top, Full.add.
    destruct cs as [|x cs _] using rev_ind; [done|].
    rewrite last_snoc in Hl. injection Hl as ->.
    by rewrite app_assoc, last_snoc.
Qed.

(** The two-card play of the repository's test: the second Nine ends on top. *)
Lemma top_after_add_witness :
  Engine.top (Engine.add [Engine.Normal SEVEN SPADES]
                [Engine.Normal NINE CLUBS; Engine.Normal NINE DIAMONDS])
  = Some (Engine.Normal NINE DIAMONDS)
  ∧ Base.top (Base.add [Base.Normal SEVEN SPADES]
                [Base.Normal NINE CLUBS; Base.Normal NINE DIAMONDS])
    = Some (Base.Normal NINE DIAMONDS).
Proof.
  split.
  - apply (proj1 top_after_add). reflexivity.
  - apply (proj1 (proj2 top_after_add)). reflexivity.
Defined.

(* ===================================================================== *)
(** ** The base game: play, means and status *)
(* ===================================================================== *)

(** *** The base game: validation before mutation *)

Section base_play.
Import Base.

Lemma find_none_forall {X} (f : X → bool) l :
  List.find f l = None ↔ ∀ x, x ∈ l → f x = false.
Proof.
  induction l as [|y l IH]; simpl.
  - split; [intros _ x Hx; by apply elem_of_nil in Hx|done].
  - destruct (f y) eqn:Hy.
    + split; [done|]. intros H. specialize (H y (list_elem_of_here _ _)). congruence.
    + rewrite IH. split.
      * intros H x [->|Hx]%elem_of_cons; auto.
      * intros H x Hx. apply H. by apply list_elem_of_further.
Qed.

Lemma play_rejected g s cards vp choice m :
  play_validate g s cards vp = Some m →
  play g s cards vp choice = (([m], false), g).
Proof. intros H. unfold play. by rewrite H. Qed.

Lemma play_validate_unowned g s cards vp c :
  c ∈ cards → c ∉ hand (player g s) → c ∉ face_up (player g s) →
  ∃ m, play_validate g s cards vp = Some m.
Proof.
  intros Hc Hh Hf. unfold play_validate.
  destruct (List.find _ cards) as [rc|] eqn:Hfind; [by eexists|].
  exfalso. rewrite find_none_forall in Hfind. specialize (Hfind c Hc).
  simpl in Hfind. rewrite !bool_decide_false in Hfind by done. done.
Qed.

Lemma existsb_is_joker cards : existsb is_joker cards = true ↔ Joker ∈ cards.
Proof.
  rewrite existsb_exists. split.
  - intros ([|] & Hin & Hj); [done|]. by apply list_elem_of_In.
  - intros Hin. exists Joker. split; [by apply list_elem_of_In|done].
Qed.

Lemma play_validate_joker g s cards vp :
  Joker ∈ cards → length cards ≠ 1 →
  ∃ m, play_validate g s cards vp = Some m.
Proof.
  intros Hj Hlen. unfold play_validate.
  destruct (List.find _ cards); [by eexists|].
  apply existsb_is_joker in Hj. rewrite Hj.
  destruct (Nat.eqb_spec (length cards) 1); [done|]. simpl. by eexists.
Qed.

Lemma play_validate_means g s cards vp :
  legal_under_means g cards vp = false →
  ∃ m, play_validate g s cards vp = Some m.
Proof.
  intros Hm. unfold play_validate.
  destruct (List.find _ cards); [by eexists|].
  destruct (_ && _); [by eexists|]. rewrite Hm. simpl. by eexists.
Qed.

Lemma play_validate_None g s cards vp :
  play_validate g s cards vp = None →
  (∀ c, c ∈ cards → c ∈ hand (player g s) ∨ c ∈ face_up (player g s))
  ∧ (Joker ∈ cards → cards = [Joker])
  ∧ legal_under_means g cards vp = true.
Proof.
  unfold play_validate.
  destruct (List.find _ cards) eqn:Hfind; [done|].
  destruct (existsb is_joker cards && negb (length cards =? 1)) eqn:Hj; [done|].
  destruct (legal_under_means g cards vp) eqn:Hm; [|done].
  intros _. split_and!; [|  |done].
  - intros c Hc. rewrite find_none_forall in Hfind. specialize (Hfind c Hc).
    simpl in Hfind. apply andb_false_iff in Hfind as [H|H];
      apply negb_false_iff, bool_decide_eq_true in H; auto.
  - intros Hin. pose proof Hin as Hin'. apply existsb_is_joker in Hin.
    rewrite Hin in Hj. simpl in Hj.
    apply negb_false_iff, Nat.eqb_eq in Hj.
    destruct cards as [|c [|]]; simplify_eq/=.
    apply list_elem_of_singleton in Hin'. by subst.
Qed.
End base_play.

Section base_means.
Import Base.

Lemma effective_rank_three r : effective_rank r = THREE ↔ r = THREE.
Proof. destruct r; simpl; split; congruence. Qed.

Lemma legal_under_means_active g cards L :
  means_active g = true → means_limit g = Some L →
  legal_under_means g cards false = true ↔
  ∀ r su, Normal r su ∈ cards → r ≠ THREE →
          rank_value (effective_rank r) < rank_value (effective_rank L).
Proof.
  intros Ha Hl. unfold legal_under_means. rewrite Ha, Hl. simpl.
  rewrite forallb_forall. split.
  - intros H r su Hin Hr. apply list_elem_of_In in Hin.
    specialize (H _ Hin). simpl in H.
    rewrite decide_False in H by (by rewrite effective_rank_three).
    apply negb_true_iff, Nat.leb_gt in H. done.
  - intros H [r su|] Hin; [|done]. apply list_elem_of_In in Hin.
    destruct (decide (effective_rank r = THREE)) as [|Hne]; [done|].
    apply negb_true_iff, Nat.leb_gt. apply (H r su Hin).
    by rewrite <- effective_rank_three.
Qed.

Lemma legal_under_means_via_pair g cards :
  legal_under_means g cards true = true.
Proof. done. Qed.
End base_means.

Section base_reset.
Import Base.

Lemma burn_sets_positive ctr r n : (r, n) ∈ burn_sets ctr → 0 < n.
Proof.
  unfold burn_sets. rewrite list_elem_of_In, in_flat_map.
  intros ([r' n'] & _ & Hin). destruct (Nat.leb_spec 4 n') as [Hle|]; [|done].
  assert (0 < n' / 4) as Hpos by (apply Nat.div_str_pos; lia).
  destruct Hin as [Heq|[]]. injection Heq as _ <-. exact Hpos.
Qed.

Lemma burn_times_means_keep n r s acc :
  means_off (snd acc) → means_off (snd (burn_times n r s acc)).
Proof.
  revert acc. induction n as [|n IH]; intros acc Hoff; [done|].
  simpl. apply IH. done.
Qed.

Lemma burn_times_means_off n r s acc :
  0 < n → means_off (snd (burn_times n r s acc)).
Proof.
  destruct n as [|n]; [lia|]. intros _. simpl.
  apply burn_times_means_keep. done.
Qed.

Lemma resolve_fold_means_keep s l acc :
  means_off (snd acc) →
  means_off (snd (foldl (fun acc '(r, count) => burn_times count r s acc) acc l)).
Proof.
  revert acc. induction l as [|[r n] l IH]; intros acc Hoff; [done|].
  simpl. apply IH. by apply burn_times_means_keep.
Qed.

Lemma resolve_fold_means_off s l acc :
  l ≠ [] → (∀ r n, (r, n) ∈ l → 0 < n) →
  means_off (snd (foldl (fun acc '(r, count) => burn_times count r s acc) acc l)).
Proof.
  destruct l as [|[r n] l]; [done|]. intros _ Hpos. simpl.
  apply resolve_fold_means_keep. apply burn_times_means_off.
  apply (Hpos r). apply list_elem_of_here.
Qed.

Lemma resolve_burns_means_keep g s msgs :
  means_off g → means_off (snd (resolve_burns_if_any g s msgs)).
Proof. intros H. by apply resolve_fold_means_keep. Qed.

Lemma resolve_burns_means_off g s msgs :
  detect_burns (common_pile g) ≠ [] →
  means_off (snd (resolve_burns_if_any g s msgs)).
Proof.
  intros H. apply resolve_fold_means_off; [done|].
  intros r n. apply burn_sets_positive.
Qed.

Lemma force_pickup_means_off g d msgs : means_off (snd (force_pickup g d msgs)).
Proof. unfold force_pickup. by destruct (common_pile g). Qed.

Lemma joker_offense_means_keep g s opp choice msgs :
  means_off g → means_off (snd (joker_offense g s opp choice msgs)).
Proof.
  intros Hoff. unfold joker_offense.
  repeat case_match; simpl; try done; apply force_pickup_means_off.
Qed.

Lemma remove_played_sublist p raw :
  sublist (fst (remove_played p raw)) raw.
Proof.
  revert p. induction raw as [|rc raw IH]; intros p; [done|].
  simpl. destruct (remove_from_zones p rc) as [ok p1].
  specialize (IH p1). destruct (remove_played p1 raw) as [played p2].
  simpl in *. destruct ok; by constructor.
Qed.

Lemma has_means_card_sublist l1 l2 :
  sublist l1 l2 → has_means_card l2 = false → has_means_card l1 = false.
Proof.
  intros Hsub H. unfold has_means_card in *.
  destruct (existsb _ l1) eqn:E; [|done].
  apply existsb_exists in E as (c & Hin & Hc).
  rewrite <- H. symmetry. apply existsb_exists. exists c. split; [|done].
  apply list_elem_of_In. eapply elem_of_sublist; [|done]. by apply list_elem_of_In.
Qed.

Lemma no_means_card_ranks played r :
  has_means_card played = false → is_five_or_seven r = true →
  r ∉ normal_ranks played.
Proof.
  intros H Hr Hin. unfold normal_ranks in Hin.
  apply list_elem_of_In, in_flat_map in Hin as (c & Hc & Hin).
  destruct c as [r' su|]; [|done]. destruct Hin as [->|[]].
  assert (has_means_card played = true); [|congruence].
  apply existsb_exists. exists (Normal r su). done.
Qed.

Lemma pair_with_means_needs_card played vp :
  has_means_card played = false → pair_with_means played vp = false.
Proof.
  intros H. unfold pair_with_means.
  rewrite (bool_decide_false (FIVE ∈ _)) by (by apply no_means_card_ranks).
  rewrite (bool_decide_false (SEVEN ∈ _)) by (by apply no_means_card_ranks).
  simpl. by rewrite andb_false_r.
Qed.

Lemma play_means_pile g s opp played vp msgs :
  common_pile (snd (play_means g s opp played vp msgs)) = common_pile g.
Proof.
  unfold play_means, transfer_status_due_to_means.
  destruct (_ || _); [|done]. simpl. by destruct (has_status _), s, opp.
Qed.

Lemma play_means_off g s opp played vp msgs :
  has_means_card played = false →
  means_off (snd (play_means g s opp played vp msgs)).
Proof.
  intros H. unfold play_means.
  by rewrite H, pair_with_means_needs_card.
Qed.

Lemma play_offense_means_keep g s opp played choice msgs :
  means_off g → means_off (snd (play_offense g s opp played choice msgs)).
Proof.
  intros H. unfold play_offense.
  destruct (last played) as [[|]|]; try done.
  by apply joker_offense_means_keep.
Qed.

(** The state after an accepted play, stage by stage. *)
Lemma play_apply_state g s cards vp choice :
  snd (play_apply g s cards vp choice) =
  let opp := other (current_idx g) in
  let pp := remove_played (player g s) cards in
  let g2 := with_pile (set_player g s (snd pp)) (add (common_pile g) (fst pp)) in
  let m3 := play_means g2 s opp (fst pp) vp [MsgPlayed (name (snd pp)) (fst pp)] in
  let m4 := resolve_burns_if_any (snd m3) s (fst m3) in
  snd (play_offense (snd m4) s opp (fst pp) choice (fst m4)).
Proof.
  unfold play_apply.
  destruct (remove_played (player g s) cards) as [played p1]. cbn [fst snd].
  replace (common_pile (set_player g s p1)) with (common_pile g) by (by destruct s).
  destruct (play_means _ _ _ _ _ _) as [m3 g3]. cbn [fst snd].
  destruct (resolve_burns_if_any _ _ _) as [m4 g4]. cbn [fst snd].
  by destruct (play_offense _ _ _ _ _ _).
Qed.
End base_reset.

(** C6: an accepted play of the base game with no Five and no Seven in it
    (no pair qualifies without one) leaves the means constraint switched
    off, and so does every play during which a burn is resolved, whatever
    was played; [resolve_burns_if_any] itself ends with means off whenever
    the pile shows a burn. *)
Theorem means_reset_after_play (g : Base.GameState) (s : Seat)
    (cards : list Base.Card) (via_pair : bool) (choice : string) :
  Base.play_validate g s cards via_pair = None →
  let after := snd (Base.play g s cards via_pair choice) in
  let played := fst (Base.remove_played (Base.player g s) cards) in
  (Base.has_means_card cards = false →
   Base.means_active after = false ∧ Base.means_limit after = None)
  ∧ (Base.detect_burns (Base.add (Base.common_pile g) played) ≠ [] →
     Base.means_active after = false ∧ Base.means_limit after = None)
  ∧ (∀ g0 s0 msgs, Base.detect_burns (Base.common_pile g0) ≠ [] →
       let burnt := snd (Base.resolve_burns_if_any g0 s0 msgs) in
       Base.means_active burnt = false ∧ Base.means_limit burnt = None).
Proof.
  intros Hv after played. subst after. unfold Base.play. rewrite Hv.
  rewrite play_apply_state. cbn zeta. split_and!.
  - intros Hno. apply play_offense_means_keep, resolve_burns_means_keep.
    apply play_means_off. eapply has_means_card_sublist; [|done].
    apply remove_played_sublist.
  - intros Hb. apply play_offense_means_keep, resolve_burns_means_off.
    by rewrite play_means_pile.
  - intros g0 s0 msgs Hb. by apply resolve_burns_means_off.
Qed.

Section base_status.
Import Base.

Lemma base_same_status_once g g' : same_status g g' → status_once g g'.
Proof. intros [Hf Hs]. split; intros H; rewrite ?Hf, ?Hs; auto. Qed.

Lemma base_status_once_refl g : status_once g g.
Proof. split; auto. Qed.

Lemma base_status_once_trans g1 g2 g3 :
  status_once g1 g2 → status_once g2 g3 → status_once g1 g3.
Proof.
  intros [A1 A2] [B1 B2]. split.
  - intros H. destruct (A1 H) as [H2 E2]. destruct (B1 H2) as [H3 E3].
    split; congruence.
  - intros H. destruct (first_burn g2) eqn:E.
    + destruct (B1 eq_refl). congruence.
    + rewrite B2, A2; done.
Qed.

Lemma base_same_status_refl g : same_status g g.
Proof. done. Qed.

Lemma base_same_status_trans g1 g2 g3 :
  same_status g1 g2 → same_status g2 g3 → same_status g1 g3.
Proof. intros [] []. split; congruence. Qed.

Lemma base_set_player_same_status g s p : same_status g (set_player g s p).
Proof. by destruct s. Qed.

Lemma base_set_status_once g s r : status_once g (set_status_on_first_burn g s r).
Proof.
  unfold set_status_on_first_burn. destruct (first_burn g) eqn:E; simpl.
  - apply base_status_once_refl.
  - split; [congruence|]. by destruct s.
Qed.

Lemma base_transfer_same_status g a d :
  same_status g (transfer_status_due_to_means g a d).
Proof.
  unfold transfer_status_due_to_means. destruct (has_status _); [|done].
  by destruct a, d.
Qed.

Lemma base_burn_once_status g s r : status_once g (burn_once g s r).
Proof.
  unfold burn_once. eapply base_status_once_trans; [apply base_set_status_once|].
  by apply base_same_status_once.
Qed.

Lemma base_burn_times_status n r s acc :
  status_once (snd acc) (snd (burn_times n r s acc)).
Proof.
  revert acc. induction n as [|n IH]; intros acc; [apply base_status_once_refl|].
  simpl. eapply base_status_once_trans; [|apply IH]. apply base_burn_once_status.
Qed.

Lemma base_resolve_burns_status g s msgs :
  status_once g (snd (resolve_burns_if_any g s msgs)).
Proof.
  unfold resolve_burns_if_any.
  change g with (snd (msgs, g)) at 1. generalize (msgs, g).
  induction (detect_burns (common_pile g)) as [|[r n] l IH]; intros acc.
  - apply base_status_once_refl.
  - simpl. eapply base_status_once_trans; [|apply IH]. apply base_burn_times_status.
Qed.

Lemma base_force_pickup_same_status g d msgs :
  same_status g (snd (force_pickup g d msgs)).
Proof. unfold force_pickup. destruct (common_pile g); [done|by destruct d]. Qed.

Lemma base_joker_offense_same_status g s opp choice msgs :
  same_status g (snd (joker_offense g s opp choice msgs)).
Proof.
  unfold joker_offense.
  repeat case_match; simpl;
    first [ apply base_force_pickup_same_status | apply base_set_player_same_status | done ].
Qed.

Lemma base_play_means_same_status g s opp played vp msgs :
  same_status g (snd (play_means g s opp played vp msgs)).
Proof.
  unfold play_means. destruct (_ || _); [|done]. simpl.
  apply (base_transfer_same_status g s opp).
Qed.

Lemma base_play_offense_same_status g s opp played choice msgs :
  same_status g (snd (play_offense g s opp played choice msgs)).
Proof.
  unfold play_offense. destruct (last played) as [[|]|]; try done.
  apply base_joker_offense_same_status.
Qed.

Lemma base_play_status g s cards vp choice :
  status_once g (snd (play g s cards vp choice)).
Proof.
  unfold play. destruct (play_validate g s cards vp); [apply base_status_once_refl|].
  rewrite play_apply_state. cbn zeta.
  eapply base_status_once_trans; [|apply base_same_status_once, base_play_offense_same_status].
  eapply base_status_once_trans; [|apply base_resolve_burns_status].
  eapply base_status_once_trans; [|apply base_same_status_once, base_play_means_same_status].
  apply base_same_status_once. by destruct s.
Qed.

Lemma base_pickup_same_status g : same_status g (snd (pickup g)).
Proof. unfold pickup. destruct (common_pile g); [done|]. by destruct (current_idx g). Qed.

Lemma base_step_status g g' : step g g' → status_once g g'.
Proof.
  destruct 1.
  - apply base_play_status.
  - apply base_same_status_once, base_pickup_same_status.
  - apply base_same_status_once, base_set_player_same_status.
  - by apply base_same_status_once.
  - apply base_set_status_once.
  - apply base_same_status_once, base_transfer_same_status.
  - apply base_same_status_once, base_force_pickup_same_status.
  - apply base_same_status_once, base_set_player_same_status.
  - by apply base_same_status_once.
Qed.

Lemma base_steps_status g g' : rtc step g g' → status_once g g'.
Proof.
  induction 1 as [|g1 g2 g3 H12 _ IH]; [apply base_status_once_refl|].
  eapply base_status_once_trans; [by apply base_step_status|done].
Qed.

Lemma base_reachable_status_unset g :
  reachable g → first_burn g = false → status_rank g = None.
Proof.
  induction 1 as [|g g' Hr IH Hs]; [done|].
  intros Hf. destruct (base_step_status _ _ Hs) as [A B].
  rewrite (B Hf). apply IH. destruct (first_burn g); [|done].
  destruct (A eq_refl). congruence.
Qed.

Lemma base_transfer_frame g a d :
  with_players (transfer_status_due_to_means g a d) (players g) = g
  ∧ ∀ seat,
      with_has_status (player (transfer_status_due_to_means g a d) seat)
        (has_status (player g seat)) = player g seat.
Proof.
  unfold transfer_status_due_to_means.
  destruct g as [[p0 p1] c pile ma ml fb sr]. simpl.
  destruct (has_status (player _ d)) eqn:E.
  - split; [by destruct a, d|].
    intros seat. destruct a, d, seat, p0, p1; done.
  - split; [done|]. intros []; [by destruct p0|by destruct p1].
Qed.
End base_status.

(* ===================================================================== *)
(** ** The full variant: status and pickups *)
(* ===================================================================== *)

Section full_status.
Import Full.

Section keeps.
Context (R : GameState → GameState → Prop).
Hypothesis R_refl : ∀ g, R g g.
Hypothesis R_trans : ∀ g1 g2 g3, R g1 g2 → R g2 g3 → R g1 g3.

Lemma keeps_ret {X} (x : X) : keeps R (ret x).
Proof. intros w. apply R_refl. Qed.

Lemma keeps_bind {X Y} (m : M X) (k : X → M Y) :
  keeps R m → (∀ x, keeps R (k x)) → keeps R (bind m k).
Proof.
  intros Hm Hk w. unfold bind. specialize (Hm w).
  destruct (m w) as [x w1]. simpl in Hm.
  eapply R_trans; [exact Hm|apply Hk].
Qed.

Lemma keeps_get : keeps R get.
Proof. intros w. apply R_refl. Qed.

Lemma keeps_input : keeps R input.
Proof. intros w. apply R_refl. Qed.

Lemma keeps_new_id : keeps R new_id.
Proof. intros w. apply R_refl. Qed.

Lemma keeps_modify f : (∀ g, R g (f g)) → keeps R (modify f).
Proof. intros Hf w. apply Hf. Qed.

Lemma keeps_run {X} (f : GameState → X * GameState) :
  (∀ g, R g (snd (f g))) → keeps R (run f).
Proof.
  intros Hf w. unfold run. specialize (Hf (game w)).
  by destruct (f (game w)).
Qed.

Lemma keeps_for_each {X Y} (xs : list X) (body : X → Y → M Y) acc :
  (∀ x a, keeps R (body x a)) → keeps R (for_each xs body acc).
Proof.
  intros Hb. revert acc. induction xs as [|x xs IH]; intros acc.
  - apply keeps_ret.
  - simpl. apply keeps_bind; [apply Hb|]. intros a. apply IH.
Qed.
End keeps.

Lemma full_same_status_once g g' : same_status g g' → status_once g g'.
Proof. intros [Hf Hs]. split; intros H; rewrite ?Hf, ?Hs; auto. Qed.

Lemma full_status_once_refl g : status_once g g.
Proof. split; auto. Qed.

Lemma full_status_once_trans g1 g2 g3 :
  status_once g1 g2 → status_once g2 g3 → status_once g1 g3.
Proof.
  intros [A1 A2] [B1 B2]. split.
  - intros H. destruct (A1 H) as [H2 E2]. destruct (B1 H2) as [H3 E3].
    split; congruence.
  - intros H. destruct (first_burn g2) eqn:E.
    + destruct (B1 eq_refl). congruence.
    + rewrite B2, A2; done.
Qed.

Lemma full_set_player_same_status g s p : same_status g (set_player g s p).
Proof. by destruct s. Qed.

Lemma full_set_status_once g s r : status_once g (set_status g s r).
Proof.
  unfold set_status. destruct (first_burn g) eqn:E; simpl.
  - apply full_status_once_refl.
  - split; [congruence|]. by destruct s.
Qed.

Lemma full_transfer_same_status g a d : same_status g (transfer_status g a d).
Proof.
  unfold transfer_status. destruct (has_status_ability _); [|done].
  by destruct a, d.
Qed.

Lemma full_modify_player_status s f : keeps status_once (modify_player s f).
Proof. intros w. apply full_same_status_once, full_set_player_same_status. Qed.

Local Ltac modify_step :=
  first [ apply full_same_status_once, full_set_player_same_status
        | apply full_set_status_once
        | apply full_same_status_once, full_transfer_same_status
        | by apply full_same_status_once ].

(** One step through a computation, chosen by its head. *)
Local Ltac keeps_step known :=
  lazymatch goal with
  | |- keeps _ (ret _) => apply (keeps_ret status_once full_status_once_refl)
  | |- keeps _ get => apply (keeps_get status_once full_status_once_refl)
  | |- keeps _ input => apply (keeps_input status_once full_status_once_refl)
  | |- keeps _ new_id => apply (keeps_new_id status_once full_status_once_refl)
  | |- keeps _ (modify_player _ _) => apply full_modify_player_status
  | |- keeps _ (modify _) => apply keeps_modify; intros; modify_step
  | |- keeps _ (bind _ _) =>
      apply (keeps_bind status_once full_status_once_trans); [|intros]
  | |- keeps _ (for_each _ _ _) =>
      apply (keeps_for_each status_once full_status_once_refl full_status_once_trans);
      intros
  | |- keeps _ (match _ with _ => _ end) => case_match
  | |- keeps _ (let _ := _ in _) => cbv zeta
  | |- keeps _ _ => known
  end.

Lemma full_grant_emergency_status s col : keeps status_once (grant_emergency s col).
Proof. unfold grant_emergency. repeat keeps_step fail. Qed.

Lemma full_prompt_card_status s cc msgs : keeps status_once (prompt_card s cc msgs).
Proof.
  unfold prompt_card. destruct cc as [col c]. repeat keeps_step fail.
Qed.

Lemma full_emergency_prompt_status s msgs : keeps status_once (emergency_prompt s msgs).
Proof.
  unfold emergency_prompt.
  repeat keeps_step ltac:(apply full_prompt_card_status).
Qed.

Lemma full_burn_once_status s r i msgs : keeps status_once (burn_once s r i msgs).
Proof.
  unfold burn_once.
  repeat keeps_step
    ltac:(first [apply full_grant_emergency_status | apply full_emergency_prompt_status]).
Qed.

Lemma full_resolve_burns_status s msgs : keeps status_once (resolve_burns s msgs).
Proof.
  unfold resolve_burns. repeat keeps_step ltac:(apply full_burn_once_status).
Qed.

Lemma full_play_status s cs pair : keeps status_once (play s cs pair).
Proof.
  unfold play.
  repeat keeps_step
    ltac:(first [apply full_grant_emergency_status | apply full_resolve_burns_status]).
Qed.

Lemma full_resolve_one_same_status a acc :
  same_status (snd acc) (snd (resolve_one a acc)).
Proof.
  unfold resolve_one. destruct acc as [msgs g].
  repeat case_match; simpl; try done; by destruct (other (current_idx g)).
Qed.

Lemma full_same_status_trans g1 g2 g3 :
  same_status g1 g2 → same_status g2 g3 → same_status g1 g3.
Proof. intros [] []. split; congruence. Qed.

Lemma full_resolve_offenses_same_status g :
  same_status g (snd (resolve_offenses g)).
Proof.
  unfold resolve_offenses.
  assert (∀ l acc, same_status (snd acc)
            (snd (foldl (fun acc a => resolve_one a acc) acc l))) as Hfold.
  { induction l as [|a l IH]; intros acc; [done|]. simpl.
    eapply full_same_status_trans; [apply full_resolve_one_same_status|apply IH]. }
  specialize (Hfold (offenses g) ([], g)).
  destruct (foldl _ _ _) as [msgs g1]. simpl in *. done.
Qed.

Lemma full_run_offenses_status : keeps status_once (run resolve_offenses).
Proof.
  apply keeps_run. intros g. apply full_same_status_once, full_resolve_offenses_same_status.
Qed.

Lemma full_command_play_status cs pair : keeps status_once (command_play cs pair).
Proof.
  unfold command_play.
  repeat keeps_step
    ltac:(first [apply full_play_status | apply full_run_offenses_status]).
Qed.

Lemma full_command_burn_status r suits : keeps status_once (command_burn r suits).
Proof.
  unfold command_burn.
  repeat keeps_step
    ltac:(first [apply full_play_status | apply full_run_offenses_status]).
Qed.

Lemma full_command_pickup_same_status g : same_status g (snd (command_pickup g)).
Proof.
  unfold command_pickup. destruct (common_pile g); [done|].
  by destruct (current_idx g).
Qed.

Lemma full_step_status w w' : step w w' → status_once (game w) (game w').
Proof.
  destruct 1; simpl.
  - apply full_play_status.
  - apply full_resolve_burns_status.
  - apply full_emergency_prompt_status.
  - apply full_run_offenses_status.
  - apply full_command_play_status.
  - apply full_command_burn_status.
  - apply (keeps_run status_once). intros g.
    apply full_same_status_once, full_command_pickup_same_status.
  - by apply full_same_status_once.
  - apply full_same_status_once, full_set_player_same_status.
  - apply full_set_status_once.
  - apply full_same_status_once, full_transfer_same_status.
  - apply full_same_status_once, full_set_player_same_status.
  - by apply full_same_status_once.
Qed.

Lemma full_steps_status w w' : rtc step w w' → status_once (game w) (game w').
Proof.
  induction 1 as [|w1 w2 w3 H12 _ IH]; [apply full_status_once_refl|].
  eapply full_status_once_trans; [by apply full_step_status|done].
Qed.

Lemma full_reachable_status_unset w :
  reachable w → first_burn (game w) = false → status_rank (game w) = None.
Proof.
  induction 1 as [|w w' Hr IH Hs]; [done|].
  intros Hf. destruct (full_step_status _ _ Hs) as [A B].
  rewrite (B Hf). apply IH. destruct (first_burn (game w)); [|done].
  destruct (A eq_refl). congruence.
Qed.

Lemma full_transfer_frame g a d :
  with_players (transfer_status g a d) (players g) = g
  ∧ ∀ seat,
      with_status (player (transfer_status g a d) seat)
        (status_token (player g seat)) (has_status_ability (player g seat))
      = player g seat.
Proof.
  unfold transfer_status.
  destruct g as [pile [p0 p1] c fb sr os inter]. simpl.
  destruct (has_status_ability (player _ d)) eqn:E.
  - split; [by destruct a, d|].
    intros seat. destruct a, d, seat, p0, p1; done.
  - split; [done|]. intros []; [by destruct p0|by destruct p1].
Qed.
End full_status.

Section full_pickup.
Import Full.

Lemma gather_no_blocks req h used :
  existsb blocks h = false → gather req h used = used.
Proof.
  revert used. induction h as [|c h IH]; intros used; [done|].
  simpl. intros [Hc Hh]%orb_false_elim. rewrite Hc.
  destruct (req <=? length used); [done|]. by apply IH.
Qed.

Lemma consume_zero used h eaten : consume 0 used h eaten = (h, eaten).
Proof. by destruct used. Qed.

Lemma player_set_player_eq g s p : player (set_player g s p) s = p.
Proof. by destruct s. Qed.

Lemma player_set_player_ne g s s' p :
  s ≠ s' → player (set_player g s p) s' = player g s'.
Proof. by destruct s, s'. Qed.

Lemma current_idx_set_player g s p : current_idx (set_player g s p) = current_idx g.
Proof. by destruct s. Qed.

(** One offense: the turn stays, and the defender's other zones too. *)
Lemma resolve_one_frame a msgs g :
  let g' := snd (resolve_one a (msgs, g)) in
  let d := other (current_idx g) in
  current_idx g' = current_idx g
  ∧ same_fixed_zones (player g d) (player g' d)
  ∧ (personal_pile (player g d) = [] → personal_pile (player g' d) = []).
Proof.
  intros g' d. subst g'. unfold resolve_one.
  destruct (res a); [done|]. fold d.
  destruct (str a <=? length _).
  - destruct (consume _ _ _ _) as [h eaten]. cbn [snd].
    rewrite current_idx_set_player, player_set_player_eq. done.
  - cbn [clear snd]. rewrite current_idx_set_player, player_set_player_eq. done.
Qed.

Lemma resolve_one_fails a msgs g :
  res a = false → length (gather (str a) (hand (opponent g)) []) < str a →
  let g' := snd (resolve_one a (msgs, g)) in
  let d := other (current_idx g) in
  personal_pile (player g' d) = []
  ∧ hand (player g' d) = hand (player g d) ++ common_pile g
  ∧ common_pile g' = [].
Proof.
  intros Hres Hlen g' d. subst g'. unfold resolve_one. rewrite Hres.
  unfold opponent in Hlen. fold d in Hlen |- *.
  destruct (Nat.leb_spec (str a) (length (gather (str a) (hand (player g d)) [])));
    [lia|].
  cbn [clear snd]. rewrite player_set_player_eq. by destruct d.
Qed.

Lemma resolve_fold_keeps_empty l acc :
  let d := other (current_idx (snd acc)) in
  personal_pile (player (snd acc) d) = [] →
  let g' := snd (foldl (fun acc a => resolve_one a acc) acc l) in
  personal_pile (player g' d) = [].
Proof.
  revert acc. induction l as [|a l IH]; intros acc d Hp; [done|].
  cbn [foldl]. destruct acc as [msgs g]. subst d. cbn [snd] in *.
  destruct (resolve_one_frame a msgs g) as (Hc & _ & Hkeep).
  specialize (IH (resolve_one a (msgs, g))). cbn zeta in IH.
  rewrite Hc in IH. apply IH. by apply Hkeep.
Qed.

Lemma resolve_fold_zones l acc :
  let d := other (current_idx (snd acc)) in
  let g' := snd (foldl (fun acc a => resolve_one a acc) acc l) in
  current_idx g' = current_idx (snd acc)
  ∧ same_fixed_zones (player (snd acc) d) (player g' d).
Proof.
  revert acc. induction l as [|a l IH]; intros acc d; [done|].
  cbn [foldl]. destruct acc as [msgs g]. subst d. cbn [snd].
  destruct (resolve_one_frame a msgs g) as (Hc & Hz & _).
  specialize (IH (resolve_one a (msgs, g))). cbn zeta in IH.
  rewrite Hc in IH. destruct IH as [IH1 IH2]. split; [congruence|].
  destruct Hz as (?&?&?&?), IH2 as (?&?&?&?).
  unfold same_fixed_zones. split_and!; congruence.
Qed.

(** A forced pickup happens as soon as one pending offense of positive
    strength meets a hand with nothing to block with. *)
Lemma resolve_fold_forced l msgs g :
  Exists (fun a => res a = false ∧ 0 < str a) l →
  existsb blocks (hand (opponent g)) = false →
  let g' := snd (foldl (fun acc a => resolve_one a acc) (msgs, g) l) in
  personal_pile (player g' (other (current_idx g))) = [].
Proof.
  intros Hex Hnb. revert msgs. induction Hex as [a l [Hres Hstr]|a l Hex IH];
    intros msgs.
  - cbn [foldl].
    destruct (resolve_one_frame a msgs g) as (Hc & _ & _).
    pose proof (resolve_fold_keeps_empty l (resolve_one a (msgs, g))) as Hk.
    cbn zeta in Hk. rewrite Hc in Hk. apply Hk.
    apply resolve_one_fails; [done|].
    rewrite gather_no_blocks by done. simpl. lia.
  - cbn [foldl]. destruct (res a) eqn:Hres.
    + unfold resolve_one at 2. rewrite Hres. apply IH.
    + destruct (Nat.eq_dec (str a) 0) as [H0|Hpos].
      * unfold resolve_one at 2. rewrite Hres, H0.
        cbn [Nat.leb]. rewrite consume_zero.
        replace (set_player g (other (current_idx g))
                   (with_hand (player g (other (current_idx g)))
                      (hand (player g (other (current_idx g)))))) with g.
        { apply IH. }
        destruct g as [pile [p0 p1] c fb sr os inter].
        destruct c; simpl; [by destruct p1|by destruct p0].
      * destruct (resolve_one_frame a msgs g) as (Hc & _ & _).
        pose proof (resolve_fold_keeps_empty l (resolve_one a (msgs, g))) as Hk.
        cbn zeta in Hk. rewrite Hc in Hk. apply Hk.
        apply resolve_one_fails; [done|].
        rewrite gather_no_blocks by done. simpl. lia.
Qed.
End full_pickup.

Lemma base_first_burn_sets_status g s msgs r n rest :
  Base.first_burn g = false →
  Base.detect_burns (Base.common_pile g) = (r, n) :: rest →
  Base.first_burn (snd (Base.resolve_burns_if_any g s msgs)) = true
  ∧ Base.status_rank (snd (Base.resolve_burns_if_any g s msgs)) = Some r.
Proof.
  intros Hfb Hb. unfold Base.resolve_burns_if_any. rewrite Hb. cbn [foldl].
  assert (0 < n) as Hn.
  { apply (burn_sets_positive (foldl Base.count_card [] (Base.common_pile g)) r).
    unfold Base.detect_burns in Hb. rewrite Hb. apply list_elem_of_here. }
  destruct n as [|n]; [lia|]. cbn [Base.burn_times fst snd].
  set (g1 := Base.burn_once g s r).
  assert (Base.first_burn g1 = true ∧ Base.status_rank g1 = Some r) as [H1 H2].
  { subst g1. unfold Base.burn_once, Base.set_status_on_first_burn.
    rewrite Hfb. simpl. by destruct s. }
  set (acc1 := Base.burn_times n r s (msgs ++ [Base.MsgBurn r], g1)).
  pose proof (base_burn_times_status n r s (msgs ++ [Base.MsgBurn r], g1)) as Hs1.
  fold acc1 in Hs1. cbn [snd] in Hs1.
  assert (∀ l acc, Base.status_once (snd acc)
            (snd (foldl (fun acc '(r, count) => Base.burn_times count r s acc) acc l)))
    as Hfold.
  { induction l as [|[r' n'] l IH]; intros acc; [apply base_status_once_refl|].
    simpl. eapply base_status_once_trans; [|apply IH]. apply base_burn_times_status. }
  specialize (Hfold rest acc1).
  pose proof (base_status_once_trans _ _ _ Hs1 Hfold) as [Hfin _].
  destruct (Hfin H1) as [Ha Hb']. split; [done|congruence].
Qed.

(** *** The full variant: what a play does to the queue, the hand and the pile *)

Section full_play_frame.
Import Full.















Lemma bind_get {Y} (k : GameState → M Y) w : bind get k w = k (game w) w.
Proof. reflexivity. Qed.

Lemma bind_ret {X Y} (x : X) (k : X → M Y) w : bind (ret x) k w = k x w.
Proof. reflexivity. Qed.

Lemma bind_modify {Y} f (k : unit → M Y) w :
  bind (modify f) k w = k tt (with_game w (f (game w))).
Proof. reflexivity. Qed.



End full_play_frame.

(** *** The full variant: the first burn *)

Section full_first_burn.
Import Full.

Lemma dict_get_elem {V} k (d : list (Rank * V)) :
  k ∈ d.*1 → ∃ v, dict_get k d = Some v ∧ (k, v) ∈ d.
Proof.
  induction d as [|[k' v] d IH]; intros Hin; [by apply elem_of_nil in Hin|].
  simpl. destruct (decide (k = k')) as [->|Hne].
  - exists v. split; [done|by left].
  - rewrite fmap_cons in Hin. apply elem_of_cons in Hin as [?|Hin]; [done|].
    destruct (IH Hin) as (v' & -> & Hv). exists v'. split; [done|by right].
Qed.

Lemma status_kept {X} (m : M X) w :
  keeps status_once m → first_burn (game w) = true →
  first_burn (game (snd (m w))) = true
  ∧ status_rank (game (snd (m w))) = status_rank (game w).
Proof. intros Hm Hf. destruct (Hm w) as [H _]. by apply H. Qed.

Lemma status_after_bind {X Y} (m : M X) (k : X → M Y) w r :
  first_burn (game (snd (m w))) = true ∧ status_rank (game (snd (m w))) = Some r →
  (∀ x, keeps status_once (k x)) →
  first_burn (game (snd (bind m k w))) = true
  ∧ status_rank (game (snd (bind m k w))) = Some r.
Proof.
  intros [Hf Hs] Hk. unfold bind. destruct (m w) as [x w1]. cbn [snd] in *.
  destruct (status_kept (k x) w1 (Hk x) Hf) as [H1 H2]. split; congruence.
Qed.

(** The first burn of a game: [set_status] takes the rank. *)
Lemma burn_once_first s r i msgs w :
  first_burn (game w) = false →
  first_burn (game (snd (burn_once s r i msgs w))) = true
  ∧ status_rank (game (snd (burn_once s r i msgs w))) = Some r.
Proof.
  intros Hf.
  set (w1 := with_game w (set_status (game w) s r)).
  assert (first_burn (game w1) = true ∧ status_rank (game w1) = Some r) as [F1 S1].
  { subst w1. cbn [game with_game]. unfold set_status. rewrite Hf. simpl. by destruct s. }
  assert (burn_once s r i msgs w = burn_once s r i msgs w1) as ->.
  { unfold burn_once. rewrite !bind_modify. f_equal.
    assert (set_status (game w1) s r = game w1) as ->
      by (unfold set_status; by rewrite F1).
    reflexivity. }
  destruct (status_kept _ w1 (full_burn_once_status s r i msgs) F1) as [H1 H2].
  split; congruence.
Qed.

Lemma for_each_burns_first s b first order msgs w :
  first_burn (game w) = false →
  first ∈ b.*1 → (∀ r n, (r, n) ∈ b → 0 < n) →
  let m := for_each (first :: order) (λ r msgs1,
             for_each (seq 0 (default 0 (dict_get r b))) (burn_once s r) msgs1) msgs in
  first_burn (game (snd (m w))) = true
  ∧ status_rank (game (snd (m w))) = Some first.
Proof.
  intros Hf Hin Hpos m. subst m.
  destruct (dict_get_elem first b Hin) as (n & Hn & Hb).
  specialize (Hpos first n Hb). destruct n as [|n]; [lia|].
  cbn [for_each]. rewrite Hn. cbn [default seq for_each].
  apply status_after_bind.
  - apply status_after_bind; [by apply burn_once_first|].
    intros x.
    apply (keeps_for_each status_once full_status_once_refl full_status_once_trans).
    intros. apply full_burn_once_status.
  - intros x.
    apply (keeps_for_each status_once full_status_once_refl full_status_once_trans).
    intros.
    apply (keeps_for_each status_once full_status_once_refl full_status_once_trans).
    intros. apply full_burn_once_status.
Qed.

Lemma bind_input_ret {X Y} (f : Reply → X) (k : X → M Y) w :
  bind (bind input (λ line, ret (f line))) k w
  = k (f (stdin w (cursor w)))
      (mkWorld (game w) (fresh w) (stdin w) (S (cursor w))).
Proof. reflexivity. Qed.

(** [resolve_burns] on a pile that shows a burn, before the first burn of
    the game: the flag is raised and the rank is that of the first burn
    set resolved, the first of the table unless the player names others. *)
Lemma full_first_burn_sets_status w s msgs r n rest :
  first_burn (game w) = false →
  detect_burns (common_pile (game w)) = (r, n) :: rest →
  let rs := r :: rest.*1 in
  let chosen := List.filter
                  (λ r, bool_decide (rank_name r ∈ names (stdin w (cursor w)))) rs in
  let first := if interactive (game w) && (1 <? length rs)
               then match chosen with [] => r | r' :: _ => r' end
               else r in
  first_burn (game (snd (resolve_burns s msgs w))) = true
  ∧ status_rank (game (snd (resolve_burns s msgs w))) = Some first.
Proof.
  intros Hf Hb rs chosen first.
  assert (Hpos : ∀ r' n', (r', n') ∈ (r, n) :: rest → 0 < n').
  { intros r' n' Hin. unfold detect_burns in Hb.
    apply (burn_sets_positive (foldl count_card [] (common_pile (game w))) r').
    by rewrite Hb. }
  unfold resolve_burns. rewrite bind_get, Hb. cbv zeta.
  change (fst <$> (r, n) :: rest) with rs.
  destruct (interactive (game w) && (1 <? length rs)) eqn:Hi; subst first.
  - rewrite bind_input_ret. fold chosen.
    destruct chosen as [|r' ch] eqn:Hch.
    + apply for_each_burns_first; [done|by left|done].
    + apply for_each_burns_first; [done| |done].
      assert (r' ∈ chosen) as Hin by (rewrite Hch; by left).
      subst chosen. apply list_elem_of_In, filter_In in Hin as [Hin _].
      by apply list_elem_of_In.
  - rewrite bind_ret. apply for_each_burns_first; [done|by left|done].
Qed.
End full_first_burn.

(* ===================================================================== *)
(** ** Validation, status and pickup: the main statements *)
(* ===================================================================== *)

(** C3 (amended): in the base game every play that fails a check (a card
    that is neither in the hand nor face-up, a Joker with company, a means
    violation) returns one message and [False] and leaves the game as it
    was: the three checks come before every write.  In the full variant
    [play] checks nothing itself; there the command layer tests ownership
    (the hand only) before it calls [play], and a play command naming a
    card that is not in the hand returns with the world as it was. *)
Theorem failed_play_changes_nothing :
  (∀ (g : Base.GameState) s cards via_pair choice,
     (∃ c, c ∈ cards ∧ (c ∉ Base.hand (Base.player g s))
           ∧ (c ∉ Base.face_up (Base.player g s)))
     ∨ (Base.Joker ∈ cards ∧ length cards ≠ 1)
     ∨ Base.legal_under_means g cards via_pair = false →
     ∃ m, Base.play g s cards via_pair choice = (([m], false), g))
  ∧ (∀ (g : Base.GameState) s cards via_pair choice m,
       Base.play_validate g s cards via_pair = Some m →
       Base.play g s cards via_pair choice = (([m], false), g))
  ∧ (∀ (g : Base.GameState) s cards via_pair,
       Base.play_validate g s cards via_pair = None →
       (∀ c, c ∈ cards → c ∈ Base.hand (Base.player g s)
                         ∨ c ∈ Base.face_up (Base.player g s))
       ∧ (Base.Joker ∈ cards → cards = [Base.Joker])
       ∧ Base.legal_under_means g cards via_pair = true)
  ∧ (∀ (w : Full.World) cs pair c,
       c ∈ cs → Full.holds (Full.hand (Full.current (Full.game w))) c = false →
       ∃ m, Full.command_play cs pair w = (([m], false), w)).
Proof.
  split_and!.
  - intros g s cards vp choice [(c & Hc & Hh & Hf)|[[Hj Hl]|Hm]].
    + destruct (play_validate_unowned g s cards vp c Hc Hh Hf) as [m Hv].
      exists m. by apply play_rejected.
    + destruct (play_validate_joker g s cards vp Hj Hl) as [m Hv].
      exists m. by apply play_rejected.
    + destruct (play_validate_means g s cards vp Hm) as [m Hv].
      exists m. by apply play_rejected.
  - intros g s cards vp choice m. apply play_rejected.
  - intros g s cards vp. apply play_validate_None.
  - intros w cs pair c Hc Hh. unfold Full.command_play, Full.bind, Full.get.
    cbn [fst snd]. unfold Full.current in Hh.
    destruct (List.find _ cs) as [c'|] eqn:Hfind.
    + exists (Full.MsgNo c'). destruct w; reflexivity.
    + exfalso. rewrite find_none_forall in Hfind. specialize (Hfind c Hc).
      simpl in Hfind. by rewrite Hh in Hfind.
Qed.

(** A play of the Queen of spades, which A does not hold. *)
Lemma failed_play_changes_nothing_witness :
  ∃ m, Base.play Examples.base_game P0 [Base.Normal Q SPADES] false ""
       = (([m], false), Examples.base_game).
Proof.
  apply (proj1 failed_play_changes_nothing). left.
  exists (Base.Normal Q SPADES). split_and!.
  - apply list_elem_of_here.
  - apply (bool_decide_eq_false_1 _). reflexivity.
  - apply (bool_decide_eq_false_1 _). reflexivity.
Defined.

(** C3 as stated fails on the full variant: [play] with a card the player
    does not hold returns no failure and puts the card on the pile. *)
Lemma full_play_takes_unowned_card :
  Full.holds (Full.hand (Full.player (Full.game Examples.full_world) P0))
    Examples.stray = false
  ∧ fst (Full.play P0 [Examples.stray] false Examples.full_world)
    = ([Full.MsgPlay [Examples.stray]], false)
  ∧ Full.common_pile (Full.game Examples.full_world) = []
  ∧ Full.common_pile
      (Full.game (snd (Full.play P0 [Examples.stray] false Examples.full_world)))
    = [Examples.stray].
Proof. split_and!; reflexivity. Qed.




(** The Four of hearts is accepted below Five and switches means off. *)
Lemma means_reset_after_play_witness :
  Base.play_validate Examples.base_game P0 [Base.Normal FOUR HEARTS] false = None
  ∧ Base.has_means_card [Base.Normal FOUR HEARTS] = false
  ∧ Base.means_active
      (snd (Base.play Examples.base_game P0 [Base.Normal FOUR HEARTS] false ""))
    = false
  ∧ Base.means_limit
      (snd (Base.play Examples.base_game P0 [Base.Normal FOUR HEARTS] false ""))
    = None.
Proof.
  split_and!; [reflexivity..| |].
  - apply (proj1 (means_reset_after_play Examples.base_game P0
             [Base.Normal FOUR HEARTS] false "" eq_refl) eq_refl).
  - apply (proj1 (means_reset_after_play Examples.base_game P0
             [Base.Normal FOUR HEARTS] false "" eq_refl) eq_refl).
Defined.

(** C7: [status_rank] is written once.  Along every run of the base game
    and of the full variant, once [first_burn] is set [status_rank] keeps
    its value, and it can only change in a passage that sets [first_burn];
    before the first burn of a game it is [None].  The status setter
    writes the burn rank when [first_burn] is unset and does nothing
    afterwards, and the first burn resolved does assign it: in both
    variants, resolving the burns of a pile that shows one, before any
    burn of the game, raises [first_burn] and leaves [status_rank] at the
    rank of the first burn set resolved (in the full variant the first of
    the table, or of the ranks an interactive player names).  The
    transfer between players rewrites the players' holder flag (and
    token, in the full variant) and nothing else. *)
Theorem status_rank_assigned_once :
  (∀ g g', rtc Base.step g g' → Base.status_once g g')
  ∧ (∀ g, Base.reachable g → Base.first_burn g = false → Base.status_rank g = None)
  ∧ (∀ g s r, Base.first_burn g = false →
       Base.first_burn (Base.set_status_on_first_burn g s r) = true
       ∧ Base.status_rank (Base.set_status_on_first_burn g s r) = Some r)
  ∧ (∀ g s r, Base.first_burn g = true → Base.set_status_on_first_burn g s r = g)
  ∧ (∀ g s msgs r n rest,
       Base.first_burn g = false →
       Base.detect_burns (Base.common_pile g) = (r, n) :: rest →
       Base.first_burn (snd (Base.resolve_burns_if_any g s msgs)) = true
       ∧ Base.status_rank (snd (Base.resolve_burns_if_any g s msgs)) = Some r)
  ∧ (∀ g a d,
       Base.with_players (Base.transfer_status_due_to_means g a d) (Base.players g) = g
       ∧ ∀ seat,
           Base.with_has_status
             (Base.player (Base.transfer_status_due_to_means g a d) seat)
             (Base.has_status (Base.player g seat))
           = Base.player g seat)
  ∧ (∀ w w', rtc Full.step w w' → Full.status_once (Full.game w) (Full.game w'))
  ∧ (∀ w, Full.reachable w → Full.first_burn (Full.game w) = false →
          Full.status_rank (Full.game w) = None)
  ∧ (∀ g s r, Full.first_burn g = false →
       Full.first_burn (Full.set_status g s r) = true
       ∧ Full.status_rank (Full.set_status g s r) = Some r)
  ∧ (∀ g s r, Full.first_burn g = true → Full.set_status g s r = g)
  ∧ (∀ g src tgt,
       Full.with_players (Full.transfer_status g src tgt) (Full.players g) = g
       ∧ ∀ seat,
           Full.with_status (Full.player (Full.transfer_status g src tgt) seat)
             (Full.status_token (Full.player g seat))
             (Full.has_status_ability (Full.player g seat))
           = Full.player g seat)
  ∧ (∀ w s msgs r n rest,
       Full.first_burn (Full.game w) = false →
       Full.detect_burns (Full.common_pile (Full.game w)) = (r, n) :: rest →
       let rs := r :: rest.*1 in
       let chosen :=
         List.filter
           (λ r, bool_decide (rank_name r ∈ Full.names (Full.stdin w (Full.cursor w))))
           rs in
       let first := if Full.interactive (Full.game w) && (1 <? length rs)
                    then match chosen with [] => r | r' :: _ => r' end
                    else r in
       Full.first_burn (Full.game (snd (Full.resolve_burns s msgs w))) = true
       ∧ Full.status_rank (Full.game (snd (Full.resolve_burns s msgs w)))
         = Some first).
Proof.
  split_and!.
  - apply base_steps_status.
  - apply base_reachable_status_unset.
  - intros g s r Hf. unfold Base.set_status_on_first_burn. rewrite Hf. simpl.
    by destruct s.
  - intros g s r Hf. unfold Base.set_status_on_first_burn. by rewrite Hf.
  - apply base_first_burn_sets_status.
  - apply base_transfer_frame.
  - apply full_steps_status.
  - apply full_reachable_status_unset.
  - intros g s r Hf. unfold Full.set_status. rewrite Hf. simpl. by destruct s.
  - intros g s r Hf. unfold Full.set_status. by rewrite Hf.
  - apply full_transfer_frame.
  - apply full_first_burn_sets_status.
Qed.

(** After a first burn on Eight, A completes four Fours: the pile burns
    again and the status rank is still Eight. *)
Lemma status_rank_assigned_once_witness :
  Base.detect_burns
    (Base.add (Base.common_pile Examples.base_game_fours) [Base.Normal FOUR HEARTS])
  = [(FOUR, 1)]
  ∧ Base.common_pile
      (snd (Base.play Examples.base_game_fours P0 [Base.Normal FOUR HEARTS] false ""))
    = []
  ∧ Base.status_once Examples.base_game_fours
      (snd (Base.play Examples.base_game_fours P0 [Base.Normal FOUR HEARTS] false "")).
Proof.
  split_and!; [reflexivity..|].
  apply (proj1 status_rank_assigned_once). apply rtc_once.
  apply Base.step_play.
Defined.

(** C10: in the full variant [pickup_common] appends the cards to the hand
    and empties the personal pile, leaving the face-up, face-down and
    emergency zones as they were; so the [pickup] command on a pile that is
    not empty and every offense the defender's hand cannot block go through
    it, and [resolve_offenses] with a pending offense of positive strength
    against a hand with nothing to block with ends with the defender's
    personal pile empty. *)
Theorem pickup_discards_personal_pile :
  (∀ p cs,
     Full.hand (Full.pickup_common p cs) = Full.hand p ++ cs
     ∧ Full.personal_pile (Full.pickup_common p cs) = []
     ∧ Full.same_fixed_zones p (Full.pickup_common p cs))
  ∧ (∀ g, Full.common_pile g ≠ [] →
       Full.player (snd (Full.command_pickup g)) (Full.current_idx g)
       = Full.pickup_common (Full.current g) (Full.common_pile g)
       ∧ Full.common_pile (snd (Full.command_pickup g)) = [])
  ∧ (∀ a msgs g,
       Full.res a = false →
       length (Full.gather (Full.str a) (Full.hand (Full.opponent g)) []) < Full.str a →
       Full.player (snd (Full.resolve_one a (msgs, g))) (other (Full.current_idx g))
       = Full.pickup_common (Full.opponent g) (Full.common_pile g)
       ∧ Full.common_pile (snd (Full.resolve_one a (msgs, g))) = [])
  ∧ (∀ g,
       Exists (fun a => Full.res a = false ∧ 0 < Full.str a) (Full.offenses g) →
       existsb Full.blocks (Full.hand (Full.opponent g)) = false →
       Full.personal_pile
         (Full.player (snd (Full.resolve_offenses g)) (other (Full.current_idx g)))
       = []
       ∧ Full.same_fixed_zones (Full.opponent g)
           (Full.player (snd (Full.resolve_offenses g)) (other (Full.current_idx g)))).
Proof.
  split_and!.
  - intros p cs. done.
  - intros g Hne. unfold Full.command_pickup.
    destruct (Full.common_pile g) as [|c pile] eqn:Hp; [done|].
    cbn [Full.clear snd]. rewrite player_set_player_eq. by destruct (Full.current_idx g).
  - intros a msgs g Hres Hlen. unfold Full.resolve_one. rewrite Hres.
    unfold Full.opponent in *.
    destruct (Nat.leb_spec (Full.str a)
                (length (Full.gather (Full.str a)
                           (Full.hand (Full.player g (other (Full.current_idx g)))) [])));
      [lia|].
    cbn [Full.clear snd]. rewrite player_set_player_eq.
    by destruct (other (Full.current_idx g)).
  - intros g Hex Hnb. unfold Full.resolve_offenses.
    pose proof (resolve_fold_forced (Full.offenses g) [] g Hex Hnb) as Hforced.
    pose proof (resolve_fold_zones (Full.offenses g) ([], g)) as [_ Hz].
    cbn zeta in Hforced, Hz. cbn [snd] in Hz.
    destruct (foldl _ _ _) as [msgs g1]. cbn [snd] in *. split; [done|].
    exact Hz.
Qed.

(** B has nothing to block A's Joker with: the forced pickup takes the
    pile and B's personal pile (the Queen of clubs) goes. *)
Lemma pickup_discards_personal_pile_witness :
  Full.personal_pile (Full.opponent Examples.full_game_offense)
  = [Full.mkCard 6 (Full.Normal Q CLUBS)]
  ∧ Full.personal_pile
      (Full.player (snd (Full.resolve_offenses Examples.full_game_offense)) P1)
    = []
  ∧ Full.same_fixed_zones (Full.opponent Examples.full_game_offense)
      (Full.player (snd (Full.resolve_offenses Examples.full_game_offense)) P1).
Proof.
  split; [reflexivity|].
  apply (proj2 (proj2 (proj2 pickup_discards_personal_pile)) Examples.full_game_offense).
  - apply Exists_cons_hd. split; [reflexivity|simpl; lia].
  - reflexivity.
Defined.

Section base_means_limit.
Import Base.

Lemma means_kept_refl g : means_kept_or_off g g.
Proof. by left. Qed.

Lemma means_kept_trans g1 g2 g3 :
  means_kept_or_off g1 g2 → means_kept_or_off g2 g3 → means_kept_or_off g1 g3.
Proof.
  intros [[A1 A2]|A] [[B1 B2]|B]; try (by right).
  - left. split; congruence.
  - right. destruct A. split; congruence.
Qed.

Lemma means_well_formed_kept g g' :
  means_kept_or_off g g' → means_well_formed g → means_well_formed g'.
Proof.
  intros [[A1 A2]|[B1 B2]] Hwf Ha.
  - rewrite A1 in Ha. rewrite A2. by apply Hwf.
  - congruence.
Qed.

Lemma set_player_means_kept g s p : means_kept_or_off g (set_player g s p).
Proof. left. by destruct s. Qed.

Lemma burn_times_means_kept n r s acc :
  means_kept_or_off (snd acc) (snd (burn_times n r s acc)).
Proof.
  destruct n as [|n]; [apply means_kept_refl|].
  right. apply burn_times_means_off. lia.
Qed.

Lemma resolve_burns_means_kept g s msgs :
  means_kept_or_off g (snd (resolve_burns_if_any g s msgs)).
Proof.
  unfold resolve_burns_if_any.
  change g with (snd (msgs, g)) at 1. generalize (msgs, g).
  induction (detect_burns (common_pile g)) as [|[r n] l IH]; intros acc.
  - apply means_kept_refl.
  - simpl. eapply means_kept_trans; [|apply IH]. apply burn_times_means_kept.
Qed.

Lemma force_pickup_means_kept g d msgs :
  means_kept_or_off g (snd (force_pickup g d msgs)).
Proof. right. apply force_pickup_means_off. Qed.

Lemma play_offense_means_kept g s opp played choice msgs :
  means_kept_or_off g (snd (play_offense g s opp played choice msgs)).
Proof.
  unfold play_offense. destruct (last played) as [[|]|]; try apply means_kept_refl.
  unfold joker_offense.
  repeat case_match; simpl;
    first [ apply force_pickup_means_kept | apply set_player_means_kept
          | apply means_kept_refl ].
Qed.

Lemma find_means_card played :
  match List.find (fun c => match c with
                            | Normal r _ => is_five_or_seven r
                            | Joker => false
                            end) (reverse played) with
  | Some (Normal r _) => is_five_or_seven r = true
  | Some Joker => False
  | None => has_means_card played = false
  end.
Proof.
  destruct (List.find _ _) as [[r su|]|] eqn:Hf.
  - by apply find_some in Hf as [_ ?].
  - by apply find_some in Hf as [_ ?].
  - rewrite find_none_forall in Hf. unfold has_means_card.
    destruct (existsb _ played) eqn:E; [|done].
    apply existsb_exists in E as (c & Hin & Hc).
    rewrite (Hf c) in Hc; [done|].
    apply elem_of_reverse, list_elem_of_In, Hin.
Qed.

Lemma means_anchor_five_or_seven played vp :
  has_means_card played || pair_with_means played vp = true →
  ∃ L, means_anchor played vp = Some L ∧ is_five_or_seven L = true.
Proof.
  intros Hm. unfold means_anchor. pose proof (find_means_card played) as Hf.
  destruct (List.find _ _) as [[r su|]|]; [by exists r|done|].
  rewrite Hf in Hm. simpl in Hm. rewrite Hm.
  eexists. split; [done|]. by case_bool_decide.
Qed.

Lemma play_means_well_formed g s opp played vp msgs :
  means_well_formed (snd (play_means g s opp played vp msgs)).
Proof.
  unfold play_means. destruct (_ || _) eqn:Hm; [|done].
  intros _. simpl. by apply means_anchor_five_or_seven.
Qed.

Lemma play_means_well_formed_after g s cards vp choice :
  means_well_formed g → means_well_formed (snd (play g s cards vp choice)).
Proof.
  intros Hwf. unfold play. destruct (play_validate g s cards vp); [done|].
  rewrite play_apply_state. cbn zeta.
  eapply means_well_formed_kept; [apply play_offense_means_kept|].
  eapply means_well_formed_kept; [apply resolve_burns_means_kept|].
  apply play_means_well_formed.
Qed.

Lemma step_means_well_formed g g' :
  step g g' → means_well_formed g → means_well_formed g'.
Proof.
  destruct 1; intros Hwf.
  - by apply play_means_well_formed_after.
  - eapply means_well_formed_kept; [|done]. left.
    unfold pickup. destruct (common_pile g); [done|]. by destruct (current_idx g).
  - eapply means_well_formed_kept; [apply set_player_means_kept|done].
  - done.
  - eapply means_well_formed_kept; [|done]. left.
    unfold set_status_on_first_burn. destruct (first_burn g); [done|]. by destruct s.
  - eapply means_well_formed_kept; [|done]. left.
    unfold transfer_status_due_to_means. destruct (has_status _); [|done].
    by destruct a, d.
  - eapply means_well_formed_kept; [apply force_pickup_means_kept|done].
  - eapply means_well_formed_kept; [apply set_player_means_kept|done].
  - done.
Qed.

Lemma reachable_means_well_formed g : reachable g → means_well_formed g.
Proof.
  induction 1 as [|g g' _ IH Hs]; [done|]. by apply (step_means_well_formed g).
Qed.

Lemma five_or_seven_effective L : is_five_or_seven L = true → effective_rank L = L.
Proof. by destruct L. Qed.
End base_means_limit.

(** C5: while means is active with limit [L], a play that is not
    [via_pair] passes the checks only if every normal card in it other
    than a Three has an effective rank strictly below [L]; one such card
    at or above [L] has the play rejected with the game unchanged, and a
    play of the player's own cards, all of them below the effective rank
    of [L], passes (a Joker in it being alone).  A
    [via_pair] play bypasses the means check: it is never refused for
    means, and it passes the checks of [play] whenever its cards are the
    player's own and a Joker in it is alone, whatever their ranks.  In
    every state a game reaches an active limit is a Five or a Seven. *)
Theorem means_limit_enforced (g : Base.GameState) (s : Seat)
    (cards : list Base.Card) (choice : string) (L : Rank) :
  Base.means_active g = true → Base.means_limit g = Some L →
  (Base.play_validate g s cards false = None →
   ∀ r su, Base.Normal r su ∈ cards → r ≠ THREE →
           rank_value (effective_rank r) < rank_value L)
  ∧ ((∃ r su, Base.Normal r su ∈ cards ∧ r ≠ THREE
              ∧ rank_value L ≤ rank_value (effective_rank r)) →
     ∃ m, Base.play g s cards false choice = (([m], false), g))
  ∧ ((∀ c, c ∈ cards →
           c ∈ Base.hand (Base.player g s) ∨ c ∈ Base.face_up (Base.player g s)) →
     (Base.Joker ∈ cards → length cards = 1) →
     (∀ r su, Base.Normal r su ∈ cards → r ≠ THREE →
              rank_value (effective_rank r) < rank_value (effective_rank L)) →
     Base.play_validate g s cards false = None
     ∧ Base.play g s cards false choice = Base.play_apply g s cards false choice)
  ∧ ((∀ c, c ∈ cards →
           c ∈ Base.hand (Base.player g s) ∨ c ∈ Base.face_up (Base.player g s)) →
     (Base.Joker ∈ cards → length cards = 1) →
     Base.play_validate g s cards true = None
     ∧ Base.play g s cards true choice = Base.play_apply g s cards true choice)
  ∧ Base.play_validate g s cards true ≠ Some Base.MsgIllegalMeans
  ∧ (∀ g' cards', Base.legal_under_means g' cards' true = true)
  ∧ (∀ g', Base.reachable g' → Base.means_active g' = true →
       ∃ L', Base.means_limit g' = Some L'
             ∧ (L' = FIVE ∨ L' = SEVEN) ∧ effective_rank L' = L').
Proof.
  intros Ha Hl.
  assert (HL : rank_value (effective_rank L) ≤ rank_value L) by (by destruct L; simpl; lia).
  assert (Hok : ∀ vp,
                (∀ c, c ∈ cards →
                   c ∈ Base.hand (Base.player g s) ∨ c ∈ Base.face_up (Base.player g s)) →
                (Base.Joker ∈ cards → length cards = 1) →
                Base.legal_under_means g cards vp = true →
                Base.play_validate g s cards vp = None).
  { intros vp Hown Hjk Hm. unfold Base.play_validate. rewrite Hm.
    destruct (List.find _ cards) as [rc|] eqn:Hfind.
    { apply find_some in Hfind as [Hin Hrc]. apply list_elem_of_In in Hin.
      apply andb_true_iff in Hrc as [H1 H2].
      apply negb_true_iff, bool_decide_eq_false in H1, H2.
      destruct (Hown rc Hin); done. }
    destruct (existsb Base.is_joker cards) eqn:Hex.
    - apply existsb_exists in Hex as (c & Hin & Hc). destruct c; [done|].
      apply list_elem_of_In in Hin. rewrite (Hjk Hin). done.
    - done. }
  assert (Hvp : (∀ c, c ∈ cards →
                   c ∈ Base.hand (Base.player g s) ∨ c ∈ Base.face_up (Base.player g s)) →
                (Base.Joker ∈ cards → length cards = 1) →
                Base.play_validate g s cards true = None).
  { intros Hown Hjk. by apply Hok. }
  split_and!.
  - intros Hv r su Hin Hr.
    apply play_validate_None in Hv as (_ & _ & Hm).
    rewrite (legal_under_means_active g cards L Ha Hl) in Hm.
    specialize (Hm r su Hin Hr). lia.
  - intros (r & su & Hin & Hr & Hge).
    destruct (Base.legal_under_means g cards false) eqn:Hm.
    + rewrite (legal_under_means_active g cards L Ha Hl) in Hm.
      specialize (Hm r su Hin Hr). lia.
    + destruct (play_validate_means g s cards false Hm) as [m Hv].
      exists m. by apply play_rejected.
  - intros Hown Hjk Hlow.
    assert (Hv : Base.play_validate g s cards false = None).
    { apply Hok; [done..|]. by apply (legal_under_means_active g cards L Ha Hl). }
    split; [done|]. unfold Base.play. by rewrite Hv.
  - intros Hown Hjk. split; [by apply Hvp|].
    unfold Base.play. by rewrite Hvp.
  - unfold Base.play_validate.
    destruct (List.find _ cards); [done|].
    destruct (_ && _); done.
  - intros g' cards'. apply legal_under_means_via_pair.
  - intros g' Hr Hact.
    destruct (reachable_means_well_formed g' Hr Hact) as (L' & HL' & H57).
    exists L'. split_and!; [done| |by apply five_or_seven_effective].
    destruct L'; auto; done.
Qed.

(** With means active below Five, the Seven of clubs is refused. *)
Lemma means_limit_enforced_witness :
  Base.means_active Examples.base_game = true
  ∧ Base.means_limit Examples.base_game = Some FIVE
  ∧ ∃ m, Base.play Examples.base_game P0 [Base.Normal SEVEN CLUBS] false ""
         = (([m], false), Examples.base_game).
Proof.
  split_and!; [reflexivity..|].
  apply (proj1 (proj2 (means_limit_enforced Examples.base_game P0
           [Base.Normal SEVEN CLUBS] "" FIVE eq_refl eq_refl))).
  exists SEVEN, CLUBS. split_and!.
  - apply list_elem_of_here.
  - discriminate.
  - simpl. lia.
Defined.

(** *** Further properties *)

(** Eight and Nine share an effective rank and no other two ranks do. *)
Theorem effective_rank_collapses_eight_nine (r r' : Rank) :
  effective_rank r = effective_rank r'
  ↔ r = r' ∨ (r = EIGHT ∧ r' = NINE) ∨ (r = NINE ∧ r' = EIGHT).
Proof. destruct r, r'; cbn; intuition congruence. Qed.

(** A token anywhere in the pile changes nothing for [detect_burns] of the
    slot-based engine. *)
Theorem engine_tokens_transparent (l1 l2 : list Engine.Card) (t : Engine.Card) :
  Engine.is_ranked t = false →
  Engine.detect_burns (l1 ++ t :: l2) = Engine.detect_burns (l1 ++ l2).
Proof.
  intros Ht. unfold Engine.detect_burns. f_equal. generalize Engine.scan0.
  induction l1 as [|c l1 IH]; intros st.
  - simpl. by rewrite Ht.
  - rewrite <- !app_comm_cons. simpl. repeat case_match; try done; apply IH.
Qed.

(** Four cards of one effective rank with a Joker and a PFJ among them. *)
Lemma engine_tokens_transparent_witness :
  Engine.is_ranked Engine.Joker = false
  ∧ Engine.detect_burns
      ([Engine.Normal EIGHT SPADES; Engine.PFJ; Engine.Normal NINE HEARTS]
       ++ Engine.Joker :: [Engine.Normal EIGHT CLUBS; Engine.Normal NINE DIAMONDS])
    = Engine.detect_burns
        ([Engine.Normal EIGHT SPADES; Engine.PFJ; Engine.Normal NINE HEARTS]
         ++ [Engine.Normal EIGHT CLUBS; Engine.Normal NINE DIAMONDS]).
Proof.
  split; [reflexivity|].
  apply (engine_tokens_transparent _ _ Engine.Joker). reflexivity.
Defined.

(** [consume_emergency_action] switches off both actions of a card when
    the action asked for is available to it, and otherwise changes
    nothing: not when the action has been spent, not when the card has no
    entry in the ledger, and not when the action named is neither [peek]
    nor [swap].  The entries of the other cards are never touched. *)
Theorem consume_action_disables_both (p : Engine.Player) (c : nat) (which : string) :
  (∀ a, Engine.emergency_actions p !! c = Some a →
        (which = "peek"%string ∧ Engine.peek a = true)
        ∨ (which = "swap"%string ∧ Engine.swap a = true) →
        Engine.consume_emergency_action p c which
        = Engine.with_actions p
            (<[c := Engine.mkActions false false]> (Engine.emergency_actions p))
        ∧ Engine.emergency_actions (Engine.consume_emergency_action p c which) !! c
          = Some (Engine.mkActions false false))
  ∧ (∀ a, Engine.emergency_actions p !! c = Some a →
          (which = "peek"%string → Engine.peek a = false) →
          (which = "swap"%string → Engine.swap a = false) →
          Engine.consume_emergency_action p c which = p)
  ∧ (Engine.emergency_actions p !! c = None →
     Engine.consume_emergency_action p c which = p)
  ∧ (which ≠ "peek"%string → which ≠ "swap"%string →
     Engine.consume_emergency_action p c which = p)
  ∧ (∀ c', c' ≠ c →
       Engine.emergency_actions (Engine.consume_emergency_action p c which) !! c'
       = Engine.emergency_actions p !! c')
  ∧ Engine.emergency_slots (Engine.consume_emergency_action p c which)
    = Engine.emergency_slots p
  ∧ Engine.hand (Engine.consume_emergency_action p c which) = Engine.hand p.
Proof.
  unfold Engine.consume_emergency_action. split_and!.
  - intros a Ha Hav. rewrite Ha.
    assert ((if decide (which = "peek"%string) then Engine.peek a
             else if decide (which = "swap"%string) then Engine.swap a else false)
            = true) as ->.
    { destruct Hav as [[-> H]|[-> H]].
      - by rewrite decide_True by done.
      - rewrite decide_False by done. by rewrite decide_True by done. }
    split; [done|]. simpl. by rewrite lookup_insert_eq.
  - intros a Ha Hp Hs. rewrite Ha.
    destruct (decide (which = "peek"%string)) as [E|_]; [by rewrite (Hp E)|].
    destruct (decide (which = "swap"%string)) as [E|_]; [by rewrite (Hs E)|done].
  - by intros ->.
  - intros Hp Hs. destruct (Engine.emergency_actions p !! c); [|done].
    rewrite decide_False by done. by rewrite decide_False by done.
  - intros c' Hne. destruct (Engine.emergency_actions p !! c) as [a|]; [|done].
    destruct (if decide _ then _ else _); [|done].
    simpl. by rewrite lookup_insert_ne.
  - destruct (Engine.emergency_actions p !! c) as [a|]; [|done].
    by destruct (if decide _ then _ else _).
  - destruct (Engine.emergency_actions p !! c) as [a|]; [|done].
    by destruct (if decide _ then _ else _).
Qed.

(** The red King of the repository's test, one burn cycle after it was acquired. *)
Lemma consume_action_disables_both_witness :
  Engine.emergency_actions
    (Engine.consume_emergency_action
       (Engine.with_actions (Engine.new_player "T")
          {[7 := Engine.mkActions true true]}) 7 "peek") !! 7
  = Some (Engine.mkActions false false).
Proof.
  refine (proj2 (proj1 (consume_action_disables_both _ 7 "peek")
                   (Engine.mkActions true true) _ _)).
  - vm_compute. reflexivity.
  - left. split; reflexivity.
Defined.

(** [replenish] of the base game moves exactly the first
    [max_hand - len(hand)] cards of the personal pile (all of it when it
    is shorter) to the end of the hand, in order, and nothing when the
    hand is at or over [max_hand]: a hand over the limit keeps its cards.
    It stops with the pile empty or the hand at the limit, a second
    [replenish] changes nothing, and the other zones and the status are
    untouched. *)
Theorem base_replenish_fifo (p : Base.Player) :
  let k := Base.max_hand p - length (Base.hand p) in
  Base.hand (Base.replenish p) = Base.hand p ++ take k (Base.personal_pile p)
  ∧ Base.personal_pile (Base.replenish p) = drop k (Base.personal_pile p)
  ∧ (Base.max_hand p ≤ length (Base.hand p) → Base.replenish p = p)
  ∧ (Base.personal_pile (Base.replenish p) = []
     ∨ Base.max_hand p ≤ length (Base.hand (Base.replenish p)))
  ∧ Base.replenish (Base.replenish p) = Base.replenish p
  ∧ Base.has_status (Base.replenish p) = Base.has_status p
  ∧ Base.face_up (Base.replenish p) = Base.face_up p
  ∧ Base.face_down (Base.replenish p) = Base.face_down p
  ∧ Base.known_middle_fd (Base.replenish p) = Base.known_middle_fd p.
Proof.
  intros k.
  assert (Hloop : ∀ limit pp h,
            Base.replenish_loop limit h pp
            = (h ++ take (limit - length h) pp, drop (limit - length h) pp)).
  { intros limit pp. induction pp as [|c pp IH]; intros h.
    - simpl. by rewrite take_nil, drop_nil, app_nil_r.
    - simpl. destruct (Nat.ltb_spec (length h) limit) as [Hlt|Hge].
      + rewrite IH. rewrite length_app. simpl.
        replace (limit - length h) with (S (limit - (length h + 1))) by lia.
        simpl. by rewrite <- app_assoc.
      + replace (limit - length h) with 0 by lia. simpl. by rewrite app_nil_r. }
  assert (Hrep : ∀ q, Base.replenish q
                      = Base.with_personal_pile
                          (Base.with_hand q
                             (Base.hand q
                              ++ take (Base.max_hand q - length (Base.hand q))
                                   (Base.personal_pile q)))
                          (drop (Base.max_hand q - length (Base.hand q))
                             (Base.personal_pile q))).
  { intros q. unfold Base.replenish. by rewrite Hloop. }
  assert (Hdry : length (Base.hand p ++ take k (Base.personal_pile p)) < Base.max_hand p →
                 drop k (Base.personal_pile p) = []).
  { rewrite length_app, length_take. intros H. apply drop_ge. subst k. lia. }
  rewrite (Hrep p). fold k. split_and!; try done.
  - intros Hge. replace k with 0 by (subst k; lia). simpl.
    rewrite app_nil_r. by destruct p.
  - cbn [Base.hand Base.personal_pile Base.with_hand Base.with_personal_pile].
    destruct (decide (length (Base.hand p ++ take k (Base.personal_pile p))
                      < Base.max_hand p)) as [Hlt|Hge]; [left; by apply Hdry|right; lia].
  - rewrite Hrep.
    cbn [Base.hand Base.personal_pile Base.with_hand Base.with_personal_pile].
    change (Base.max_hand (Base.with_personal_pile (Base.with_hand p _) _))
      with (Base.max_hand p).
    destruct (decide (length (Base.hand p ++ take k (Base.personal_pile p))
                      < Base.max_hand p)) as [Hlt|Hge].
    + rewrite (Hdry Hlt). rewrite take_nil, drop_nil, app_nil_r. done.
    + replace (Base.max_hand p - length (Base.hand p ++ take k (Base.personal_pile p)))
        with 0 by lia.
      simpl. rewrite app_nil_r. done.
Qed.

(** [Deck.draw(n)] of the slot-based engine takes the first [n] cards (all
    of them when fewer remain): drawn and remaining cards together are the
    deck as it was. *)
Theorem draw_splits_deck (deck : list nat) (n : nat) :
  fst (Engine.draw deck n) ++ snd (Engine.draw deck n) = deck
  ∧ length (fst (Engine.draw deck n)) = n `min` length deck
  ∧ length (fst (Engine.draw deck n)) + length (snd (Engine.draw deck n))
    = length deck.
Proof.
  unfold Engine.draw. simpl. split_and!.
  - apply take_drop.
  - apply length_take.
  - rewrite length_take, length_drop. lia.
Qed.

(** The scenario of four plays 8S, 8H, 9C, 9D on an empty pile: the fourth
    card burns the pile on effective rank Eight, the pile is empty
    afterwards, and B, who played it, holds the status. *)
Theorem base_four_eights_burn :
  let g3 := Examples.base_turn (Examples.base_turn (Examples.base_turn
              Examples.base_game_eights [Base.Normal EIGHT SPADES])
              [Base.Normal EIGHT HEARTS]) [Base.Normal NINE CLUBS] in
  let g4 := snd (Base.play g3 P1 [Base.Normal NINE DIAMONDS] false "") in
  Base.detect_burns (Base.common_pile g3) = []
  ∧ Base.detect_burns (Base.add (Base.common_pile g3) [Base.Normal NINE DIAMONDS])
    = [(EIGHT, 1)]
  ∧ Base.common_pile g4 = []
  ∧ Base.first_burn g4 = true
  ∧ Base.status_rank g4 = Some EIGHT
  ∧ Base.has_status (Base.player g4 P1) = true
  ∧ Base.has_status (Base.player g4 P0) = false.
Proof. cbv zeta. split_and!; reflexivity. Qed.

(** The means scenario: a lone Five switches means on with limit Five; a
    Seven is then refused and the game stays as it is; a Four is accepted
    and, not being a means card, switches means off. *)
Theorem base_five_then_seven_then_four :
  let g0 := Examples.base_game_eights in
  let g1 := Examples.base_turn g0 [Base.Normal FIVE HEARTS] in
  Base.means_active g1 = true
  ∧ Base.means_limit g1 = Some FIVE
  ∧ Base.play g1 P1 [Base.Normal SEVEN CLUBS] false ""
    = (([Base.MsgIllegalMeans], false), g1)
  ∧ Base.play_validate g1 P1 [Base.Normal FOUR SPADES] false = None
  ∧ Base.common_pile (snd (Base.play g1 P1 [Base.Normal FOUR SPADES] false ""))
    = [Base.Normal FIVE HEARTS; Base.Normal FOUR SPADES]
  ∧ Base.means_active (snd (Base.play g1 P1 [Base.Normal FOUR SPADES] false ""))
    = false.
Proof. cbv zeta. split_and!; reflexivity. Qed.

(* ===================================================================== *)
(** ** Beyond the claims: the rest of the engines *)
(* ===================================================================== *)

(** *** The slot-based engine: the top group, the slots and the decks *)

Section engine_more.
Import Engine.

Lemma top_group_loop_spec cs gs st :
  g_anchor gs = anchor st → ∃ tail, group_tail_of cs gs st tail.
Proof.
  revert gs st. induction cs as [|c cs IH]; intros gs st Ha.
  { exists []. unfold group_tail_of. simpl. rewrite app_nil_r. split_and!; try done.
    intros gs2 _. by rewrite app_nil_r. }
  destruct (is_ranked c) eqn:Hr.
  2:{ destruct (IH gs st Ha) as (tail & H1 & H2 & H3 & H4 & H5).
      exists tail. unfold group_tail_of. simpl. rewrite Hr. simpl.
      split_and!; try done. by apply sublist_cons. }
  destruct (rank c) as [r|] eqn:Hk.
  2:{ unfold is_ranked in Hr. by rewrite Hk in Hr. }
  (* a counted card: the loop goes on from [gs'] and the scan from [st'] *)
  assert (Hcount : ∀ gs' st',
    top_group_loop (c :: cs) gs = top_group_loop cs gs' →
    scan (c :: cs) st = scan cs st' →
    group gs' = group gs ++ [c] →
    g_anchor gs' = anchor st' →
    (∀ tail gs2, g_anchor gs2 = g_anchor gs →
       ∃ gs2', top_group_loop (c :: tail) gs2 = top_group_loop tail gs2'
               ∧ group gs2' = group gs2 ++ [c] ∧ g_anchor gs2' = g_anchor gs') →
    (∀ tail, scan (c :: tail) st = scan tail st') →
    ∃ tail, group_tail_of (c :: cs) gs st tail).
  { intros gs' st' El Es Eg Ha' Hre Hsc.
    destruct (IH gs' st' Ha') as (tail & H1 & H2 & H3 & H4 & H5).
    exists (c :: tail). unfold group_tail_of. split_and!.
    - rewrite El, H1, Eg. by rewrite <- app_assoc.
    - rewrite Hsc, H2. by rewrite Es.
    - by apply sublist_skip.
    - by constructor.
    - intros gs2 E2. destruct (Hre tail gs2 E2) as (gs2' & -> & Eg2 & Ea2).
      rewrite H5 by done. rewrite Eg2. by rewrite <- app_assoc. }
  destruct (decide (r = TWO)) as [->|H2].
  { eapply Hcount.
    - simpl. rewrite Hr, Hk. simpl. reflexivity.
    - simpl. rewrite Hr, Hk. simpl. reflexivity.
    - done.
    - done.
    - intros tail gs2 E. eexists. split; [simpl; rewrite Hr, Hk; simpl; reflexivity|].
      by split.
    - intros tail. simpl. by rewrite Hr, Hk. }
  destruct (decide (r = THREE)) as [->|H3].
  { eapply Hcount.
    - simpl. rewrite Hr, Hk. simpl. reflexivity.
    - simpl. rewrite Hr, Hk. simpl. reflexivity.
    - done.
    - done.
    - intros tail gs2 E. eexists. split; [simpl; rewrite Hr, Hk; simpl; reflexivity|].
      by split.
    - intros tail. simpl. by rewrite Hr, Hk. }
  destruct (anchor st) as [a|] eqn:Hst.
  - destruct (decide (effective_rank r = a)) as [He|He].
    + eapply Hcount.
      * simpl. rewrite Hr, Hk. simpl.
        rewrite decide_False by done. rewrite decide_False by done.
        rewrite Ha. rewrite decide_True by done. reflexivity.
      * simpl. rewrite Hr, Hk. simpl.
        rewrite decide_False by done. rewrite decide_False by done.
        rewrite Hst. rewrite decide_True by done. reflexivity.
      * done.
      * simpl. congruence.
      * intros tail gs2 E. eexists. split.
        -- simpl. rewrite Hr, Hk. simpl.
           rewrite decide_False by done. rewrite decide_False by done.
           rewrite E, Ha. rewrite decide_True by done. reflexivity.
        -- split; [done|]. simpl. congruence.
      * intros tail. simpl. rewrite Hr, Hk. simpl.
        rewrite decide_False by done. rewrite decide_False by done.
        rewrite Hst. by rewrite decide_True by done.
    + exists []. unfold group_tail_of. split_and!.
      * simpl. rewrite Hr, Hk. simpl. rewrite !decide_False by done.
        rewrite Ha. rewrite decide_False by done. by rewrite app_nil_r.
      * simpl. rewrite Hr, Hk. simpl. rewrite !decide_False by done.
        rewrite Hst. by rewrite decide_False by done.
      * apply sublist_nil_l.
      * constructor.
      * intros gs2 _. simpl. by rewrite app_nil_r.
  - eapply Hcount.
    + simpl. rewrite Hr, Hk. simpl.
      rewrite decide_False by done. rewrite decide_False by done.
      rewrite Ha. reflexivity.
    + simpl. rewrite Hr, Hk. simpl.
      rewrite decide_False by done. rewrite decide_False by done.
      rewrite Hst. reflexivity.
    + done.
    + done.
    + intros tail gs2 E. eexists. split.
      * simpl. rewrite Hr, Hk. simpl.
        rewrite decide_False by done. rewrite decide_False by done.
        rewrite E, Ha. reflexivity.
      * by split.
    + intros tail. simpl. rewrite Hr, Hk. simpl.
      rewrite decide_False by done. rewrite decide_False by done.
      by rewrite Hst.
Qed.

Lemma filter_locked_pos l i s :
  l !! i = Some s → locked s = true → 0 < length (List.filter locked l).
Proof.
  revert i. induction l as [|y l IH]; intros i Hl Hs; [done|].
  destruct i; simpl in *.
  - injection Hl as ->. rewrite Hs. simpl. lia.
  - destruct (locked y); simpl; [lia|]. by eapply IH.
Qed.

Lemma filter_locked_alter_unlock l i s :
  l !! i = Some s → locked s = true →
  length (List.filter locked (alter unlock i l))
  = pred (length (List.filter locked l)).
Proof.
  revert i. induction l as [|x l IH]; intros i Hl Hs; [done|].
  destruct i as [|i].
  - simpl in *. injection Hl as ->. by rewrite Hs.
  - change (alter unlock (S i) (x :: l)) with (x :: alter unlock i l).
    simpl in Hl. cbn [List.filter].
    destruct (locked x) eqn:Hx; cbn [length]; [|by eapply IH].
    rewrite (IH i Hl Hs).
    pose proof (filter_locked_pos l i s Hl Hs). lia.
Qed.

Lemma list_find_locked_None l :
  list_find (λ s, locked s = true) l = None ↔ List.filter locked l = [].
Proof.
  rewrite list_find_None. induction l as [|x l IH]; simpl.
  - split; [done|constructor].
  - rewrite Forall_cons. destruct (locked x); simpl.
    + split; [intros [? _]; done|done].
    + rewrite IH. split; [by intros [_ ?]|by split].
Qed.

Lemma locked_slots_nil p :
  locked_slots p = [] → Forall (λ s, locked s = false) (emergency_slots p).
Proof.
  unfold locked_slots. induction (emergency_slots p) as [|x l IH]; [constructor|].
  simpl. destruct (locked x) eqn:E; [done|]. intros H. constructor; auto.
Qed.

Lemma open_next_slot_and_get_spec p :
  match fst (open_next_slot_and_get p) with
  | Some i =>
      ∃ s, emergency_slots p !! i = Some s ∧ locked s = true
           ∧ (∀ j t, j < i → emergency_slots p !! j = Some t → locked t = false)
           ∧ snd (open_next_slot_and_get p)
             = with_slots p (alter unlock i (emergency_slots p))
  | None => locked_slots p = [] ∧ snd (open_next_slot_and_get p) = p
  end.
Proof.
  unfold open_next_slot_and_get.
  destruct (list_find _ (emergency_slots p)) as [[i s]|] eqn:Hf; simpl.
  - apply list_find_Some in Hf as (Hl & Hs & Hbefore).
    exists s. split_and!; try done.
    intros j t Hj Ht. specialize (Hbefore j t Ht Hj). by destruct (locked t).
  - split; [|done]. by apply list_find_locked_None.
Qed.
End engine_more.

(** [top_group] returns ranked cards of the pile in pile order, and it
    carries every burn: [detect_burns] of the group taken as a pile is
    [detect_burns] of the pile; the group of a group is the group. *)
Theorem engine_top_group_carries_burns (pile : Engine.CommonPile) :
  Engine.top_group pile `sublist_of` pile
  ∧ Forall (λ c, Engine.is_ranked c = true) (Engine.top_group pile)
  ∧ Engine.detect_burns (Engine.top_group pile) = Engine.detect_burns pile
  ∧ Engine.top_group (Engine.top_group pile) = Engine.top_group pile.
Proof.
  destruct pile as [|c pile]; [by split_and!|].
  destruct (top_group_loop_spec (c :: pile) Engine.group0 Engine.scan0 eq_refl)
    as (tail & H1 & H2 & H3 & H4 & H5).
  assert (Engine.top_group (c :: pile) = tail) as ->.
  { unfold Engine.top_group. by rewrite H1. }
  split_and!; try done.
  - unfold Engine.detect_burns. by rewrite H2.
  - unfold Engine.top_group. destruct tail as [|t tail]; [done|].
    by rewrite (H5 Engine.group0 eq_refl).
Qed.

(** [open_next_slot] unlocks exactly one slot, the first locked one, and
    says so; with no locked slot it says [False] and changes nothing.  The
    cards in the slots and the unlocked slots stay as they are: when slot
    [i] is locked and every slot before it is not, the player afterwards
    is the player with slot [i] unlocked and nothing else changed. *)
Theorem open_next_slot_unlocks_one (p : Engine.Player) :
  let r := Engine.open_next_slot p in
  (fst r = true ↔ Engine.locked_slots p ≠ [])
  ∧ length (Engine.locked_slots (snd r)) = pred (length (Engine.locked_slots p))
  ∧ length (Engine.emergency_slots (snd r)) = length (Engine.emergency_slots p)
  ∧ Engine.emergency_cards (snd r) = Engine.emergency_cards p
  ∧ (fst r = false → snd r = p)
  ∧ (∀ i s, Engine.emergency_slots p !! i = Some s → Engine.locked s = false →
            Engine.emergency_slots (snd r) !! i = Some s)
  ∧ Engine.open_next_slot_and_get p
    = (fst <$> list_find (λ s, Engine.locked s = true) (Engine.emergency_slots p), snd r)
  ∧ (∀ i s, Engine.emergency_slots p !! i = Some s → Engine.locked s = true →
            (∀ j t, j < i → Engine.emergency_slots p !! j = Some t →
                    Engine.locked t = false) →
            fst r = true
            ∧ snd r = Engine.with_slots p (alter Engine.unlock i (Engine.emergency_slots p))
            ∧ Engine.emergency_slots (snd r) !! i = Some (Engine.unlock s)
            ∧ Engine.locked (Engine.unlock s) = false
            ∧ Engine.card (Engine.unlock s) = Engine.card s
            ∧ ∀ j, j ≠ i →
                Engine.emergency_slots (snd r) !! j = Engine.emergency_slots p !! j).
Proof.
  intros r. subst r. unfold Engine.open_next_slot.
  pose proof (open_next_slot_and_get_spec p) as Hspec.
  unfold Engine.open_next_slot_and_get in *.
  destruct (list_find _ (Engine.emergency_slots p)) as [[i s]|] eqn:Hf; simpl in *.
  - destruct Hspec as (s' & Hl & Hs & Hbefore & _).
    split_and!.
    + split; [|done].
      intros _ Hnil. unfold Engine.locked_slots in Hnil.
      apply list_find_locked_None in Hnil. congruence.
    + unfold Engine.locked_slots. simpl. by eapply filter_locked_alter_unlock.
    + by rewrite length_alter.
    + unfold Engine.emergency_cards. simpl.
      clear Hf Hbefore. revert i Hl.
      induction (Engine.emergency_slots p) as [|x l IH]; intros i Hl; [done|].
      destruct i.
      * simpl. by destruct (Engine.card x).
      * change (alter Engine.unlock (S i) (x :: l)) with (x :: alter Engine.unlock i l).
        simpl in Hl. cbn [omap list_omap]. by rewrite (IH i Hl).
    + done.
    + intros j t Hj Ht. rewrite list_lookup_alter.
      destruct (decide (j = i)) as [->|]; [|by rewrite decide_False by done].
      congruence.
    + done.
    + intros i' s2 Hl' Hs' Hfirst.
      assert (i' = i) as ->.
      { destruct (Nat.lt_trichotomy i' i) as [Hlt|[Heq|Hgt]]; [|done|].
        - specialize (Hbefore i' s2 Hlt Hl'). congruence.
        - specialize (Hfirst i s' Hgt Hl). congruence. }
      assert (s2 = s') as -> by congruence.
      split_and!; try done.
      * rewrite list_lookup_alter, decide_True by done. by rewrite Hl.
      * intros j Hj. rewrite list_lookup_alter. by rewrite decide_False by done.
  - destruct Hspec as [Hnil _]. rewrite Hnil. split_and!; try done.
    intros i s Hl Hs _. exfalso.
    apply locked_slots_nil in Hnil. rewrite Forall_lookup in Hnil.
    specialize (Hnil i s Hl). simpl in Hnil. congruence.
Qed.

(** When [grant_fre] returns a slot, the red deck has lost exactly its top
    card and that card sits in the slot: unlocked, known to the owner, of
    red provenance, flagged [just_acquired] and with both actions switched
    off in the ledger. *)
Theorem grant_fre_installs (h : gmap nat Engine.CardObj) (p : Engine.Player)
    (deck : list nat) (i : nat) (h' : gmap nat Engine.CardObj)
    (p' : Engine.Player) (deck' : list nat) :
  Engine.grant_fre h p deck = (Some i, (h', p', deck')) →
  ∃ c s,
    deck = c :: deck'
    ∧ Engine.emergency_slots p' !! i = Some s
    ∧ Engine.card s = Some c
    ∧ Engine.locked s = false
    ∧ Engine.known_to_owner s = true
    ∧ Engine.source_color s = Some "RED"%string
    ∧ Engine.emergency_actions p' !! c = Some (Engine.mkActions false false)
    ∧ (is_Some (h !! c) → Engine.acquired_flag h' c = true)
    ∧ Engine.hand p' = Engine.hand p
    ∧ Engine.personal_pile p' = Engine.personal_pile p.
Proof.
  unfold Engine.grant_fre.
  pose proof (open_next_slot_and_get_spec p) as Hspec.
  destruct (Engine.open_next_slot_and_get p) as [new_slot p1] eqn:Hopen.
  simpl in Hspec.
  set (slot := match new_slot with
               | Some j => Some j
               | None => Engine.first_empty_unlocked_slot p1
               end).
  assert (Hslot : ∀ j, slot = Some j →
            ∃ s, Engine.emergency_slots p1 !! j = Some s ∧ Engine.locked s = false
                 ∧ Engine.hand p1 = Engine.hand p
                 ∧ Engine.personal_pile p1 = Engine.personal_pile p).
  { intros j Hj. subst slot. destruct new_slot as [k|].
    - injection Hj as ->. destruct Hspec as (s & Hl & Hs & _ & ->). simpl.
      exists (Engine.unlock s). split_and!; try done.
      rewrite list_lookup_alter, Hl. simpl. by rewrite decide_True by done.
    - destruct Hspec as [_ ->]. unfold Engine.first_empty_unlocked_slot in Hj.
      destruct (list_find _ (Engine.emergency_slots p)) as [[k s]|] eqn:Hf; [|done].
      simpl in Hj. injection Hj as ->.
      apply list_find_Some in Hf as (Hl & Hs & _).
      exists s. split_and!; try done.
      apply andb_true_iff in Hs as [Hs _]. by destruct (Engine.locked s). }
  destruct slot as [j|] eqn:Hj; [|done].
  destruct (Hslot j eq_refl) as (s & Hl & Hs & Hh & Hpp).
  unfold Engine.draw. destruct deck as [|c deck]; [done|].
  simpl. intros [= <- <- <- <-].
  eexists c, _. split_and!.
  - by rewrite drop_0.
  - simpl. rewrite list_lookup_alter, Hl. simpl. rewrite decide_True by done.
    reflexivity.
  - done.
  - exact Hs.
  - done.
  - done.
  - simpl. by rewrite lookup_insert_eq.
  - intros [o Ho]. unfold Engine.acquired_flag.
    rewrite lookup_alter, decide_True by done. by rewrite Ho.
  - exact Hh.
  - exact Hpp.
Qed.

(** The red deck of one card [7] and a new player: slot 1 is opened and
    takes the card. *)
Lemma grant_fre_installs_witness :
  ∃ c s,
    [7] = c :: []
    ∧ Engine.emergency_slots
        (snd (fst (snd (Engine.grant_fre {[7 := Engine.mkObj (Engine.EmergencyRed K SPADES) false]}
                          (Engine.new_player "T") [7])))) !! 1 = Some s
    ∧ Engine.card s = Some c
    ∧ Engine.locked s = false
    ∧ Engine.known_to_owner s = true
    ∧ Engine.source_color s = Some "RED"%string.
Proof.
  destruct (grant_fre_installs
              {[7 := Engine.mkObj (Engine.EmergencyRed K SPADES) false]}
              (Engine.new_player "T") [7] 1 _ _ [] eq_refl)
    as (c & s & H1 & H2 & H3 & H4 & H5 & H6 & _).
  exists c, s. split_and!; done.
Defined.

(** [grant_fre] returns no slot exactly when the red deck is empty or no
    slot is locked and none is empty.  A failing grant draws nothing and
    leaves the card objects alone, but it has still unlocked the next
    locked slot: the player is as after [open_next_slot]. *)
Theorem grant_fre_fails (h : gmap nat Engine.CardObj) (p : Engine.Player)
    (deck : list nat) :
  let r := Engine.grant_fre h p deck in
  (fst r = None
   ↔ deck = []
     ∨ (Engine.locked_slots p = []
        ∧ Forall (λ s, Engine.is_empty s = false) (Engine.emergency_slots p)))
  ∧ (fst r = None →
     snd r = (h, snd (Engine.open_next_slot p), deck)).
Proof.
  intros r. subst r. unfold Engine.grant_fre, Engine.open_next_slot.
  pose proof (open_next_slot_and_get_spec p) as Hspec.
  destruct (Engine.open_next_slot_and_get p) as [new_slot p1] eqn:Hopen.
  simpl in Hspec. destruct new_slot as [j|].
  - destruct Hspec as (s & Hl & Hs & _ & Hp1).
    unfold Engine.draw. destruct deck as [|c deck]; simpl.
    + split; [|done]. split; [by left|done].
    + split; [|done]. split; [done|]. intros [|[Hnil _]]; [done|].
      apply locked_slots_nil in Hnil. rewrite Forall_lookup in Hnil.
      specialize (Hnil _ _ Hl). congruence.
  - destruct Hspec as [Hnil ->].
    unfold Engine.first_empty_unlocked_slot.
    destruct (list_find _ (Engine.emergency_slots p)) as [[k s]|] eqn:Hf; simpl.
    + apply list_find_Some in Hf as (Hl & Hs & _).
      apply andb_true_iff in Hs as [_ Hs].
      unfold Engine.draw. destruct deck as [|c deck]; simpl.
      * split; [|done]. split; [by left|done].
      * split; [|done]. split; [done|]. intros [|[_ Hall]]; [done|].
        rewrite Forall_lookup in Hall. specialize (Hall _ _ Hl). congruence.
    + split; [|done]. split; [|done]. intros _. right. split; [done|].
      apply list_find_None in Hf. apply locked_slots_nil in Hnil.
      rewrite Forall_forall in Hf, Hnil. apply Forall_forall. intros s Hin.
      specialize (Hf s Hin). specialize (Hnil s Hin). simpl in Hf.
      rewrite Hnil in Hf. simpl in Hf. by destruct (Engine.is_empty s).
Qed.

Section replenish.
Lemma engine_replenish_loop_spec limit pp h :
  Engine.replenish_loop limit h pp
  = (h ++ take (limit - length h) pp, drop (limit - length h) pp).
Proof.
  revert h. induction pp as [|c pp IH]; intros h.
  - simpl. by rewrite take_nil, drop_nil, app_nil_r.
  - simpl. destruct (Nat.ltb_spec (length h) limit) as [Hlt|Hge].
    + rewrite IH. rewrite length_app. simpl.
      replace (limit - length h) with (S (limit - (length h + 1))) by lia.
      simpl. by rewrite <- app_assoc.
    + replace (limit - length h) with 0 by lia. simpl. by rewrite app_nil_r.
Qed.

Lemma full_replenish_loop_spec pp p :
  let k := Full.hand_limit p - length (Full.hand p) in
  Full.replenish_loop p pp
  = Full.with_personal_pile (Full.with_hand p (Full.hand p ++ take k pp)) (drop k pp).
Proof.
  revert p. induction pp as [|c pp IH]; intros p k; subst k.
  - simpl. rewrite take_nil, drop_nil, app_nil_r. by destruct p.
  - simpl. unfold Full.needs_replenish.
    assert ((if Full.has_status_ability p then Full.hand_limit p else 4)
            = Full.hand_limit p) as ->.
    { unfold Full.hand_limit. by destruct (Full.has_status_ability p). }
    destruct (Nat.ltb_spec (length (Full.hand p)) (Full.hand_limit p)) as [Hlt|Hge].
    + rewrite IH. simpl. rewrite length_app. simpl.
      change (Full.hand_limit (Full.with_hand p (Full.hand p ++ [c])))
        with (Full.hand_limit p).
      replace (Full.hand_limit p - length (Full.hand p))
        with (S (Full.hand_limit p - (length (Full.hand p) + 1))) by lia.
      simpl. rewrite <- app_assoc. by destruct p.
    + replace (Full.hand_limit p - length (Full.hand p)) with 0 by lia.
      simpl. rewrite app_nil_r. by destruct p.
Qed.
End replenish.

(** [replenish] of the slot-based engine and of the full variant moves
    exactly the first [hand_limit - len(hand)] cards of the personal pile
    (all of it when it is shorter) to the end of the hand; a hand at or
    over its limit is left alone, and a second [replenish] changes
    nothing. *)
Theorem replenish_tops_up :
  (∀ p : Engine.Player,
     let k := Engine.hand_limit p - length (Engine.hand p) in
     Engine.hand (Engine.replenish p)
     = Engine.hand p ++ take k (Engine.personal_pile p)
     ∧ Engine.personal_pile (Engine.replenish p) = drop k (Engine.personal_pile p)
     ∧ (Engine.needs_replenish (Engine.replenish p) = true →
        Engine.personal_pile (Engine.replenish p) = [])
     ∧ Engine.replenish (Engine.replenish p) = Engine.replenish p)
  ∧ (∀ p : Full.Player,
       let k := Full.hand_limit p - length (Full.hand p) in
       Full.hand (Full.replenish p) = Full.hand p ++ take k (Full.personal_pile p)
       ∧ Full.personal_pile (Full.replenish p) = drop k (Full.personal_pile p)
       ∧ (Full.needs_replenish (Full.replenish p) = true →
          Full.personal_pile (Full.replenish p) = [])
       ∧ Full.replenish (Full.replenish p) = Full.replenish p).
Proof.
  split.
  - intros p k.
    assert (Hrep : Engine.replenish p
                   = Engine.with_hand_pile p
                       (Engine.hand p ++ take k (Engine.personal_pile p))
                       (drop k (Engine.personal_pile p))).
    { unfold Engine.replenish. by rewrite engine_replenish_loop_spec. }
    assert (Hdry : length (Engine.hand p ++ take k (Engine.personal_pile p))
                   < Engine.hand_limit p → drop k (Engine.personal_pile p) = []).
    { rewrite length_app, length_take. intros H. apply drop_ge. lia. }
    rewrite Hrep. split_and!; try done.
    + unfold Engine.needs_replenish. simpl.
      intros H%Nat.ltb_lt. by apply Hdry.
    + unfold Engine.replenish. rewrite engine_replenish_loop_spec. simpl.
      change (Engine.hand_limit (Engine.with_hand_pile p _ _))
        with (Engine.hand_limit p).
      destruct (decide (length (Engine.hand p ++ take k (Engine.personal_pile p))
                        < Engine.hand_limit p)) as [Hlt|Hge].
      * rewrite (Hdry Hlt). rewrite take_nil, drop_nil, app_nil_r. by destruct p.
      * replace (Engine.hand_limit p
                 - length (Engine.hand p ++ take k (Engine.personal_pile p)))
          with 0 by lia.
        simpl. rewrite app_nil_r. by destruct p.
  - intros p k.
    assert (Hrep : Full.replenish p
                   = Full.with_personal_pile
                       (Full.with_hand p (Full.hand p ++ take k (Full.personal_pile p)))
                       (drop k (Full.personal_pile p))).
    { unfold Full.replenish. by rewrite full_replenish_loop_spec. }
    assert (Hdry : length (Full.hand p ++ take k (Full.personal_pile p))
                   < Full.hand_limit p → drop k (Full.personal_pile p) = []).
    { rewrite length_app, length_take. intros H. apply drop_ge. lia. }
    rewrite Hrep. split_and!; try done.
    + unfold Full.needs_replenish. simpl.
      change (Full.hand_limit (Full.with_personal_pile _ _))
        with (Full.hand_limit p).
      assert ((if Full.has_status_ability p then Full.hand_limit p else 4)
              = Full.hand_limit p) as ->.
      { unfold Full.hand_limit. by destruct (Full.has_status_ability p). }
      intros H%Nat.ltb_lt. by apply Hdry.
    + unfold Full.replenish. rewrite full_replenish_loop_spec. simpl.
      change (Full.hand_limit (Full.with_personal_pile _ _))
        with (Full.hand_limit p).
      destruct (decide (length (Full.hand p ++ take k (Full.personal_pile p))
                        < Full.hand_limit p)) as [Hlt|Hge].
      * rewrite (Hdry Hlt). rewrite take_nil, drop_nil, app_nil_r. by destruct p.
      * replace (Full.hand_limit p
                 - length (Full.hand p ++ take k (Full.personal_pile p)))
          with 0 by lia.
        simpl. rewrite app_nil_r. by destruct p.
Qed.

Section ledger_keys.
Import Engine.

Lemma holds_card_emergency_cards c slots :
  existsb (holds_card c) slots = bool_decide (c ∈ omap card slots).
Proof.
  induction slots as [|s slots IH]; [done|].
  cbn [existsb]. rewrite IH. unfold holds_card.
  change (omap card (s :: slots))
    with (match card s with
          | Some y => y :: omap card slots
          | None => omap card slots
          end).
  destruct (card s) as [c'|] eqn:E.
  - destruct (decide (c' = c)) as [->|Hne].
    + rewrite bool_decide_true by done. symmetry.
      apply bool_decide_eq_true. by left.
    + rewrite bool_decide_false by congruence.
      apply bool_decide_ext. rewrite elem_of_cons.
      split; [by right|]. intros [?|?]; [congruence|done].
  - by rewrite bool_decide_false by done.
Qed.

Lemma clear_flags_emergency_cards h slots c :
  c ∈ omap card slots → acquired_flag (clear_flags h slots) c = false.
Proof.
  intros H. apply clear_flags_held. rewrite holds_card_emergency_cards.
  by apply bool_decide_eq_true.
Qed.
End ledger_keys.

(** [reset_emergency_actions] rebuilds the ledger from the slots: a card
    held in a slot has both actions allowed unless it is flagged
    [just_acquired], and a card that is no longer in any slot has no entry.
    After [start_new_burn_cycle] every held card has both actions allowed
    and no flag; the slots themselves are untouched. *)
Theorem ledger_holds_slot_cards_only (h : gmap nat Engine.CardObj)
    (p : Engine.Player) (c : nat) :
  Engine.emergency_actions (Engine.reset_emergency_actions h p) !! c
  = (if bool_decide (c ∈ Engine.emergency_cards p)
     then Some (Engine.mkActions (negb (Engine.acquired_flag h c))
                  (negb (Engine.acquired_flag h c)))
     else None)
  ∧ Engine.emergency_actions (snd (Engine.start_new_burn_cycle h p)) !! c
    = (if bool_decide (c ∈ Engine.emergency_cards p)
       then Some (Engine.mkActions true true)
       else None)
  ∧ (c ∈ Engine.emergency_cards p →
     Engine.acquired_flag (fst (Engine.start_new_burn_cycle h p)) c = false)
  ∧ Engine.emergency_slots (snd (Engine.start_new_burn_cycle h p))
    = Engine.emergency_slots p.
Proof.
  split_and!.
  - unfold Engine.reset_emergency_actions. simpl.
    rewrite ledger_of_lookup, holds_card_emergency_cards.
    unfold Engine.emergency_cards. by case_bool_decide.
  - unfold Engine.start_new_burn_cycle, Engine.reset_emergency_actions. simpl.
    rewrite ledger_of_lookup, holds_card_emergency_cards.
    unfold Engine.emergency_cards. case_bool_decide as Hc; [|done].
    by rewrite clear_flags_emergency_cards.
  - intros Hc. by apply clear_flags_emergency_cards.
  - done.
Qed.

(** Whatever order [shuffle] leaves them in, the playing deck has 110
    cards: every rank and suit twice, four Jokers and two PFJ, and
    [split_playing_deck_into_personal] deals it into two piles of 55; the
    red deck has 26 cards and the blue deck 21, each with two PFJ and two
    FRE among them. *)
Theorem decks_composition (playing red blue : list Engine.Card) :
  playing ≡ₚ Engine.playing_deck_cards →
  red ≡ₚ Engine.red_deck_cards →
  blue ≡ₚ Engine.blue_deck_cards →
  length playing = 110
  ∧ (∀ r s, count_occ Engine.Card_eq_dec playing (Engine.Normal r s) = 2)
  ∧ count_occ Engine.Card_eq_dec playing Engine.Joker = 4
  ∧ count_occ Engine.Card_eq_dec playing Engine.PFJ = 2
  ∧ fst (Engine.split_playing_deck_into_personal playing)
    ++ snd (Engine.split_playing_deck_into_personal playing) = playing
  ∧ length (fst (Engine.split_playing_deck_into_personal playing)) = 55
  ∧ length (snd (Engine.split_playing_deck_into_personal playing)) = 55
  ∧ length red = 26 ∧ length blue = 21
  ∧ count_occ Engine.Card_eq_dec red Engine.PFJ = 2
  ∧ count_occ Engine.Card_eq_dec red Engine.FRE = 2
  ∧ count_occ Engine.Card_eq_dec blue Engine.PFJ = 2
  ∧ count_occ Engine.Card_eq_dec blue Engine.FRE = 2
  ∧ Forall (λ c, Engine.card_type c ∈ [Engine.EMERGENCY_RED; Engine.PFJ_T; Engine.FRE_T]) red
  ∧ Forall (λ c, Engine.card_type c ∈ [Engine.EMERGENCY_BLUE; Engine.PFJ_T; Engine.FRE_T]) blue.
Proof.
  intros Hp Hr Hb.
  assert (Hlen : length playing = 110) by (by rewrite Hp).
  assert (Hcount : ∀ (l l' : list Engine.Card) c,
            l ≡ₚ l' → count_occ Engine.Card_eq_dec l c = count_occ Engine.Card_eq_dec l' c).
  { intros l l' c H. by apply (Permutation_count_occ Engine.Card_eq_dec). }
  split_and!.
  - done.
  - intros r s. rewrite (Hcount _ _ _ Hp). by destruct r, s; vm_compute.
  - rewrite (Hcount _ _ _ Hp). by vm_compute.
  - rewrite (Hcount _ _ _ Hp). by vm_compute.
  - apply take_drop.
  - unfold Engine.split_playing_deck_into_personal. simpl.
    rewrite length_take, Hlen. reflexivity.
  - unfold Engine.split_playing_deck_into_personal. simpl.
    rewrite length_drop, Hlen. reflexivity.
  - by rewrite Hr.
  - by rewrite Hb.
  - rewrite (Hcount _ _ _ Hr). by vm_compute.
  - rewrite (Hcount _ _ _ Hr). by vm_compute.
  - rewrite (Hcount _ _ _ Hb). by vm_compute.
  - rewrite (Hcount _ _ _ Hb). by vm_compute.
  - rewrite Hr. unfold Engine.red_deck_cards.
    repeat (apply Forall_cons; split; [set_solver|]); constructor.
  - rewrite Hb. unfold Engine.blue_deck_cards.
    repeat (apply Forall_cons; split; [set_solver|]); constructor.
Qed.

(** The decks as built, before any shuffle. *)
Lemma decks_composition_witness :
  length Engine.playing_deck_cards = 110
  ∧ length Engine.red_deck_cards = 26
  ∧ length Engine.blue_deck_cards = 21.
Proof.
  pose proof (decks_composition Engine.playing_deck_cards Engine.red_deck_cards
                Engine.blue_deck_cards (reflexivity _) (reflexivity _) (reflexivity _))
    as H.
  split_and!; apply H.
Defined.

(** *** The base game: card text and the parser *)

Section base_text.
Import Base.

Lemma but_last_last_char t : String.append (Text.but_last t) (Text.last_char t) = t.
Proof.
  induction t as [|a t IH]; [done|].
  destruct t as [|b t]; [done|].
  change (String a (String.append (Text.but_last (String b t))
                      (Text.last_char (String b t))) = String a (String b t)).
  by rewrite IH.
Qed.

Lemma SUIT_BY_CHAR_inv k s : SUIT_BY_CHAR k = Some s → k = suit_value s.
Proof.
  unfold SUIT_BY_CHAR. repeat case_decide; intros [= <-]; by subst.
Qed.

Lemma RANK_BY_CHAR_inv k r : RANK_BY_CHAR k = Some r → k = rank_text r.
Proof.
  unfold RANK_BY_CHAR. repeat case_decide; intros [= <-]; by subst.
Qed.

Lemma parse_repr c : parse_single_card (repr c) = inr c.
Proof. destruct c as [r s|]; [destruct r, s|]; reflexivity. Qed.

Lemma parse_single_card_inv tok c :
  parse_single_card tok = inr c → Text.upper (Text.strip tok) = repr c.
Proof.
  unfold parse_single_card. set (t := Text.upper (Text.strip tok)).
  destruct (decide (t = "JK"%string)) as [->|_]; [by intros [= <-]|].
  destruct (String.length t <? 2); [done|].
  destruct (SUIT_BY_CHAR _) as [s|] eqn:Hs; [|done].
  destruct (RANK_BY_CHAR _) as [r|] eqn:Hr; [|done].
  intros [= <-]. apply SUIT_BY_CHAR_inv in Hs. apply RANK_BY_CHAR_inv in Hr.
  simpl. rewrite <- Hs, <- Hr. symmetry. apply but_last_last_char.
Qed.

Lemma upper_strip_repr c : Text.upper (Text.strip (repr c)) = repr c.
Proof. destruct c as [r s|]; [destruct r, s|]; reflexivity. Qed.

(** Strings without the separator, and strings without white space. *)
Lemma split_on_app sep s rest :
  Text.contains sep s = false →
  Text.split_on sep (String.append s (String sep rest)) = s :: Text.split_on sep rest.
Proof.
  induction s as [|a s IH]; intros Hs.
  - simpl. by rewrite decide_True by done.
  - simpl in Hs. apply orb_false_iff in Hs as [Ha Hs].
    apply bool_decide_eq_false in Ha.
    simpl. rewrite decide_False by congruence. by rewrite (IH Hs).
Qed.

Lemma split_on_none sep s :
  Text.contains sep s = false → Text.split_on sep s = [s].
Proof.
  induction s as [|a s IH]; intros Hs; [done|].
  simpl in Hs. apply orb_false_iff in Hs as [Ha Hs].
  apply bool_decide_eq_false in Ha.
  simpl. rewrite decide_False by congruence. by rewrite (IH Hs).
Qed.

Lemma contains_app a s1 s2 :
  Text.contains a (String.append s1 s2) = Text.contains a s1 || Text.contains a s2.
Proof.
  induction s1 as [|b s1 IH]; [done|]. simpl. rewrite IH. by rewrite orb_assoc.
Qed.

Lemma append_cons a (s1 s2 : string) :
  String.append (String a s1) s2 = String a (String.append s1 s2).
Proof. reflexivity. Qed.

Lemma append_nil_r (s : string) : String.append s EmptyString = s.
Proof. induction s as [|a s IH]; [done|]. by rewrite append_cons, IH. Qed.

Lemma append_assoc (s1 s2 s3 : string) :
  String.append (String.append s1 s2) s3 = String.append s1 (String.append s2 s3).
Proof. induction s1 as [|a s1 IH]; [done|]. by rewrite !append_cons, IH. Qed.

Lemma repr_no_comma c : Text.contains "," (repr c) = false.
Proof. destruct c as [r s|]; [destruct r, s|]; reflexivity. Qed.

Lemma repr_no_plus c : Text.contains "+" (repr c) = false.
Proof. destruct c as [r s|]; [destruct r, s|]; reflexivity. Qed.

Lemma strip_repr c : Text.strip (repr c) = repr c.
Proof. destruct c as [r s|]; [destruct r, s|]; reflexivity. Qed.

Lemma strip_space_repr c : Text.strip (String " " (repr c)) = repr c.
Proof. destruct c as [r s|]; [destruct r, s|]; reflexivity. Qed.

Lemma repr_not_empty c : repr c ≠ EmptyString.
Proof. destruct c as [r s|]; [destruct r, s|]; done. Qed.

Lemma join_cons sep x y l :
  Text.join sep (x :: y :: l)
  = String.append x (String.append sep (Text.join sep (y :: l))).
Proof. reflexivity. Qed.

(** The comma-separated pieces of a joined list of cards. *)
Lemma pieces_comma_join pad cs :
  pad = EmptyString ∨ pad = " "%string →
  Text.pieces "," (String.append pad (Text.join ", " (repr <$> cs))) = repr <$> cs.
Proof.
  intros Hpad. revert pad Hpad. induction cs as [|c cs IH]; intros pad Hpad.
  - by destruct Hpad as [->| ->].
  - destruct cs as [|c' cs].
    + simpl. unfold Text.pieces. rewrite split_on_none.
      2:{ rewrite contains_app, repr_no_comma. by destruct Hpad as [->| ->]. }
      simpl.
      assert (Text.strip (String.append pad (repr c)) = repr c) as ->.
      { destruct Hpad as [->| ->]; [apply strip_repr|apply strip_space_repr]. }
      rewrite bool_decide_false by apply repr_not_empty. done.
    + rewrite fmap_cons, fmap_cons, join_cons. rewrite <- fmap_cons.
      change (String.append ", " ?s) with (String "," (String.append " " s)).
      rewrite <- append_assoc. unfold Text.pieces.
      rewrite split_on_app.
      2:{ rewrite contains_app, repr_no_comma. by destruct Hpad as [->| ->]. }
      rewrite fmap_cons. cbn [List.filter].
      assert (Text.strip (String.append pad (repr c)) = repr c) as ->.
      { destruct Hpad as [->| ->]; [apply strip_repr|apply strip_space_repr]. }
      rewrite bool_decide_false by apply repr_not_empty. cbn [negb].
      f_equal. apply (IH " "%string). by right.
Qed.

(** The plus-separated pieces of a joined list of cards, with or
    without a plus sign at the end. *)
Lemma pieces_plus_join cs tail :
  tail = EmptyString ∨ tail = "+"%string →
  Text.pieces "+" (String.append (Text.join "+" (repr <$> cs)) tail) = repr <$> cs.
Proof.
  intros Htail. induction cs as [|c cs IH].
  - by destruct Htail as [->| ->].
  - destruct cs as [|c' cs].
    + simpl. unfold Text.pieces. destruct Htail as [->| ->].
      * rewrite append_nil_r.
        rewrite split_on_none by apply repr_no_plus. simpl.
        rewrite strip_repr. by rewrite bool_decide_false by apply repr_not_empty.
      * rewrite split_on_app by apply repr_no_plus. simpl.
        rewrite strip_repr. by rewrite bool_decide_false by apply repr_not_empty.
    + rewrite fmap_cons, fmap_cons, join_cons. rewrite <- fmap_cons.
      rewrite append_assoc. rewrite (append_cons "+" EmptyString).
      change (String.append "" ?s) with s. rewrite append_cons.
      unfold Text.pieces. rewrite split_on_app by apply repr_no_plus.
      rewrite fmap_cons. cbn [List.filter].
      rewrite strip_repr. rewrite bool_decide_false by apply repr_not_empty.
      cbn [negb]. f_equal. exact IH.
Qed.

Lemma parse_each_repr cs : parse_each (repr <$> cs) = inr cs.
Proof.
  induction cs as [|c cs IH]; [done|].
  rewrite fmap_cons. cbn [parse_each]. by rewrite parse_repr, IH.
Qed.

Lemma parse_parts_repr cs acc vp :
  parse_parts (repr <$> cs) acc vp = inr (acc ++ cs, vp).
Proof.
  revert acc. induction cs as [|c cs IH]; intros acc.
  - simpl. by rewrite app_nil_r.
  - rewrite fmap_cons. cbn [parse_parts].
    rewrite repr_no_plus, parse_repr, IH. by rewrite <- app_assoc.
Qed.

Lemma join_plus_no_comma cs : Text.contains "," (Text.join "+" (repr <$> cs)) = false.
Proof.
  induction cs as [|c cs IH]; [done|].
  destruct cs as [|c' cs]; [apply repr_no_comma|].
  rewrite fmap_cons, fmap_cons, join_cons, <- fmap_cons.
  rewrite !contains_app, repr_no_comma, IH. done.
Qed.

Lemma no_space_strip s :
  forallb (λ a, negb (Text.is_space a)) (list_ascii_of_string s) = true →
  Text.strip s = s.
Proof.
  intros H. unfold Text.strip.
  assert (Text.lstrip s = s) as ->.
  { destruct s as [|a s]; [done|]. simpl in *.
    apply andb_true_iff in H as [Ha _]. by destruct (Text.is_space a). }
  induction s as [|a s IH]; [done|]. simpl in *.
  apply andb_true_iff in H as [Ha Hs]. rewrite (IH Hs).
  destruct s; [by destruct (Text.is_space a)|done].
Qed.

Lemma no_space_app s1 s2 :
  forallb (λ a, negb (Text.is_space a)) (list_ascii_of_string (String.append s1 s2))
  = forallb (λ a, negb (Text.is_space a)) (list_ascii_of_string s1)
    && forallb (λ a, negb (Text.is_space a)) (list_ascii_of_string s2).
Proof.
  induction s1 as [|a s1 IH]; [done|]. simpl. rewrite IH. by rewrite andb_assoc.
Qed.

Lemma repr_no_space c :
  forallb (λ a, negb (Text.is_space a)) (list_ascii_of_string (repr c)) = true.
Proof. destruct c as [r s|]; [destruct r, s|]; reflexivity. Qed.

Lemma join_plus_no_space cs :
  forallb (λ a, negb (Text.is_space a))
    (list_ascii_of_string (Text.join "+" (repr <$> cs))) = true.
Proof.
  induction cs as [|c cs IH]; [done|].
  destruct cs as [|c' cs]; [apply repr_no_space|].
  rewrite fmap_cons, fmap_cons, join_cons, <- fmap_cons.
  rewrite !no_space_app, repr_no_space, IH. done.
Qed.

Lemma join_plus_not_empty c cs tail :
  String.append (Text.join "+" (repr <$> c :: cs)) tail ≠ EmptyString.
Proof.
  destruct cs as [|c' cs].
  - simpl. destruct c as [r s|]; [destruct r, s|]; done.
  - rewrite fmap_cons, fmap_cons, join_cons.
    destruct c as [r s|]; [destruct r, s|]; done.
Qed.
End base_text.

(** [parse_single_card] reads back what [__repr__] prints, and it accepts
    exactly the spellings of a card up to case and surrounding white
    space: a token parses to [c] if and only if, stripped and in upper
    case, it is [repr(c)].  No two cards print alike. *)
Theorem parse_single_card_reads_repr (tok : string) (c : Base.Card) :
  Text.is_ascii tok = true →
  Base.parse_single_card (Base.repr c) = inr c
  ∧ (Base.parse_single_card tok = inr c
     ↔ Text.upper (Text.strip tok) = Base.repr c)
  ∧ (∀ c', Base.repr c = Base.repr c' → c = c').
Proof.
  intros _. split_and!.
  - apply parse_repr.
  - split; [apply parse_single_card_inv|].
    intros H. unfold Base.parse_single_card. rewrite H.
    pose proof (parse_repr c) as Hc. unfold Base.parse_single_card in Hc.
    by rewrite upper_strip_repr in Hc.
  - intros c' H. pose proof (parse_repr c) as Hc. rewrite H, parse_repr in Hc.
    congruence.
Qed.

(** The Ten of spades, typed in lower case between blanks. *)
Lemma parse_single_card_reads_repr_witness :
  Base.parse_single_card " 10s " = inr (Base.Normal TEN SPADES).
Proof.
  apply (parse_single_card_reads_repr " 10s " (Base.Normal TEN SPADES) eq_refl).
  reflexivity.
Defined.

(** [parse_cards_arg] reads a list of cards printed with commas as that
    list, without the pair flag, and two or more cards printed with plus
    signs as that list with the pair flag.  The flag comes from the plus
    sign alone: one card followed by a plus sign is read as that card with
    the pair flag set. *)
Theorem parse_cards_arg_reads_plays (cs : list Base.Card) :
  Base.parse_cards_arg (Text.join ", " (Base.repr <$> cs)) = inr (cs, false)
  ∧ (2 ≤ length cs →
     Base.parse_cards_arg (Text.join "+" (Base.repr <$> cs)) = inr (cs, true))
  ∧ (1 ≤ length cs →
     Base.parse_cards_arg (String.append (Text.join "+" (Base.repr <$> cs)) "+")
     = inr (cs, true)).
Proof.
  split_and!.
  - unfold Base.parse_cards_arg.
    pose proof (pieces_comma_join EmptyString cs (or_introl eq_refl)) as Hp.
    change (String.append "" ?s) with s in Hp. rewrite Hp.
    apply (parse_parts_repr cs [] false).
  - intros Hlen. destruct cs as [|c [|c' cs]]; [simpl in Hlen; lia..|].
    unfold Base.parse_cards_arg.
    set (whole := Text.join "+" (Base.repr <$> c :: c' :: cs)).
    assert (Text.pieces "," whole = [whole]) as ->.
    { unfold Text.pieces. rewrite split_on_none by apply join_plus_no_comma.
      simpl. rewrite no_space_strip by apply join_plus_no_space.
      rewrite bool_decide_false; [done|].
      pose proof (join_plus_not_empty c (c' :: cs) EmptyString) as H.
      intros E. apply H. subst whole. rewrite E. done. }
    cbn [Base.parse_parts].
    assert (Text.contains "+" whole = true) as ->.
    { subst whole. rewrite fmap_cons, fmap_cons, join_cons.
      rewrite contains_app. apply orb_true_iff. right. reflexivity. }
    pose proof (pieces_plus_join (c :: c' :: cs) EmptyString (or_introl eq_refl)) as Hp.
    rewrite append_nil_r in Hp. fold whole in Hp.
    rewrite Hp, parse_each_repr. done.
  - intros Hlen. destruct cs as [|c cs]; [simpl in Hlen; lia|].
    unfold Base.parse_cards_arg.
    set (whole := String.append (Text.join "+" (Base.repr <$> c :: cs)) "+").
    assert (Text.pieces "," whole = [whole]) as ->.
    { unfold Text.pieces. rewrite split_on_none.
      2:{ subst whole. by rewrite contains_app, join_plus_no_comma. }
      simpl. rewrite no_space_strip.
      2:{ subst whole. by rewrite no_space_app, join_plus_no_space. }
      rewrite bool_decide_false; [done|]. apply join_plus_not_empty. }
    cbn [Base.parse_parts].
    assert (Text.contains "+" whole = true) as ->.
    { subst whole. rewrite contains_app. apply orb_true_iff. by right. }
    subst whole.
    rewrite (pieces_plus_join (c :: cs) "+"%string (or_intror eq_refl)).
    by rewrite parse_each_repr.
Qed.

(** *** The base game: the board *)

Section base_board.
Import Base.

Lemma trail_length top behind shown row :
  length (trail top behind shown row) = length row.
Proof.
  revert shown row. induction behind as [|c behind IH]; intros shown row; [done|].
  simpl. repeat case_match; rewrite ?IH, ?length_insert; done.
Qed.

Lemma write_cells_length i cells row :
  length (write_cells i cells row) = length row.
Proof.
  revert i row. induction cells as [|x cells IH]; intros i row; [done|].
  simpl. by rewrite IH, length_insert.
Qed.

Lemma view_line_length pile : length (view_line_for_board pile) = 13.
Proof.
  unfold view_line_for_board. destruct (reverse pile); [done|].
  by rewrite trail_length, length_insert.
Qed.

Lemma row_hand_length g v o : length (row_hand g v o) = 13.
Proof.
  unfold row_hand. rewrite !length_insert.
  case_decide; by rewrite write_cells_length.
Qed.

Lemma row_face_length g v o t : length (row_face g v o t) = 13.
Proof.
  unfold row_face.
  assert (∀ (X : Type) (f : list string → X → list string) l row,
            (∀ r x, length (f r x) = length r) →
            length (foldl f row l) = length row) as Hfold.
  { intros X f l. induction l as [|x l IH]; intros row Hf; [done|].
    simpl. by rewrite IH, Hf. }
  repeat case_match; rewrite length_insert;
    (rewrite Hfold; [|intros r [j pos]; case_match; by rewrite ?length_insert]);
    (rewrite Hfold; [done|intros r x; case_match; by rewrite ?length_insert]).
Qed.

Lemma hidden_cells (h h' : list Card) :
  length h' = length h →
  (λ _ : Card, "X"%string) <$> take 11 h' = (λ _ : Card, "X"%string) <$> take 11 h.
Proof.
  revert h'. generalize 11. intros n. revert n.
  induction h as [|c h IH]; intros n h' Hl.
  - destruct h'; [done|discriminate].
  - destruct h' as [|c' h']; [discriminate|].
    destruct n; [done|]. simpl. f_equal. apply IH. by injection Hl.
Qed.

Lemma row_hand_hides v g g' o :
  same_shown_to v g g' → row_hand g' v o = row_hand g v o.
Proof.
  intros (_ & _ & _ & Hh & _ & Hlen & Hall).
  destruct (Hall o) as (_ & _ & _ & Hpp).
  unfold row_hand. rewrite Hpp. do 2 f_equal.
  destruct (decide (o = v)) as [->|Hne].
  - by rewrite Hh.
  - f_equal. apply hidden_cells.
    assert (o = other v) as -> by (by destruct o, v). done.
Qed.

Lemma row_face_hides v g g' o t :
  same_shown_to v g g' → row_face g' v o t = row_face g v o t.
Proof.
  intros (_ & Hfb & Hsr & _ & Hk & _ & Hall).
  destruct (Hall o) as (Hfu & Hst & Hfd & _).
  unfold row_face, status_token_text. rewrite Hfb, Hsr, Hst, Hfu, Hfd.
  assert (∀ idx, face_down_cell (player g' o) idx (bool_decide (v = o))
                 = face_down_cell (player g o) idx (bool_decide (v = o))) as Hcell.
  { intros idx. unfold face_down_cell. case_bool_decide as Hv.
    - subst o. by rewrite Hk.
    - rewrite andb_false_r. by repeat case_match. }
  assert (foldl (λ row idx,
                   if idx <? length (face_down (player g o))
                   then <[idx := face_down_cell (player g' o) idx (bool_decide (v = o))]> row
                   else row) blank_row (seq 0 3)
          = foldl (λ row idx,
                     if idx <? length (face_down (player g o))
                     then <[idx := face_down_cell (player g o) idx (bool_decide (v = o))]> row
                     else row) blank_row (seq 0 3)) as ->.
  { simpl. by rewrite !Hcell. }
  done.
Qed.
End base_board.

(** The board is always 9 rows of 13 cells, whatever the hands, the pile
    and the viewer. *)
Theorem board_is_nine_by_thirteen (g : Base.GameState) (viewer : Seat) :
  length (Base.board_rows_for_viewer g viewer) = 9
  ∧ Forall (λ row, length row = 13) (Base.board_rows_for_viewer g viewer).
Proof.
  split; [done|]. unfold Base.board_rows_for_viewer.
  repeat (apply Forall_cons; split;
          [first [apply row_hand_length | apply row_face_length
                 | apply view_line_length | reflexivity]|]).
  constructor.
Qed.

(** The board a viewer is shown does not depend on the cards the viewer
    may not see: of the other player's hand it shows the size only, of
    both personal piles their sizes, and of the face-down cards their
    number and the viewer's own known middle card. *)
Theorem board_hides_unseen_cards (viewer : Seat) (g g' : Base.GameState) :
  Base.same_shown_to viewer g g' →
  Base.board_rows_for_viewer g' viewer = Base.board_rows_for_viewer g viewer
  ∧ Base.render_for g' viewer = Base.render_for g viewer.
Proof.
  intros H.
  assert (Base.board_rows_for_viewer g' viewer = Base.board_rows_for_viewer g viewer)
    as Hrows.
  { unfold Base.board_rows_for_viewer.
    rewrite !(row_hand_hides viewer g g') by done.
    rewrite !(row_face_hides viewer g g') by done.
    destruct H as (-> & _). done. }
  split; [done|]. unfold Base.render_for. by rewrite Hrows.
Qed.

(** Seen from A, the sample game looks the same when B holds another hand
    of one card, another personal pile of no card. *)
Lemma board_hides_unseen_cards_witness :
  Base.board_rows_for_viewer
    (Base.mkGame
       (Examples.base_player_a,
        Base.mkPlayer "B" [Base.Normal TWO HEARTS] [] [] None [] false)
       P0 [Base.Normal FIVE SPADES] true (Some FIVE) false None) P0
  = Base.board_rows_for_viewer Examples.base_game P0.
Proof.
  apply (board_hides_unseen_cards P0 Examples.base_game).
  unfold Base.same_shown_to. split_and!; try reflexivity.
  intros s. destruct s; split_and!; reflexivity.
Defined.

(** *** The base game: who holds the status token *)

Section base_holder.
Import Base.

Lemma same_holders_refl g : same_holders g g.
Proof. by split_and!. Qed.

Lemma same_holders_trans g1 g2 g3 :
  same_holders g1 g2 → same_holders g2 g3 → same_holders g1 g3.
Proof. intros (A1 & A2 & A3) (B1 & B2 & B3). split_and!; congruence. Qed.

Lemma same_holders_one g g' : same_holders g g' → one_holder g → one_holder g'.
Proof.
  intros (H1 & H2 & H3). unfold one_holder. by rewrite H1, H2, H3.
Qed.

Lemma set_player_same_holders g s p :
  has_status p = has_status (player g s) → same_holders g (set_player g s p).
Proof. intros H. destruct s; split_and!; simpl; done. Qed.

Lemma remove_from_zones_status p c :
  has_status (snd (remove_from_zones p c)) = has_status p.
Proof. unfold remove_from_zones. by repeat case_match. Qed.

Lemma remove_played_status p raw :
  has_status (snd (remove_played p raw)) = has_status p.
Proof.
  revert p. induction raw as [|rc raw IH]; intros p; [done|].
  simpl. pose proof (remove_from_zones_status p rc) as H1.
  destruct (remove_from_zones p rc) as [ok p1]. simpl in H1.
  specialize (IH p1). destruct (remove_played p1 raw) as [played p2].
  simpl in *. congruence.
Qed.

Lemma replenish_status p : has_status (replenish p) = has_status p.
Proof. unfold replenish. by destruct (replenish_loop _ _ _). Qed.

Lemma transfer_one_holder g a d :
  one_holder g → one_holder (transfer_status_due_to_means g a d).
Proof.
  unfold one_holder, transfer_status_due_to_means.
  destruct g as [[p q] c pile ma ml fb sr]. simpl.
  destruct a, d; simpl; destruct (has_status p) eqn:Hp, (has_status q) eqn:Hq, fb;
    simpl; rewrite ?Hp, ?Hq; simpl; intuition congruence.
Qed.

Lemma set_status_one_holder g s r :
  one_holder g → one_holder (set_status_on_first_burn g s r).
Proof.
  unfold one_holder, set_status_on_first_burn.
  destruct g as [[p q] c pile ma ml fb sr]. simpl.
  destruct fb; simpl; [done|]. intros [Hp Hq]. destruct s; simpl; by rewrite ?Hp, ?Hq.
Qed.

Lemma burn_once_one_holder g s r : one_holder g → one_holder (burn_once g s r).
Proof.
  intros H. unfold burn_once.
  eapply same_holders_one; [|by apply (set_status_one_holder g s r)].
  by split_and!.
Qed.

Lemma burn_times_one_holder n r s acc :
  one_holder (snd acc) → one_holder (snd (burn_times n r s acc)).
Proof.
  revert acc. induction n as [|n IH]; intros acc H; [done|].
  simpl. apply IH. simpl. by apply burn_once_one_holder.
Qed.

Lemma resolve_burns_one_holder g s msgs :
  one_holder g → one_holder (snd (resolve_burns_if_any g s msgs)).
Proof.
  unfold resolve_burns_if_any. generalize (detect_burns (common_pile g)).
  intros l. change g with (snd (msgs, g)) at 1. generalize (msgs, g).
  induction l as [|[r n] l IH]; intros acc H; [done|].
  simpl. apply IH. by apply burn_times_one_holder.
Qed.

Lemma force_pickup_same_holders g d msgs :
  same_holders g (snd (force_pickup g d msgs)).
Proof.
  unfold force_pickup. destruct (common_pile g); [by split_and!|].
  destruct d; by split_and!.
Qed.

Lemma joker_offense_same_holders g s opp choice msgs :
  same_holders g (snd (joker_offense g s opp choice msgs)).
Proof.
  unfold joker_offense.
  repeat case_match; simpl;
    first [ apply force_pickup_same_holders
          | by apply set_player_same_holders
          | apply same_holders_refl ].
Qed.

Lemma play_offense_same_holders g s opp played choice msgs :
  same_holders g (snd (play_offense g s opp played choice msgs)).
Proof.
  unfold play_offense. destruct (last played) as [[|]|];
    try apply same_holders_refl.
  apply joker_offense_same_holders.
Qed.

Lemma play_means_one_holder g s opp played vp msgs :
  one_holder g → one_holder (snd (play_means g s opp played vp msgs)).
Proof.
  intros H. unfold play_means. destruct (_ || _); simpl; [|done].
  eapply same_holders_one; [|by apply (transfer_one_holder g s opp)].
  by split_and!.
Qed.

Lemma play_one_holder g s cards vp choice :
  one_holder g → one_holder (snd (play g s cards vp choice)).
Proof.
  intros H. unfold play. destruct (play_validate g s cards vp); [done|].
  rewrite play_apply_state. cbn zeta.
  eapply same_holders_one; [apply play_offense_same_holders|].
  apply resolve_burns_one_holder, play_means_one_holder.
  eapply same_holders_one; [|exact H].
  eapply same_holders_trans; [apply (set_player_same_holders g s)|].
  - apply remove_played_status.
  - by split_and!.
Qed.

Lemma pickup_same_holders g : same_holders g (snd (pickup g)).
Proof.
  unfold pickup. destruct (common_pile g); [by split_and!|].
  simpl. unfold current. by destruct (current_idx g); split_and!.
Qed.

Lemma step_one_holder g g' : step g g' → one_holder g → one_holder g'.
Proof.
  destruct 1; intros Hg.
  - by apply play_one_holder.
  - eapply same_holders_one; [apply pickup_same_holders|done].
  - eapply same_holders_one; [|done].
    apply set_player_same_holders, replenish_status.
  - exact Hg.
  - by apply set_status_one_holder.
  - by apply transfer_one_holder.
  - eapply same_holders_one; [apply force_pickup_same_holders|done].
  - eapply same_holders_one; [|done]. by apply set_player_same_holders.
  - exact Hg.
Qed.
End base_holder.

(** In every state that a base game reaches from a new game of two
    players without the token, nobody holds the status token before the
    first burn, and exactly one of the two players holds it from the first
    burn on: burns after the first and the transfer on a means card never
    leave it with both players or with none. *)
Theorem status_has_one_holder (ps : Base.Player * Base.Player) (g : Base.GameState) :
  Base.has_status (fst ps) = false →
  Base.has_status (snd ps) = false →
  rtc Base.step (Base.new_game ps) g →
  if Base.first_burn g
  then Base.has_status (Base.player g P0) = negb (Base.has_status (Base.player g P1))
  else Base.has_status (Base.player g P0) = false
       ∧ Base.has_status (Base.player g P1) = false.
Proof.
  intros H0 H1 Hsteps. change (Base.one_holder g).
  assert (Base.one_holder (Base.new_game ps)) as Hnew.
  { unfold Base.one_holder. simpl. by split. }
  revert Hnew Hsteps. generalize (Base.new_game ps). intros g0 Hg0 Hsteps.
  induction Hsteps as [g|g1 g2 g3 Hstep _ IH]; [done|].
  apply IH. by eapply step_one_holder.
Qed.

(** One turn of the sample games is two steps of the game. *)
Lemma base_turn_steps g cards : rtc Base.step g (Examples.base_turn g cards).
Proof.
  unfold Examples.base_turn.
  eapply rtc_l; [apply (Base.step_play g (Base.current_idx g) cards false "")|].
  apply rtc_once, Base.step_advance.
Qed.

(** The sample game of the Eights after its four plays: the burn has
    happened and B alone holds the token. *)
Lemma status_has_one_holder_witness :
  let g1 := Examples.base_turn Examples.base_game_eights [Base.Normal EIGHT SPADES] in
  let g2 := Examples.base_turn g1 [Base.Normal EIGHT HEARTS] in
  let g3 := Examples.base_turn g2 [Base.Normal NINE CLUBS] in
  let g4 := Examples.base_turn g3 [Base.Normal NINE DIAMONDS] in
  Base.first_burn g4 = true
  ∧ Base.has_status (Base.player g4 P0) = negb (Base.has_status (Base.player g4 P1)).
Proof.
  intros g1 g2 g3 g4. split; [vm_compute; reflexivity|].
  assert (Hsteps : rtc Base.step (Base.new_game (Base.players Examples.base_game_eights)) g4).
  { change (rtc Base.step Examples.base_game_eights g4).
    apply (rtc_trans _ g1); [apply base_turn_steps|].
    apply (rtc_trans _ g2); [apply base_turn_steps|].
    apply (rtc_trans _ g3); [apply base_turn_steps|].
    apply base_turn_steps. }
  exact (status_has_one_holder (Base.players Examples.base_game_eights) g4
           eq_refl eq_refl Hsteps).
Defined.

(** *** The base game: no card is created *)

Section base_cards.
Import Base.

Lemma same_for_removal_eq c card : same_for_removal c card = true → c = card.
Proof.
  destruct c as [r s|], card as [r' s'|]; simpl; try done.
  intros [H1 H2]%andb_true_iff.
  apply bool_decide_eq_true in H1, H2. by subst.
Qed.

Lemma pop_first_perm test zone z :
  pop_first test zone = Some z → ∃ c, test c = true ∧ zone ≡ₚ c :: z.
Proof.
  revert z. induction zone as [|x zone IH]; intros z; [done|].
  simpl. destruct (test x) eqn:Hx.
  - intros [= <-]. by exists x.
  - destruct (pop_first test zone) as [z'|]; [|done].
    intros [= <-]. destruct (IH z' eq_refl) as (c & Hc & Hp).
    exists c. split; [done|]. rewrite Hp. apply Permutation_swap.
Qed.

Lemma remove_from_zones_perm p rc :
  (if fst (remove_from_zones p rc) then [rc] else [])
  ++ cards_of (snd (remove_from_zones p rc)) ≡ₚ cards_of p.
Proof.
  unfold remove_from_zones, cards_of.
  destruct (pop_first _ (hand p)) as [h|] eqn:Hh.
  - apply pop_first_perm in Hh as (c & Hc%same_for_removal_eq & Hp). subst c.
    simpl. by rewrite Hp.
  - destruct (pop_first _ (face_up p)) as [fu|] eqn:Hf; [|done].
    apply pop_first_perm in Hf as (c & Hc%same_for_removal_eq & Hp). subst c.
    simpl. rewrite Hp. by rewrite Permutation_middle.
Qed.

Lemma remove_played_perm p raw :
  fst (remove_played p raw) ++ cards_of (snd (remove_played p raw)) ≡ₚ cards_of p.
Proof.
  revert p. induction raw as [|rc raw IH]; intros p; [done|].
  simpl. pose proof (remove_from_zones_perm p rc) as H1.
  destruct (remove_from_zones p rc) as [ok p1]. simpl in H1.
  specialize (IH p1). destruct (remove_played p1 raw) as [played p2].
  simpl in *. rewrite <- H1, <- IH. destruct ok; simpl; [done|done].
Qed.

Lemma all_cards_seat g s :
  all_cards g
  ≡ₚ cards_of (player g s) ++ cards_of (player g (other s)) ++ common_pile g.
Proof.
  unfold all_cards. destruct s; simpl; [done|].
  rewrite !app_assoc. f_equiv. apply Permutation_app_comm.
Qed.

Lemma all_cards_set_player g s p :
  all_cards (set_player g s p)
  ≡ₚ cards_of p ++ cards_of (player g (other s)) ++ common_pile g.
Proof.
  rewrite (all_cards_seat _ s). by destruct s.
Qed.

Lemma all_cards_same g g' :
  (∀ s, cards_of (player g' s) = cards_of (player g s)) →
  common_pile g' = common_pile g → all_cards g' = all_cards g.
Proof.
  intros Hp Hc. unfold all_cards. rewrite Hc.
  pose proof (Hp P0) as H0. pose proof (Hp P1) as H1. simpl in H0, H1.
  by rewrite H0, H1.
Qed.

Lemma transfer_all_cards g a d :
  all_cards (transfer_status_due_to_means g a d) = all_cards g.
Proof.
  unfold transfer_status_due_to_means. destruct (has_status _); [|done].
  by destruct a, d.
Qed.

Lemma play_means_all_cards g s opp played vp msgs :
  all_cards (snd (play_means g s opp played vp msgs)) = all_cards g.
Proof.
  unfold play_means. destruct (_ || _); simpl; [|done].
  apply (transfer_all_cards g s opp).
Qed.

Lemma set_status_all_cards g s r :
  all_cards (set_status_on_first_burn g s r) = all_cards g.
Proof.
  unfold set_status_on_first_burn. destruct (negb _); [|done]. by destruct s.
Qed.

Lemma all_cards_clear_pile g :
  all_cards (with_means (with_pile g []) false None) ⊆+ all_cards g.
Proof.
  unfold all_cards. simpl. rewrite !app_nil_r.
  rewrite (app_assoc _ _ (common_pile g)). apply submseteq_inserts_r. done.
Qed.

Lemma burn_once_all_cards g s r : all_cards (burn_once g s r) ⊆+ all_cards g.
Proof.
  unfold burn_once. simpl.
  etrans; [apply all_cards_clear_pile|]. by rewrite set_status_all_cards.
Qed.

Lemma burn_times_all_cards n r s acc :
  all_cards (snd (burn_times n r s acc)) ⊆+ all_cards (snd acc).
Proof.
  revert acc. induction n as [|n IH]; intros acc; [done|].
  simpl. etrans; [apply IH|]. apply burn_once_all_cards.
Qed.

Lemma resolve_burns_all_cards g s msgs :
  all_cards (snd (resolve_burns_if_any g s msgs)) ⊆+ all_cards g.
Proof.
  unfold resolve_burns_if_any. generalize (detect_burns (common_pile g)).
  intros l. change (all_cards g) with (all_cards (snd (msgs, g))).
  generalize (msgs, g). induction l as [|[r n] l IH]; intros acc; [done|].
  simpl. etrans; [apply IH|]. apply burn_times_all_cards.
Qed.

Lemma take_pile_cards_of p cs :
  cards_of (take_pile_into_hand p cs) ≡ₚ cs ++ cards_of p.
Proof.
  unfold cards_of, take_pile_into_hand. simpl.
  rewrite <- !app_assoc. rewrite (app_assoc (hand p) cs).
  rewrite (Permutation_app_comm (hand p) cs). by rewrite <- !app_assoc.
Qed.

Lemma force_pickup_all_cards g d msgs :
  all_cards (snd (force_pickup g d msgs)) ≡ₚ all_cards g.
Proof.
  unfold force_pickup. destruct (common_pile g) as [|c pile] eqn:Hp; [done|].
  simpl.
  change (all_cards (with_means ?x false None)) with (all_cards x).
  rewrite all_cards_set_player, (all_cards_seat g d), Hp.
  rewrite take_pile_cards_of.
  assert (player (with_pile g []) (other d) = player g (other d)) as ->
    by (by destruct d).
  simpl. rewrite app_nil_r.
  apply (Permutation_trans
           (l' := (c :: pile) ++ cards_of (player g d) ++ cards_of (player g (other d)))).
  - simpl. by rewrite <- app_assoc.
  - rewrite (Permutation_app_comm (c :: pile)). by rewrite <- app_assoc.
Qed.

Lemma set_hand_all_cards g s h c :
  hand (player g s) ≡ₚ c :: h →
  all_cards (set_player g s (with_hand (player g s) h)) ⊆+ all_cards g.
Proof.
  intros Hp. rewrite all_cards_set_player, (all_cards_seat g s).
  unfold cards_of at 1 3. simpl. rewrite Hp. simpl. by apply submseteq_cons.
Qed.

Lemma joker_offense_all_cards g s opp choice msgs :
  all_cards (snd (joker_offense g s opp choice msgs)) ⊆+ all_cards g.
Proof.
  unfold joker_offense.
  destruct (has_block_piece _); [|by rewrite force_pickup_all_cards].
  destruct (decide _).
  - destruct (pop_first _ _) as [h|] eqn:Hh; [|done].
    apply pop_first_perm in Hh as (c & _ & Hp). simpl.
    by eapply set_hand_all_cards.
  - destruct (four_choice choice); [|by rewrite force_pickup_all_cards].
    destruct (pop_first _ _) as [h|] eqn:Hh; [|by rewrite force_pickup_all_cards].
    apply pop_first_perm in Hh as (c & _ & Hp). simpl.
    by eapply set_hand_all_cards.
Qed.

Lemma play_offense_all_cards g s opp played choice msgs :
  all_cards (snd (play_offense g s opp played choice msgs)) ⊆+ all_cards g.
Proof.
  unfold play_offense. destruct (last played) as [[|]|]; try done.
  apply joker_offense_all_cards.
Qed.

Lemma replenish_cards_of p : cards_of (replenish p) ≡ₚ cards_of p.
Proof.
  unfold replenish, cards_of.
  assert (∀ limit pp h,
            fst (replenish_loop limit h pp) ++ snd (replenish_loop limit h pp)
            = h ++ pp) as Hloop.
  { intros limit pp. induction pp as [|c pp IH]; intros h; [done|].
    simpl. destruct (length h <? limit); [|done].
    rewrite IH. by rewrite <- app_assoc. }
  specialize (Hloop (max_hand p) (personal_pile p) (hand p)).
  destruct (replenish_loop _ _ _) as [h pp]. simpl in *.
  apply (Permutation_trans (l' := (h ++ pp) ++ face_up p ++ face_down p)).
  - rewrite <- app_assoc. apply Permutation_app_head.
    rewrite (app_assoc (face_up p)). apply Permutation_app_comm.
  - rewrite Hloop, <- app_assoc. apply Permutation_app_head.
    rewrite (app_assoc (face_up p)). apply Permutation_app_comm.
Qed.
End base_cards.

(** [play] of the base game creates no card: the cards in the players'
    zones and on the pile after a play are, with their multiplicities,
    among those that were there before (a burn and a block discard
    cards).  The [pickup] command, a forced pickup and [replenish] keep
    every card. *)
Theorem base_play_creates_no_card :
  (∀ g s cards via_pair choice,
     Base.all_cards (snd (Base.play g s cards via_pair choice)) ⊆+ Base.all_cards g)
  ∧ (∀ g, Base.all_cards (snd (Base.pickup g)) ≡ₚ Base.all_cards g)
  ∧ (∀ g d msgs, Base.all_cards (snd (Base.force_pickup g d msgs)) ≡ₚ Base.all_cards g)
  ∧ (∀ g s, Base.all_cards (Base.set_player g s (Base.replenish (Base.player g s)))
            ≡ₚ Base.all_cards g).
Proof.
  split_and!.
  - intros g s cards vp choice. unfold Base.play.
    destruct (Base.play_validate g s cards vp); [done|].
    rewrite play_apply_state. cbn zeta.
    etrans; [apply play_offense_all_cards|].
    etrans; [apply resolve_burns_all_cards|].
    rewrite play_means_all_cards.
    pose proof (remove_played_perm (Base.player g s) cards) as Hp.
    destruct (Base.remove_played (Base.player g s) cards) as [played p1].
    simpl in *. rewrite (all_cards_seat g s), <- Hp.
    rewrite (all_cards_seat _ s).
    assert (Base.player (Base.with_pile (Base.set_player g s p1)
                           (Base.add (Base.common_pile g) played)) s = p1) as ->
      by (by destruct s).
    assert (Base.player (Base.with_pile (Base.set_player g s p1)
                           (Base.add (Base.common_pile g) played)) (other s)
            = Base.player g (other s)) as -> by (by destruct s).
    simpl. unfold Base.add.
    apply Permutation_submseteq.
    rewrite <- (app_assoc played). rewrite (Permutation_app_comm played).
    by rewrite <- !app_assoc.
  - intros g. unfold Base.pickup.
    destruct (Base.common_pile g) as [|c pile] eqn:Hp; [done|].
    pose proof (force_pickup_all_cards g (Base.current_idx g) []) as H.
    unfold Base.force_pickup in H. rewrite Hp in H. simpl in *.
    exact H.
  - apply force_pickup_all_cards.
  - intros g s. rewrite all_cards_set_player, (all_cards_seat g s).
    by rewrite replenish_cards_of.
Qed.

(** *** The base game: the deal and the Joker offense *)

Section base_deal.
Import Base.

Lemma deal_split_spec deck extra_first pile1 pile2 :
  deal_split deck extra_first = (pile1, pile2) →
  pile1 ++ pile2 = deck
  ∧ length pile1
    = (length deck / 2 + (if extra_first then 1 else 0)) `min` length deck.
Proof.
  unfold deal_split. destruct extra_first; intros [= <- <-].
  - split; [apply take_drop|]. by rewrite length_take.
  - split; [apply take_drop|]. rewrite length_take. by rewrite Nat.add_0_r.
Qed.

Lemma deal_face_down_new nm pile :
  3 ≤ length pile →
  deal_face_down (with_personal_pile (new_player nm) pile)
  = Some (mkPlayer nm [] [] (take 3 pile) (take 3 pile !! 1) (drop 3 pile) false).
Proof.
  intros H. unfold deal_face_down, pop_left.
  change (personal_pile (with_personal_pile (new_player nm) pile)) with pile.
  destruct (Nat.leb_spec 3 (length pile)); [done|lia].
Qed.

Lemma deal_hand_dealt nm fd km pile :
  8 ≤ length pile →
  deal_hand (mkPlayer nm [] [] fd km pile false)
  = Some (mkPlayer nm (take 8 pile) [] fd km (drop 8 pile) false).
Proof.
  intros H. unfold deal_hand, pop_left.
  change (personal_pile (mkPlayer nm [] [] fd km pile false)) with pile.
  destruct (Nat.leb_spec 8 (length pile)); [done|lia].
Qed.

(** A deal from two piles of at least eleven cards each. *)
Lemma deal_cards_spec deck extra_first pile1 pile2 n1 n2 :
  deal_split deck extra_first = (pile1, pile2) →
  11 ≤ length pile1 → 11 ≤ length pile2 →
  deal_cards deck extra_first (new_player n1) (new_player n2)
  = Some (mkPlayer n1 (take 8 (drop 3 pile1)) [] (take 3 pile1) (take 3 pile1 !! 1)
            (drop 8 (drop 3 pile1)) false,
          mkPlayer n2 (take 8 (drop 3 pile2)) [] (take 3 pile2) (take 3 pile2 !! 1)
            (drop 8 (drop 3 pile2)) false).
Proof.
  intros Hs H1 H2. unfold deal_cards. rewrite Hs.
  rewrite !deal_face_down_new by lia.
  rewrite !deal_hand_dealt by (rewrite length_drop; lia).
  done.
Qed.

Lemma pop_first_is_Some test zone c :
  c ∈ zone → test c = true → is_Some (pop_first test zone).
Proof.
  induction zone as [|x zone IH]; intros Hin Hc; [by apply elem_of_nil in Hin|].
  simpl. destruct (test x) eqn:Hx; [done|].
  apply elem_of_cons in Hin as [->|Hin]; [congruence|].
  destruct (IH Hin Hc) as [z ->]. done.
Qed.

Lemma take_all_perm cs tmp h : take_all cs tmp = Some h → tmp ≡ₚ cs ++ h.
Proof.
  revert tmp. induction cs as [|c cs IH]; intros tmp; simpl.
  - by intros [= ->].
  - destruct (pop_first _ tmp) as [tmp'|] eqn:Hp; [|done].
    intros Ht. apply pop_first_perm in Hp as (c' & Hc & Hp).
    apply bool_decide_eq_true in Hc. subst c'.
    rewrite Hp. constructor. by apply IH.
Qed.

Lemma take_all_is_Some cs tmp : cs ⊆+ tmp → is_Some (take_all cs tmp).
Proof.
  revert tmp. induction cs as [|c cs IH]; intros tmp Hsub; simpl; [done|].
  assert (c ∈ tmp) as Hin.
  { eapply elem_of_submseteq; [|done]. by left. }
  destruct (pop_first_is_Some (λ x, bool_decide (x = c)) tmp c Hin) as [tmp' Hp].
  { by apply bool_decide_eq_true. }
  rewrite Hp. apply IH.
  apply pop_first_perm in Hp as (c' & Hc & Hp').
  apply bool_decide_eq_true in Hc. subst c'.
  rewrite Hp' in Hsub. by apply (submseteq_app_inv_l _ _ [c]).
Qed.
Lemma pop_first_None test zone c :
  pop_first test zone = None → c ∈ zone → test c = false.
Proof.
  intros Hn Hin. destruct (test c) eqn:Hc; [|done].
  destruct (pop_first_is_Some test zone c Hin Hc) as [z Hz]. congruence.
Qed.

(** White space at the ends of a printed list of cards: there is none. *)
Lemma lstrip_repr_app c rest :
  Text.lstrip (String.append (repr c) rest) = String.append (repr c) rest.
Proof. destruct c as [r s|]; [destruct r, s|]; reflexivity. Qed.

Lemma rstrip_app s1 s2 :
  Text.rstrip s2 ≠ EmptyString →
  Text.rstrip (String.append s1 s2) = String.append s1 (Text.rstrip s2).
Proof.
  intros H2. induction s1 as [|a s1 IH]; [done|].
  rewrite !append_cons. cbn [Text.rstrip]. rewrite IH.
  destruct (String.append s1 (Text.rstrip s2)) as [|b r] eqn:E; [|done].
  destruct s1; [|done]. simpl in E. done.
Qed.

Lemma rstrip_repr c : Text.rstrip (repr c) = repr c.
Proof. destruct c as [r s|]; [destruct r, s|]; reflexivity. Qed.

Lemma join_comma_not_empty c cs :
  Text.join ", " (repr <$> c :: cs) ≠ EmptyString.
Proof.
  destruct cs as [|c' cs].
  - apply repr_not_empty.
  - rewrite fmap_cons, fmap_cons, join_cons.
    destruct c as [r s|]; [destruct r, s|]; done.
Qed.

Lemma rstrip_join_comma c cs :
  Text.rstrip (Text.join ", " (repr <$> c :: cs)) = Text.join ", " (repr <$> c :: cs).
Proof.
  revert c. induction cs as [|c' cs IH]; intros c; [apply rstrip_repr|].
  rewrite fmap_cons, fmap_cons, join_cons, <- fmap_cons.
  pose proof (join_comma_not_empty c' cs) as Hne.
  assert (Text.rstrip (String.append ", " (Text.join ", " (repr <$> c' :: cs)))
          = String.append ", " (Text.join ", " (repr <$> c' :: cs))) as Hr.
  { rewrite rstrip_app by (by rewrite IH). by rewrite IH. }
  rewrite rstrip_app; rewrite Hr; [done|].
  done.
Qed.

Lemma strip_join_comma c cs :
  Text.strip (Text.join ", " (repr <$> c :: cs)) = Text.join ", " (repr <$> c :: cs).
Proof.
  unfold Text.strip.
  assert (Text.lstrip (Text.join ", " (repr <$> c :: cs))
          = Text.join ", " (repr <$> c :: cs)) as ->.
  { destruct cs as [|c' cs].
    - pose proof (lstrip_repr_app c EmptyString) as H.
      by rewrite append_nil_r in H.
    - rewrite fmap_cons, fmap_cons, join_cons. apply lstrip_repr_app. }
  apply rstrip_join_comma.
Qed.
End base_deal.

(** [deal_base_game] deals every card of the common deck exactly once:
    whatever the shuffle and the coin, each of two new players ends with
    three cards face down, the middle one known, eight in the hand and the
    rest as personal pile, and the zones in order make up the deck.  The
    deck has 106 cards, an even number, so the player given "the extra"
    card starts with a personal pile of 43 against 41. *)
Theorem deal_base_game_deals_every_card (deck : list Base.Card) (extra_first : bool)
    (n1 n2 : string) :
  deck ≡ₚ Base.common_deck_cards →
  length deck = 106
  ∧ (∀ r s, count_occ Base.Card_eq_dec deck (Base.Normal r s) = 2)
  ∧ count_occ Base.Card_eq_dec deck Base.Joker = 2
  ∧ ∃ a b,
      Base.deal_cards deck extra_first (Base.new_player n1) (Base.new_player n2)
      = Some (a, b)
      ∧ (Base.face_down a ++ Base.hand a ++ Base.personal_pile a)
        ++ (Base.face_down b ++ Base.hand b ++ Base.personal_pile b) = deck
      ∧ length (Base.face_down a) = 3 ∧ length (Base.face_down b) = 3
      ∧ length (Base.hand a) = 8 ∧ length (Base.hand b) = 8
      ∧ Base.face_up a = [] ∧ Base.face_up b = []
      ∧ Base.known_middle_fd a = Base.face_down a !! 1
      ∧ Base.known_middle_fd b = Base.face_down b !! 1
      ∧ is_Some (Base.known_middle_fd a) ∧ is_Some (Base.known_middle_fd b)
      ∧ length (Base.personal_pile a) = (if extra_first then 43 else 42)
      ∧ length (Base.personal_pile b) = (if extra_first then 41 else 42).
Proof.
  intros Hp.
  assert (Hlen : length deck = 106) by (by rewrite Hp).
  assert (Hcount : ∀ c, count_occ Base.Card_eq_dec deck c
                        = count_occ Base.Card_eq_dec Base.common_deck_cards c).
  { intros c. by apply (Permutation_count_occ Base.Card_eq_dec). }
  split; [done|].
  split; [intros r s; rewrite Hcount; by destruct r, s; vm_compute|].
  split; [rewrite Hcount; by vm_compute|].
  destruct (Base.deal_split deck extra_first) as [pile1 pile2] eqn:Hs.
  destruct (deal_split_spec _ _ _ _ Hs) as [Happ Hl1].
  rewrite Hlen in Hl1. change (106 / 2) with 53 in Hl1.
  assert (Hl2 : length pile1 + length pile2 = 106)
    by (by rewrite <- length_app, Happ).
  assert (Hl1' : length pile1 = if extra_first then 54 else 53)
    by (destruct extra_first; simpl in Hl1; lia).
  clear Hl1.
  eexists _, _. split.
  { apply (deal_cards_spec _ _ _ _ _ _ Hs); destruct extra_first; lia. }
  cbn [Base.face_down Base.hand Base.personal_pile Base.face_up Base.known_middle_fd].
  rewrite !length_take, !length_drop.
  split_and!; try done; try (destruct extra_first; lia).
  - rewrite !take_drop. done.
  - apply lookup_lt_is_Some. rewrite length_take. destruct extra_first; lia.
  - apply lookup_lt_is_Some. rewrite length_take. destruct extra_first; lia.
Qed.

(** The deck as built, before the shuffle, with the extra card to the
    first player. *)
Lemma deal_base_game_deals_every_card_witness :
  length Base.common_deck_cards = 106
  ∧ ∃ a b,
      Base.deal_cards Base.common_deck_cards true (Base.new_player "A")
        (Base.new_player "B") = Some (a, b)
      ∧ length (Base.personal_pile a) = 43
      ∧ length (Base.personal_pile b) = 41.
Proof.
  destruct (deal_base_game_deals_every_card Base.common_deck_cards true "A" "B"
              (reflexivity _))
    as (Hlen & _ & _ & a & b & Hd & _ & _ & _ & _ & _ & _ & _ & _ & _ & _ & _ & Ha & Hb).
  split; [exact Hlen|]. exists a, b. split_and!; assumption.
Defined.

(** An accepted choice of face-up cards moves exactly three cards from the
    hand to the face-up row, which it replaces, and touches nothing else.
    A line that lists three cards the player holds, each as often as it is
    listed, is accepted. *)
Theorem choose_face_up_moves_three (p : Base.Player) (line : string) :
  (∀ p', Base.choose_face_up p line = Some p' →
     length (Base.face_up p') = 3
     ∧ Base.hand p ≡ₚ Base.face_up p' ++ Base.hand p'
     ∧ length (Base.hand p') + 3 = length (Base.hand p)
     ∧ Base.face_down p' = Base.face_down p
     ∧ Base.known_middle_fd p' = Base.known_middle_fd p
     ∧ Base.personal_pile p' = Base.personal_pile p
     ∧ Base.has_status p' = Base.has_status p)
  ∧ (∀ cs, length cs = 3 → cs ⊆+ Base.hand p →
       line = Text.join ", " (Base.repr <$> cs) →
       ∃ p', Base.choose_face_up p line = Some p' ∧ Base.face_up p' = cs).
Proof.
  split.
  - intros p'. unfold Base.choose_face_up.
    destruct (if decide (Text.strip line = EmptyString) then _ else _)
      as [e|[up_cards vp]]; [done|].
    destruct (length up_cards =? 3) eqn:Hlen; [|done].
    apply Nat.eqb_eq in Hlen. simpl.
    destruct (Base.take_all up_cards (Base.hand p)) as [h|] eqn:Ht; [|done].
    intros [= <-]. simpl. apply take_all_perm in Ht.
    split_and!; try done.
    apply Permutation_length in Ht. rewrite length_app in Ht. lia.
  - intros cs Hlen Hsub ->. destruct cs as [|c cs]; [done|].
    unfold Base.choose_face_up. rewrite strip_join_comma.
    rewrite decide_False by apply join_comma_not_empty.
    assert (Base.parse_cards_arg (Text.join ", " (Base.repr <$> c :: cs))
            = inr (c :: cs, false)) as ->.
    { unfold Base.parse_cards_arg.
      pose proof (pieces_comma_join EmptyString (c :: cs) (or_introl eq_refl)) as Hp.
      change (String.append "" ?s) with s in Hp. rewrite Hp.
      apply (parse_parts_repr (c :: cs) [] false). }
    rewrite Hlen. simpl.
    destruct (take_all_is_Some (c :: cs) (Base.hand p) Hsub) as [h Hh].
    simpl in Hh. rewrite Hh. by eexists.
Qed.

(** From the hand of the sample player, the three cards as typed. *)
Lemma choose_face_up_moves_three_witness :
  ∃ p', Base.choose_face_up Examples.base_player_a "7C, 4H, JK" = Some p'
        ∧ Base.face_up p'
          = [Base.Normal SEVEN CLUBS; Base.Normal FOUR HEARTS; Base.Joker].
Proof.
  apply (proj2 (choose_face_up_moves_three Examples.base_player_a "7C, 4H, JK")
           [Base.Normal SEVEN CLUBS; Base.Normal FOUR HEARTS; Base.Joker]).
  - reflexivity.
  - reflexivity.
  - reflexivity.
Defined.

(** The Joker offense at the end of [play] has three outcomes.  The
    defender blocks and loses one Joker or Four from the hand, the pile
    staying where it is; or the defender takes the whole pile into the
    hand and means is switched off; or nothing happens at all.  The last
    is what a defender gets who holds a Four but no Joker and answers
    [JK]: no card is given up and no pile is picked up.  A defender with
    neither a Four nor a Joker picks up the pile whatever the answer. *)
Theorem base_joker_offense_outcomes (g : Base.GameState) (s opp : Seat)
    (choice : string) (msgs : list Base.Msg) :
  let df := Base.player g opp in
  let g' := snd (Base.joker_offense g s opp choice msgs) in
  let picked_up :=
    Base.common_pile g' = []
    ∧ Base.hand (Base.player g' opp) = Base.hand df ++ Base.common_pile g
    ∧ Base.means_active g' = false ∧ Base.means_limit g' = None in
  ((∃ c, (c = Base.Joker ∨ ∃ su, c = Base.Normal FOUR su)
         ∧ Base.hand df ≡ₚ c :: Base.hand (Base.player g' opp)
         ∧ g' = Base.set_player g opp
                  (Base.with_hand df (Base.hand (Base.player g' opp))))
   ∨ picked_up
   ∨ (g' = g ∧ choice = "JK"%string ∧ Base.Joker ∉ Base.hand df))
  ∧ (Base.has_block_piece df = true → choice = "JK"%string →
     Base.Joker ∉ Base.hand df → g' = g)
  ∧ (Base.has_block_piece df = false → picked_up).
Proof.
  intros df g' picked_up.
  assert (Hforce : ∀ m, snd (Base.joker_offense g s opp choice msgs)
                        = snd (Base.force_pickup g opp m) → picked_up).
  { intros m Hm. unfold picked_up, g'. rewrite Hm. unfold Base.force_pickup.
    destruct (Base.common_pile g) as [|x pile] eqn:Hpile; simpl.
    - rewrite Hpile. rewrite app_nil_r. done.
    - split_and!; try done. by destruct opp. }
  split_and!.
  - unfold Base.joker_offense in *. fold df in Hforce |- *. subst g'.
    unfold Base.joker_offense. fold df.
    destruct (Base.has_block_piece df); [|right; left; by eapply Hforce].
    destruct (decide (choice = "JK"%string)) as [->|Hjk].
    + destruct (Base.pop_first Base.is_joker (Base.hand df)) as [h|] eqn:Hh.
      * left. apply pop_first_perm in Hh as (c & Hc & Hp).
        exists c. split; [left; by destruct c|].
        simpl. assert (Base.hand (Base.player (Base.set_player g opp (Base.with_hand df h)) opp) = h)
          as -> by (by destruct opp).
        done.
      * right; right. split_and!; try done.
        intros Hin. by pose proof (pop_first_None _ _ _ Hh Hin).
    + destruct (Base.four_choice choice) as [su|]; [|right; left; by eapply Hforce].
      destruct (Base.pop_first _ (Base.hand df)) as [h|] eqn:Hh;
        [|right; left; by eapply Hforce].
      left. apply pop_first_perm in Hh as (c & Hc & Hp).
      apply bool_decide_eq_true in Hc. subst c.
      exists (Base.Normal FOUR su). split; [right; by exists su|].
      simpl. assert (Base.hand (Base.player (Base.set_player g opp (Base.with_hand df h)) opp) = h)
        as -> by (by destruct opp).
      done.
  - intros Hb -> Hno. subst g'. unfold Base.joker_offense. fold df. rewrite Hb.
    rewrite decide_True by done.
    destruct (Base.pop_first Base.is_joker (Base.hand df)) as [h|] eqn:Hh; [|done].
    apply pop_first_perm in Hh as (c & Hc & Hp). destruct c; [done|].
    exfalso. apply Hno. rewrite Hp. by left.
  - intros Hb. eapply Hforce. unfold Base.joker_offense. fold df. rewrite Hb. done.
Qed.

(** The sample player A holds a Four and a Joker; without the Joker, A
    answers [JK] to an offense and nothing happens. *)
Lemma base_joker_offense_outcomes_witness :
  let g := Base.set_player Examples.base_game P0
             (Base.with_hand Examples.base_player_a
                [Base.Normal SEVEN CLUBS; Base.Normal FOUR HEARTS]) in
  snd (Base.joker_offense g P1 P0 "JK" []) = g.
Proof.
  intros g.
  apply (proj1 (proj2 (base_joker_offense_outcomes g P1 P0 "JK" []))).
  - reflexivity.
  - reflexivity.
  - intros H. apply elem_of_cons in H as [H|H]; [done|].
    apply elem_of_cons in H as [H|H]; [done|]. by apply elem_of_nil in H.
Defined.

(** *** The full variant: blocking an offense *)

Section full_offense.
Import Full.

Lemma gather_spec req h used :
  gather req h used
  = if req <=? length used then used
    else used ++ take (req - length used) (List.filter blocks h).
Proof.
  revert used. induction h as [|c h IH]; intros used.
  - simpl. destruct (req <=? length used); [done|].
    rewrite take_nil. by rewrite app_nil_r.
  - cbn [gather List.filter].
    destruct (Nat.leb_spec req (length used)) as [Hle|Hlt]; [done|].
    rewrite IH. destruct (blocks c).
    + rewrite length_app. cbn [length].
      destruct (Nat.leb_spec req (length used + 1)) as [Hle'|Hlt'].
      * replace (req - length used) with 1 by lia. done.
      * replace (req - length used) with (S (req - (length used + 1))) by lia.
        cbn [take]. by rewrite <- app_assoc.
    + destruct (Nat.leb_spec req (length used)); [lia|done].
Qed.

Lemma gather_take req h : gather req h [] = take req (List.filter blocks h).
Proof.
  rewrite gather_spec. simpl. destruct req; [by rewrite take_0|].
  simpl. done.
Qed.

Lemma holds_cid c h : holds h c = true ↔ cid c ∈ cid <$> h.
Proof.
  unfold holds. induction h as [|x h IH]; simpl.
  - split; [done|]. intros H. by apply elem_of_nil in H.
  - rewrite orb_true_iff, IH, elem_of_cons. unfold same_object.
    by rewrite bool_decide_eq_true.
Qed.

Lemma remove_object_cids c h :
  holds h c = true → cid <$> h ≡ₚ cid c :: (cid <$> remove_object c h).
Proof.
  unfold holds. induction h as [|x h IH]; [done|].
  simpl. destruct (same_object c x) eqn:Hx.
  - intros _. apply bool_decide_eq_true in Hx. by rewrite Hx.
  - simpl. intros Hh. rewrite (IH Hh). apply Permutation_swap.
Qed.

Lemma remove_object_sublist c h : remove_object c h `sublist_of` h.
Proof.
  induction h as [|x h IH]; [done|]. simpl.
  destruct (same_object c x); [by apply sublist_cons|by apply sublist_skip].
Qed.

(** With one object per identity, the card removed is the card itself. *)
Lemma remove_object_perm c h :
  c ∈ h → NoDup (cid <$> h) → h ≡ₚ c :: remove_object c h.
Proof.
  induction h as [|x h IH]; intros Hin Hnd; [by apply elem_of_nil in Hin|].
  rewrite fmap_cons in Hnd. apply NoDup_cons in Hnd as [Hx Hnd].
  simpl. destruct (same_object c x) eqn:Hcx.
  - apply bool_decide_eq_true in Hcx.
    apply elem_of_cons in Hin as [->|Hin]; [done|].
    exfalso. apply Hx. rewrite <- Hcx. by apply list_elem_of_fmap_2.
  - apply elem_of_cons in Hin as [->|Hin].
    + unfold same_object in Hcx. by rewrite bool_decide_true in Hcx.
    + rewrite (IH Hin Hnd) at 1. apply Permutation_swap.
Qed.

(** The second loop eats every gathered card when each of them is in the
    hand and no more are gathered than needed. *)
Lemma consume_spec used need h eaten :
  cid <$> used ⊆+ cid <$> h → length used ≤ need →
  ∃ h', consume need used h eaten = (h', eaten ++ used)
        ∧ h' `sublist_of` h
        ∧ length h' + length used = length h.
Proof.
  revert need h eaten. induction used as [|c used IH]; intros need h eaten Hsub Hlen.
  - exists h. simpl. rewrite app_nil_r. split_and!; [done|done|lia].
  - destruct need as [|need]; [simpl in Hlen; lia|].
    assert (Hh : holds h c = true).
    { apply holds_cid. eapply elem_of_submseteq; [|exact Hsub].
      rewrite fmap_cons. by left. }
    cbn [consume]. rewrite Hh.
    pose proof (remove_object_cids c h Hh) as Hp.
    destruct (IH need (remove_object c h) (eaten ++ [c])) as (h' & E & Hs & Hl).
    + rewrite fmap_cons, Hp in Hsub. by apply (submseteq_app_inv_l _ _ [cid c]).
    + simpl in Hlen. lia.
    + exists h'. rewrite E, <- app_assoc. split_and!; [done| |].
      * etrans; [exact Hs|apply remove_object_sublist].
      * apply Permutation_length in Hp. cbn [length] in Hp, Hl |- *.
        rewrite !length_fmap in Hp. lia.
Qed.

Lemma consume_perm used need h eaten :
  used ⊆+ h → NoDup (cid <$> h) → length used ≤ need →
  h ≡ₚ used ++ fst (consume need used h eaten).
Proof.
  revert need h eaten. induction used as [|c used IH]; intros need h eaten Hsub Hnd Hlen.
  - done.
  - destruct need as [|need]; [simpl in Hlen; lia|].
    assert (Hin : c ∈ h) by (eapply elem_of_submseteq; [|exact Hsub]; by left).
    assert (Hh : holds h c = true).
    { apply holds_cid. by apply list_elem_of_fmap_2. }
    cbn [consume]. rewrite Hh.
    pose proof (remove_object_perm c h Hin Hnd) as Hp.
    rewrite Hp at 1. simpl. constructor. apply IH.
    + rewrite Hp in Hsub. by apply (submseteq_app_inv_l _ _ [c]).
    + eapply sublist_NoDup; [exact Hnd|].
      apply fmap_sublist, remove_object_sublist.
    + simpl in Hlen. lia.
Qed.

Lemma list_filter_sublist {A} (f : A → bool) l : List.filter f l `sublist_of` l.
Proof.
  induction l as [|x l IH]; [done|]. simpl.
  destruct (f x); [by apply sublist_skip|by apply sublist_cons].
Qed.

Lemma filter_resolved l :
  List.filter (λ a, negb (res a)) ((λ a, mkOffense (att a) (str a) true) <$> l) = [].
Proof. induction l as [|a l IH]; [done|]. by rewrite fmap_cons. Qed.

(** One offense leaves the attacker's side and the game's records alone. *)
Lemma resolve_one_attacker a msgs g :
  let g' := snd (resolve_one a (msgs, g)) in
  player g' (current_idx g) = player g (current_idx g)
  ∧ current_idx g' = current_idx g
  ∧ first_burn g' = first_burn g ∧ status_rank g' = status_rank g
  ∧ interactive g' = interactive g.
Proof.
  intros g'. subst g'. unfold resolve_one.
  destruct (res a); [done|].
  destruct (str a <=? length _).
  - destruct (consume _ _ _ _) as [h eaten]. cbn [snd].
    rewrite player_set_player_ne by (by destruct (current_idx g)).
    by rewrite current_idx_set_player.
  - cbn [clear snd].
    rewrite player_set_player_ne by (by destruct (current_idx g)).
    by rewrite current_idx_set_player.
Qed.

Lemma resolve_fold_attacker l acc :
  let g' := snd (foldl (λ acc a, resolve_one a acc) acc l) in
  player g' (current_idx (snd acc)) = player (snd acc) (current_idx (snd acc))
  ∧ current_idx g' = current_idx (snd acc)
  ∧ first_burn g' = first_burn (snd acc) ∧ status_rank g' = status_rank (snd acc)
  ∧ interactive g' = interactive (snd acc).
Proof.
  revert acc. induction l as [|a l IH]; intros acc; [done|].
  cbn [foldl]. destruct acc as [msgs g]. cbn [snd].
  destruct (resolve_one_attacker a msgs g) as (H1 & H2 & H3 & H4 & H5).
  specialize (IH (resolve_one a (msgs, g))). cbn zeta in IH.
  rewrite H2 in IH. destruct IH as (I1 & I2 & I3 & I4 & I5).
  split_and!; congruence.
Qed.

Lemma resolve_fold_resolved l acc :
  Forall (λ a, res a = true) l → foldl (λ acc a, resolve_one a acc) acc l = acc.
Proof.
  revert acc. induction l as [|a l IH]; intros acc Hl; [done|].
  apply Forall_cons in Hl as [Ha Hl]. cbn [foldl].
  rewrite IH by done. unfold resolve_one. destruct acc. by rewrite Ha.
Qed.
End full_offense.

(** No offense survives [resolve_offenses]: the queue is empty afterwards,
    whatever it held.  The turn, the status record and the player to move
    (the attacker) are left as they were; and when every queued offense
    was already resolved, nothing but the queue changes. *)
Theorem full_resolve_offenses_drains (g : Full.GameState) :
  let r := Full.resolve_offenses g in
  Full.offenses (snd r) = []
  ∧ Full.current_idx (snd r) = Full.current_idx g
  ∧ Full.player (snd r) (Full.current_idx g) = Full.player g (Full.current_idx g)
  ∧ Full.first_burn (snd r) = Full.first_burn g
  ∧ Full.status_rank (snd r) = Full.status_rank g
  ∧ (Forall (λ a, Full.res a = true) (Full.offenses g) →
     r = ([], Full.with_offenses g [])).
Proof.
  intros r. subst r. unfold Full.resolve_offenses.
  pose proof (resolve_fold_attacker (Full.offenses g) ([], g)) as H.
  cbn zeta in H. cbn [snd] in H.
  destruct (foldl _ ([], g) (Full.offenses g)) as [msgs g1] eqn:Hf.
  cbn [snd fst] in *. rewrite filter_resolved.
  destruct H as (H1 & H2 & H3 & H4 & H5).
  split_and!; try done.
  intros Hall. rewrite resolve_fold_resolved in Hf by done.
  by injection Hf as <- <-.
Qed.

(** A pending Joker offense of strength [n] against a hand with at least
    [n] block cards (Jokers, Fours, PFJ) is blocked: the defender, who is
    the opponent of the player to move, loses exactly [n] cards from the
    hand, the message names the first [n] block cards of the hand, and
    the pile and the defender's personal pile stay.  When every card of
    the hand is an object of its own, the cards lost are those named. *)
Theorem full_block_eats_first_blockers (g : Full.GameState) (a : Full.Offense) :
  Full.offenses g = [a] →
  Full.res a = false →
  Full.str a
  ≤ length (List.filter Full.blocks
              (Full.hand (Full.player g (other (Full.current_idx g))))) →
  let d := other (Full.current_idx g) in
  let eaten := take (Full.str a) (List.filter Full.blocks (Full.hand (Full.player g d))) in
  let r := Full.resolve_offenses g in
  fst r = [Full.MsgBlocked eaten]
  ∧ Full.offenses (snd r) = []
  ∧ Full.hand (Full.player (snd r) d) `sublist_of` Full.hand (Full.player g d)
  ∧ length (Full.hand (Full.player (snd r) d)) + Full.str a
    = length (Full.hand (Full.player g d))
  ∧ Full.common_pile (snd r) = Full.common_pile g
  ∧ Full.personal_pile (Full.player (snd r) d) = Full.personal_pile (Full.player g d)
  ∧ (NoDup (Full.cid <$> Full.hand (Full.player g d)) →
     Full.hand (Full.player g d) ≡ₚ eaten ++ Full.hand (Full.player (snd r) d)).
Proof.
  intros Hq Hres Hlen d eaten r. subst r.
  unfold Full.resolve_offenses. rewrite Hq. cbn [foldl].
  unfold Full.resolve_one. rewrite Hres. fold d.
  rewrite gather_take. fold eaten.
  assert (Hel : length eaten = Full.str a).
  { unfold eaten. rewrite length_take. fold d in Hlen. lia. }
  rewrite Hel, Nat.leb_refl.
  assert (Hsub : eaten `sublist_of` Full.hand (Full.player g d)).
  { unfold eaten. etrans; [apply sublist_take|]. apply list_filter_sublist. }
  destruct (consume_spec eaten (Full.str a) (Full.hand (Full.player g d)) [])
    as (h' & E & Hs & Hl).
  { apply sublist_submseteq. by apply fmap_sublist. }
  { lia. }
  pose proof (consume_perm eaten (Full.str a) (Full.hand (Full.player g d)) []) as Hperm.
  rewrite E in Hperm |- *. cbn [fst snd] in *.
  rewrite filter_resolved.
  assert (Full.player
            (Full.with_offenses
               (Full.set_player g d (Full.with_hand (Full.player g d) h')) []) d
          = Full.with_hand (Full.player g d) h') as -> by (by destruct d).
  split_and!; try done.
  - cbn [Full.hand Full.with_hand]. lia.
  - intros Hnd. cbn [Full.hand Full.with_hand].
    apply Hperm; [by apply sublist_submseteq|done|lia].
Qed.

(** With B to move, B's Joker offense on A is blocked by A's first block
    card, the Joker [jk1]; A keeps the second Joker and the Four. *)
Lemma full_block_eats_first_blockers_witness :
  let g := Full.with_offenses (Full.with_current Examples.full_game P1)
             [Full.mkOffense P1 1 false] in
  fst (Full.resolve_offenses g) = [Full.MsgBlocked [Examples.jk1]]
  ∧ Full.offenses (snd (Full.resolve_offenses g)) = [].
Proof.
  intros g.
  destruct (full_block_eats_first_blockers g (Full.mkOffense P1 1 false))
    as (H1 & H2 & _).
  - reflexivity.
  - reflexivity.
  - vm_compute. lia.
  - split; [exact H1|exact H2].
Defined.

(** *** The full variant: the emergency prompt *)

Section full_gating.
Import Full.

Lemma gated_after_refl g : gated_after g g.
Proof. by intros H. Qed.

Lemma gated_after_trans g1 g2 g3 :
  gated_after g1 g2 → gated_after g2 g3 → gated_after g1 g3.
Proof. unfold gated_after. auto. Qed.

(** A passage that leaves both players' emergency cards as they are. *)
Lemma same_emergency_gated g g' :
  (∀ s, emergency_red (player g' s) = emergency_red (player g s)
        ∧ emergency_blue (player g' s) = emergency_blue (player g s)) →
  gated_after g g'.
Proof.
  intros H [H0 H1]. unfold all_gated, gated in *.
  destruct (H P0) as [E1 E2], (H P1) as [E3 E4]. cbn [player] in *.
  by rewrite E1, E2, E3, E4.
Qed.

Lemma set_player_gated g s p :
  (gated (player g s) → gated p) → gated_after g (set_player g s p).
Proof. intros Hp [H0 H1]. destruct s; split; simpl; auto. Qed.

Lemma modify_player_gated s f :
  (∀ p, gated p → gated (f p)) → keeps gated_after (modify_player s f).
Proof. intros Hf w. apply set_player_gated, Hf. Qed.

Lemma set_status_gated g s r : gated_after g (set_status g s r).
Proof.
  unfold set_status. destruct (negb (first_burn g)); [|apply gated_after_refl].
  apply same_emergency_gated. intros s'. by destruct s, s'.
Qed.

Lemma transfer_status_gated g a d : gated_after g (transfer_status g a d).
Proof.
  unfold transfer_status. destruct (has_status_ability _); [|apply gated_after_refl].
  apply same_emergency_gated. intros s'. by destruct a, d, s'.
Qed.

Lemma replace_object_gated c new l :
  just_acquired new = true →
  Forall (λ c, just_acquired c = true) l →
  Forall (λ c, just_acquired c = true) (replace_object c new l).
Proof.
  intros Hn. induction 1 as [|x l Hx Hl IH]; [constructor|].
  simpl. case_bool_decide; by constructor.
Qed.

Local Ltac gated_modify :=
  first [ apply set_status_gated
        | apply transfer_status_gated
        | apply same_emergency_gated; intros []; by split
        | apply set_player_gated; by intros ? ].

Local Ltac gated_player :=
  intros p Hp; unfold gated in *; try case_match; simpl;
  first [ exact Hp
        | apply Forall_app in Hp as [Hr Hb]; apply Forall_app; split;
          first [ done
                | apply Forall_app; split; [done|by repeat constructor]
                | by apply replace_object_gated ] ].

(** One step through a computation, chosen by its head. *)
Local Ltac gated_step known :=
  lazymatch goal with
  | |- keeps _ (ret _) => apply (keeps_ret gated_after gated_after_refl)
  | |- keeps _ get => apply (keeps_get gated_after gated_after_refl)
  | |- keeps _ input => apply (keeps_input gated_after gated_after_refl)
  | |- keeps _ new_id => apply (keeps_new_id gated_after gated_after_refl)
  | |- keeps _ (modify_player _ _) =>
      apply modify_player_gated; gated_player
  | |- keeps _ (modify _) => apply keeps_modify; intros; gated_modify
  | |- keeps _ (bind _ _) =>
      apply (keeps_bind gated_after gated_after_trans); [|intros]
  | |- keeps _ (for_each _ _ _) =>
      apply (keeps_for_each gated_after gated_after_refl gated_after_trans);
      intros
  | |- keeps _ (match _ with _ => _ end) => case_match
  | |- keeps _ (let _ := _ in _) => cbv zeta
  | |- keeps _ _ => known
  end.

Lemma grant_emergency_gated s col : keeps gated_after (grant_emergency s col).
Proof. unfold grant_emergency. repeat gated_step fail. Qed.

Lemma prompt_card_gated s cc msgs : keeps gated_after (prompt_card s cc msgs).
Proof. unfold prompt_card. destruct cc as [col c]. repeat gated_step fail. Qed.

Lemma emergency_prompt_gated s msgs : keeps gated_after (emergency_prompt s msgs).
Proof. unfold emergency_prompt. repeat gated_step ltac:(apply prompt_card_gated). Qed.

Lemma burn_once_gated s r i msgs : keeps gated_after (burn_once s r i msgs).
Proof.
  unfold burn_once.
  repeat gated_step
    ltac:(first [apply grant_emergency_gated | apply emergency_prompt_gated]).
Qed.

Lemma resolve_burns_gated s msgs : keeps gated_after (resolve_burns s msgs).
Proof. unfold resolve_burns. repeat gated_step ltac:(apply burn_once_gated). Qed.

Lemma play_gated s cs pair : keeps gated_after (play s cs pair).
Proof.
  unfold play.
  repeat gated_step
    ltac:(first [apply grant_emergency_gated | apply resolve_burns_gated]).
Qed.

Lemma resolve_one_gated a acc : gated_after (snd acc) (snd (resolve_one a acc)).
Proof.
  unfold resolve_one. destruct acc as [msgs g].
  destruct (res a); [apply gated_after_refl|].
  destruct (str a <=? length _).
  - destruct (consume _ _ _ _) as [h eaten]. cbn [snd].
    apply set_player_gated. by intros ?.
  - cbn [clear snd]. eapply gated_after_trans.
    + apply (same_emergency_gated g (with_pile g [])). by intros [].
    + apply set_player_gated. by intros ?.
Qed.

Lemma resolve_offenses_gated g : gated_after g (snd (resolve_offenses g)).
Proof.
  unfold resolve_offenses.
  assert (Hfold : ∀ l acc, gated_after (snd acc)
                             (snd (foldl (λ acc a, resolve_one a acc) acc l))).
  { induction l as [|a l IH]; intros acc; [apply gated_after_refl|].
    cbn [foldl]. eapply gated_after_trans; [apply resolve_one_gated|apply IH]. }
  specialize (Hfold (offenses g) ([], g)).
  destruct (foldl _ _ _) as [msgs g1]. cbn [snd] in *.
  eapply gated_after_trans; [exact Hfold|].
  apply same_emergency_gated. by intros [].
Qed.

Lemma run_offenses_gated : keeps gated_after (run resolve_offenses).
Proof.
  apply (keeps_run gated_after). intros g. apply resolve_offenses_gated.
Qed.

Lemma command_play_gated cs pair : keeps gated_after (command_play cs pair).
Proof.
  unfold command_play.
  repeat gated_step
    ltac:(first [apply play_gated | apply run_offenses_gated]).
Qed.

Lemma command_burn_gated r suits : keeps gated_after (command_burn r suits).
Proof.
  unfold command_burn.
  repeat gated_step
    ltac:(first [apply play_gated | apply run_offenses_gated]).
Qed.

Lemma command_pickup_gated g : gated_after g (snd (command_pickup g)).
Proof.
  unfold command_pickup. destruct (common_pile g); [apply gated_after_refl|].
  cbn [clear snd]. eapply gated_after_trans.
  + apply (same_emergency_gated g (with_pile g [])). by intros [].
  + apply set_player_gated. unfold current. by intros ?.
Qed.

(** The prompt passes over every flagged card. *)
Lemma prompt_flagged s snapshot msgs w :
  Forall (λ cc : Color * ECard, just_acquired cc.2 = true) snapshot →
  for_each snapshot (prompt_card s) msgs w = (msgs, w).
Proof.
  induction 1 as [|[col c] l Hc Hl IH]; [done|].
  cbn [for_each]. unfold bind at 1. unfold prompt_card at 1.
  simpl in Hc. rewrite Hc. exact IH.
Qed.
End full_gating.

(** In the full variant every emergency card is created with
    [just_acquired] set and nothing ever clears the flag: a new game has
    no emergency card, and [play], the commands, [resolve_burns] and
    [resolve_offenses] keep every emergency card flagged.  So
    [emergency_prompt] passes over every card: it asks nothing, reads no
    line and changes nothing, also in an interactive game. *)
Theorem full_emergency_prompt_never_asks (w : Full.World) :
  Full.all_gated (Full.game w) →
  (∀ s msgs, Full.emergency_prompt s msgs w = (msgs, w))
  ∧ (∀ s cs pair, Full.all_gated (Full.game (snd (Full.play s cs pair w))))
  ∧ (∀ s msgs, Full.all_gated (Full.game (snd (Full.resolve_burns s msgs w))))
  ∧ (∀ cs pair, Full.all_gated (Full.game (snd (Full.command_play cs pair w))))
  ∧ (∀ r suits, Full.all_gated (Full.game (snd (Full.command_burn r suits w))))
  ∧ Full.all_gated (snd (Full.resolve_offenses (Full.game w)))
  ∧ Full.all_gated (snd (Full.command_pickup (Full.game w)))
  ∧ (∀ n1 n2 inter,
       Full.all_gated (Full.new_game (Full.new_player n1, Full.new_player n2) inter)).
Proof.
  intros Hg. split_and!.
  - intros s msgs. unfold Full.emergency_prompt, Full.bind, Full.get.
    apply prompt_flagged. destruct Hg as [H0 H1].
    assert (Hs : Full.gated (Full.player (Full.game w) s)) by (by destruct s).
    unfold Full.gated in Hs. apply Forall_app in Hs as [Hr Hb].
    apply Forall_app. split; by apply Forall_fmap.
  - intros s cs pair. by apply play_gated.
  - intros s msgs. by apply resolve_burns_gated.
  - intros cs pair. by apply command_play_gated.
  - intros r suits. by apply command_burn_gated.
  - by apply resolve_offenses_gated.
  - by apply command_pickup_gated.
  - intros n1 n2 inter. split; constructor.
Qed.

(** An interactive game in which A holds a red emergency card with both
    actions allowed in the ledger, and a console that answers [y] to
    everything: the prompt still asks nothing. *)
Lemma full_emergency_prompt_never_asks_witness :
  let a := Full.with_actions (Full.with_red Examples.full_player_a [Full.mkECard 7 true])
             {[7 := Full.mkActions true true]} in
  let w := Full.mkWorld
             (Full.mkGame [] (a, Examples.full_player_b) P0 false None [] true)
             10 (λ _, Full.mkReply [] true) 0 in
  Full.emergency_prompt P0 [] w = ([], w).
Proof.
  intros a w.
  assert (Hg : Full.all_gated (Full.game w)).
  { split; [repeat constructor|constructor]. }
  exact (proj1 (full_emergency_prompt_never_asks w Hg) P0 []).
Defined.

(** *** The full variant: the Ten and the PFJ *)

Section full_ten.
Import Full.

Lemma resolve_burns_none s msgs w :
  detect_burns (common_pile (game w)) = [] → resolve_burns s msgs w = (msgs, w).
Proof. intros H. unfold resolve_burns, bind, get. by rewrite H. Qed.
End full_ten.

(** A Ten played alone wipes the pile: after [play] of one normal Ten the
    common pile is empty, whatever it held, and nothing else happens: no
    burn, no status, no offense, no new card object, no line read, and
    the other player is left alone.  Two Tens played together wipe
    nothing: they lie on the pile. *)
Theorem full_lone_ten_wipes_pile (w : Full.World) (s : Seat) (c : Full.Card)
    (su : Suit) (pair : bool) :
  Full.face c = Full.Normal TEN su →
  let w' := snd (Full.play s [c] pair w) in
  Full.common_pile (Full.game w') = []
  ∧ Full.hand (Full.player (Full.game w') s)
    = Full.remove_played (Full.hand (Full.player (Full.game w) s)) [c]
  ∧ (∀ s', s' ≠ s → Full.player (Full.game w') s' = Full.player (Full.game w) s')
  ∧ Full.offenses (Full.game w') = Full.offenses (Full.game w)
  ∧ Full.first_burn (Full.game w') = Full.first_burn (Full.game w)
  ∧ Full.fresh w' = Full.fresh w
  ∧ Full.cursor w' = Full.cursor w
  ∧ (∀ c' su', Full.face c' = Full.Normal TEN su' →
       Full.detect_burns (Full.common_pile (Full.game w) ++ [c; c']) = [] →
       Full.common_pile (Full.game (snd (Full.play s [c; c'] pair w)))
       = Full.common_pile (Full.game w) ++ [c; c']).
Proof.
  intros Hf w'. subst w'.
  assert (Hm : Full.is_means_card c = false) by (unfold Full.is_means_card; by rewrite Hf).
  assert (Hj : Full.is_joker c = false) by (unfold Full.is_joker; by rewrite Hf).
  set (p1 := Full.with_hand (Full.player (Full.game w) s)
               (Full.remove_played (Full.hand (Full.player (Full.game w) s)) [c])).
  assert (Hplay : snd (Full.play s [c] pair w)
                  = Full.mkWorld
                      (Full.with_pile
                         (Full.set_player (Full.game w) s
                            (if pair then Full.with_can_replenish_full p1 false else p1))
                         [])
                      (Full.fresh w) (Full.stdin w) (Full.cursor w)).
  { subst p1.
    unfold Full.play, Full.bind, Full.get, Full.modify_player, Full.modify, Full.ret.
    cbn [Full.for_each Full.bind Full.ret]. rewrite Hf.
    simpl. rewrite Hm, Hj. simpl.
    destruct pair; simpl; repeat case_match; simpl; by destruct s. }
  rewrite Hplay. cbn [Full.game Full.fresh Full.cursor].
  split_and!; try done.
  - by destruct s, pair.
  - intros s' Hs. by destruct s, s'.
  - intros c' su' Hf' Hnb.
    assert (Hm' : Full.is_means_card c' = false)
      by (unfold Full.is_means_card; by rewrite Hf').
    assert (Hj' : Full.is_joker c' = false) by (unfold Full.is_joker; by rewrite Hf').
    unfold Full.play, Full.bind, Full.get, Full.modify_player, Full.modify, Full.ret.
    cbn [Full.for_each Full.bind Full.ret]. rewrite Hf, Hf'.
    simpl. rewrite Hm, Hj, Hm', Hj'. simpl.
    destruct pair; simpl;
      rewrite resolve_burns_none
        by (simpl; unfold Full.add; by destruct s);
      simpl; repeat case_match; by destruct s.
Qed.

(** A's Ten of spades, played alone on a pile of one Joker. *)
Lemma full_lone_ten_wipes_pile_witness :
  Full.common_pile
    (Full.game
       (snd (Full.play P0 [Full.mkCard 7 (Full.Normal TEN SPADES)] false
               (Full.mkWorld Examples.full_game_offense 10
                  (λ _, Full.mkReply [] false) 0))))
  = [].
Proof.
  apply (full_lone_ten_wipes_pile
           (Full.mkWorld Examples.full_game_offense 10 (λ _, Full.mkReply [] false) 0)
           P0 (Full.mkCard 7 (Full.Normal TEN SPADES)) SPADES false eq_refl).
Defined.

(** A PFJ played by the player to move, on a pile that holds no burn,
    takes the opponent's whole personal pile: it is appended to the
    player's own and the opponent's is left empty.  The opponent's hand
    stays, and the PFJ lies on the pile. *)
Theorem full_pfj_steals_personal_pile (w : Full.World) (c : Full.Card) (pair : bool) :
  Full.face c = Full.PFJ →
  Full.detect_burns (Full.common_pile (Full.game w)) = [] →
  let s := Full.current_idx (Full.game w) in
  let w' := snd (Full.play s [c] pair w) in
  Full.personal_pile (Full.player (Full.game w') s)
  = Full.personal_pile (Full.player (Full.game w) s)
    ++ Full.personal_pile (Full.player (Full.game w) (other s))
  ∧ Full.personal_pile (Full.player (Full.game w') (other s)) = []
  ∧ Full.hand (Full.player (Full.game w') (other s))
    = Full.hand (Full.player (Full.game w) (other s))
  ∧ Full.common_pile (Full.game w') = Full.common_pile (Full.game w) ++ [c]
  ∧ Full.offenses (Full.game w') = Full.offenses (Full.game w).
Proof.
  intros Hf Hnb s w'. subst w'.
  assert (Hm : Full.is_means_card c = false) by (unfold Full.is_means_card; by rewrite Hf).
  assert (Hj : Full.is_joker c = false) by (unfold Full.is_joker; by rewrite Hf).
  assert (Hb : Full.detect_burns (Full.common_pile (Full.game w) ++ [c]) = []).
  { unfold Full.detect_burns in *. rewrite foldl_app. simpl.
    unfold Full.count_card. by rewrite Hf. }
  unfold Full.play, Full.bind, Full.get, Full.modify_player, Full.modify, Full.ret.
  cbn [Full.for_each Full.bind Full.ret]. rewrite Hf.
  simpl. rewrite Hm, Hj. simpl. fold s. clearbody s.
  destruct s, pair; simpl; unfold Full.bind, Full.ret; simpl.
  1,2: destruct (Full.personal_pile (Full.players (Full.game w)).2) as [|x pp] eqn:Hpp.
  5,6: destruct (Full.personal_pile (Full.players (Full.game w)).1) as [|x pp] eqn:Hpp.
  all: simpl.
  all: rewrite resolve_burns_none by (simpl; exact Hb).
  all: simpl; repeat case_match; simpl; rewrite ?Hpp, ?app_nil_r.
  all: split_and!; first [done | congruence].
Qed.

(** A, to move, plays a PFJ and takes B's personal pile of one card. *)
Lemma full_pfj_steals_personal_pile_witness :
  let w' := snd (Full.play P0 [Full.mkCard 7 Full.PFJ] false Examples.full_world) in
  Full.personal_pile (Full.player (Full.game w') P0)
  = [Full.mkCard 4 (Full.Normal SIX DIAMONDS); Full.mkCard 6 (Full.Normal Q CLUBS)]
  ∧ Full.personal_pile (Full.player (Full.game w') P1) = [].
Proof.
  intros w'.
  destruct (full_pfj_steals_personal_pile Examples.full_world (Full.mkCard 7 Full.PFJ)
              false eq_refl eq_refl) as (H1 & H2 & _).
  split; [exact H1|exact H2].
Defined.
